(** * TruthGuard backend: the content credibility pipeline of checkController

    A shallow embedding of [controllers/checkController.js]: the signal
    extractors, the similarity matcher, the news verifier adapter and the
    score fusion of [checkContent], with the properties of the design
    document settled against them.

    Modelling conventions.
    - A JavaScript number is a [num]: a finite value, kept as a rational,
      or one of [Infinity], [-Infinity], [NaN]; the special values follow
      IEEE 754 as JavaScript exposes them.  There is a single zero: every
      divisor in the program is a count or a positive constant, and a zero
      of either sign is printed alike.
    - What [checkContent] computes from the numbers of the services (the
      percentages, the local scores, [combineScores], the average of the
      confidences), [adjustScoreByFactors] and [combineAnalysis] is
      computed in binary64: each operation rounds its operands and its
      exact result to the nearest binary64 value ([b64]: 53 significant
      bits, ties to even, gradual underflow, overflow to an infinity).  A
      rational operand stands for the decimal number of the answer or of
      the source text, read as JavaScript reads it.
    - The arithmetic on counts is exact: the similarity of the verifier
      adapter, a quotient of two counts, with its percentage, the text
      complexity and the source reliability.  What is proved of them are
      values, ranges and thresholds that the rounding of binary64 keeps.
    - A JavaScript string is the sequence of its code units, restricted to
      code units below 256 (one [ascii] each).
    - A regular expression literal is a term of [Regex.regex]; matching is
      the backtracking matcher of the language definition.
    - An exception is a [Throw] of the [completion] monad, which carries
      the message of the error; [await] is its bind.
    - The external services are inputs: each request is given by what it
      settles to, an answer or a thrown error. *)

From Stdlib Require Import ZArith QArith Qround Qminmax Qabs Qpower Lia Lqa List String Ascii Bool Arith.
From Stdlib Require Import Sorted Permutation.
Import ListNotations.

Set Implicit Arguments.

(* ================================================================== *)
(** * JavaScript numbers *)

Module Num.

Inductive num : Type :=
| Fin (q : Q)
| PInf
| NInf
| NaN.

Definition of_Z (z : Z) : num := Fin (inject_Z z).
Definition of_nat (n : nat) : num := of_Z (Z.of_nat n).

(** [undefined] read from an array or an object coerces to [NaN] in
    arithmetic. *)
Definition of_option (o : option Q) : num :=
  match o with Some q => Fin q | None => NaN end.

Definition neg (a : num) : num :=
  match a with
  | Fin x => Fin (Qred (- x))
  | PInf => NInf
  | NInf => PInf
  | NaN => NaN
  end.

Definition add (a b : num) : num :=
  match a, b with
  | NaN, _ => NaN
  | _, NaN => NaN
  | Fin x, Fin y => Fin (Qred (x + y))
  | Fin _, PInf => PInf
  | Fin _, NInf => NInf
  | PInf, NInf => NaN
  | NInf, PInf => NaN
  | PInf, _ => PInf
  | NInf, _ => NInf
  end.

Definition sub (a b : num) : num := add a (neg b).

(** The infinity of the sign of [x], or [NaN] when [x] is zero. *)
Definition inf_signed (pos : bool) (x : Q) : num :=
  match x ?= 0 with
  | Eq => NaN
  | Gt => if pos then PInf else NInf
  | Lt => if pos then NInf else PInf
  end.

Definition mul (a b : num) : num :=
  match a, b with
  | NaN, _ => NaN
  | _, NaN => NaN
  | Fin x, Fin y => Fin (Qred (x * y))
  | Fin x, PInf => inf_signed true x
  | Fin x, NInf => inf_signed false x
  | PInf, Fin y => inf_signed true y
  | NInf, Fin y => inf_signed false y
  | PInf, PInf => PInf
  | NInf, NInf => PInf
  | PInf, NInf => NInf
  | NInf, PInf => NInf
  end.

Definition div (a b : num) : num :=
  match a, b with
  | NaN, _ => NaN
  | _, NaN => NaN
  | Fin x, Fin y =>
      match y ?= 0 with
      | Eq => inf_signed true x
      | _ => Fin (Qred (x / y))
      end
  | Fin _, PInf => Fin 0
  | Fin _, NInf => Fin 0
  | PInf, Fin y => if Qle_bool 0 y then PInf else NInf
  | NInf, Fin y => if Qle_bool 0 y then NInf else PInf
  | _, _ => NaN
  end.

(** [Math.min(a, b)] and [Math.max(a, b)]: [NaN] as soon as one argument
    is. *)
Definition min (a b : num) : num :=
  match a, b with
  | NaN, _ => NaN
  | _, NaN => NaN
  | NInf, _ => NInf
  | _, NInf => NInf
  | PInf, y => y
  | x, PInf => x
  | Fin x, Fin y => if Qle_bool x y then Fin x else Fin y
  end.

Definition max (a b : num) : num :=
  match a, b with
  | NaN, _ => NaN
  | _, NaN => NaN
  | PInf, _ => PInf
  | _, PInf => PInf
  | NInf, y => y
  | x, NInf => x
  | Fin x, Fin y => if Qle_bool x y then Fin y else Fin x
  end.

(** [Math.max(...xs)]: [-Infinity] on the empty list. *)
Definition max_list (xs : list num) : num := fold_left max xs NInf.

(** [Math.round]: the nearest integer, a tie going up. *)
Definition round_Q (x : Q) : Z := Qfloor (x + (1 # 2)).

Definition round (a : num) : num :=
  match a with
  | Fin x => of_Z (round_Q x)
  | other => other
  end.

(** Comparisons; each is false when an operand is [NaN]. *)
Definition le (a b : num) : bool :=
  match a, b with
  | NaN, _ => false
  | _, NaN => false
  | NInf, _ => true
  | _, PInf => true
  | PInf, _ => false
  | _, NInf => false
  | Fin x, Fin y => Qle_bool x y
  end.

Definition lt (a b : num) : bool :=
  match a, b with
  | NaN, _ => false
  | _, NaN => false
  | PInf, _ => false
  | _, NInf => false
  | NInf, _ => true
  | _, PInf => true
  | Fin x, Fin y => negb (Qle_bool y x)
  end.

Definition ge (a b : num) : bool := le b a.
Definition gt (a b : num) : bool := lt b a.

(** ** Binary64 *)

(** The integer part of the binary logarithm of [n/d]. *)
Definition ilog2 (n d : positive) : Z :=
  let l := (Z.log2 (Zpos n) - Z.log2 (Zpos d))%Z in
  if Qle_bool (2 ^ l) (Zpos n # d) then l else (l - 1)%Z.

(** The exponent of the last place of [n/d]: 52 below its binary
    logarithm, and no lower than that of the subnormal numbers. *)
Definition ulp_exp (n d : positive) : Z := Z.max (-1074) (ilog2 n d - 52).

(** The nearest integer, a tie going to the even one. *)
Definition rne (t : Q) : Z :=
  let f := Qfloor t in
  match Qcompare (t - inject_Z f) (1 # 2) with
  | Lt => f
  | Gt => (f + 1)%Z
  | Eq => if Z.even f then f else (f + 1)%Z
  end.

(** The nearest multiple of [2^e]. *)
Definition round_at (e : Z) (x : Q) : Q := inject_Z (rne (x / 2 ^ e)) * 2 ^ e.

(** Rounding to 53 significant bits, the exponent not bounded above. *)
Definition rnd (x : Q) : Q :=
  match Qnum x with
  | Z0 => 0
  | Zpos n => round_at (ulp_exp n (Qden x)) (Zpos n # Qden x)
  | Zneg n => - round_at (ulp_exp n (Qden x)) (Zpos n # Qden x)
  end.

(** The binary64 value of a real number: round to nearest, ties to
    even; a rounded magnitude of [2^1024] or more is an infinity. *)
Definition b64 (x : Q) : num :=
  let v := rnd x in
  if Qle_bool (2 ^ 1024) v then PInf
  else if Qle_bool v (- 2 ^ 1024) then NInf
  else Fin (Qred v).

Definition fl (a : num) : num :=
  match a with
  | Fin x => b64 x
  | other => other
  end.

(** The four operations of binary64: the exact result of the operation on
    the binary64 operands, rounded. *)
Definition fadd (a b : num) : num := fl (add (fl a) (fl b)).
Definition fsub (a b : num) : num := fl (sub (fl a) (fl b)).
Definition fmul (a b : num) : num := fl (mul (fl a) (fl b)).
Definition fdiv (a b : num) : num := fl (div (fl a) (fl b)).

(** The value is an integer between [lo] and [hi]. *)
Definition int_between (lo hi : Z) (a : num) : Prop :=
  exists z : Z, a = of_Z z /\ (lo <= z <= hi)%Z.

(** The value is finite and lies between [lo] and [hi]. *)
Definition fin_between (lo hi : Q) (a : num) : Prop :=
  exists q : Q, a = Fin q /\ lo <= q <= hi.

End Num.

Import Num.

Declare Scope num_scope.
Delimit Scope num_scope with num.
Infix "+" := Num.add : num_scope.
Infix "-" := Num.sub : num_scope.
Infix "*" := Num.mul : num_scope.
Infix "/" := Num.div : num_scope.

(* ================================================================== *)
(** * JavaScript strings *)

Module Str.

Local Open Scope nat_scope.

Definition chars : Type := list ascii.

Definition of_string (s : string) : chars := list_ascii_of_string s.
Definition to_string (cs : chars) : string := string_of_list_ascii cs.

Definition code (c : ascii) : nat := nat_of_ascii c.

Definition between (lo hi : nat) (c : ascii) : bool :=
  (lo <=? code c) && (code c <=? hi).

(** Letters with a counterpart of the other case among the code units
    below 256: A-Z and the accented capitals 192-222 (215 is the
    multiplication sign), a-z and 224-254 (247 is the division sign). *)
Definition is_upper (c : ascii) : bool :=
  between 65 90 c || (between 192 222 c && negb (code c =? 215)).

Definition is_lower (c : ascii) : bool :=
  between 97 122 c || (between 224 254 c && negb (code c =? 247)).

Definition lower (c : ascii) : ascii :=
  if is_upper c then ascii_of_nat (code c + 32) else c.

Definition upper (c : ascii) : ascii :=
  if is_lower c then ascii_of_nat (code c - 32) else c.

(** The double quotation mark. *)
Definition dquote : ascii := ascii_of_nat 34.

(** [String.prototype.toLowerCase]. *)
Definition toLowerCase (cs : chars) : chars := map lower cs.

(** White space of [\s] and of [trim]: tab, line feed, vertical tab, form
    feed, carriage return, space and the no-break space. *)
Definition is_space (c : ascii) : bool :=
  between 9 13 c || (code c =? 32) || (code c =? 160).

Definition is_digit (c : ascii) : bool := between 48 57 c.

(** The characters of [\w]. *)
Definition is_word (c : ascii) : bool :=
  between 97 122 c || between 65 90 c || is_digit c || (code c =? 95).

Fixpoint drop_while (p : ascii -> bool) (cs : chars) : chars :=
  match cs with
  | [] => []
  | c :: tl => if p c then drop_while p tl else cs
  end.

(** [String.prototype.trim]. *)
Definition trim (cs : chars) : chars :=
  rev (drop_while is_space (rev (drop_while is_space cs))).

Definition eqb (a b : chars) : bool :=
  if list_eq_dec ascii_dec a b then true else false.

(** [Array.prototype.includes] on an array of strings. *)
Definition includes (xs : list chars) (x : chars) : bool :=
  existsb (eqb x) xs.

(** [Array.prototype.join]. *)
Fixpoint join (sep : chars) (xs : list chars) : chars :=
  match xs with
  | [] => []
  | [x] => x
  | x :: tl => x ++ sep ++ join sep tl
  end.

End Str.

(* ================================================================== *)
(** * Regular expressions *)

Module Regex.

Import Str.
Local Open Scope nat_scope.

(** The constructs the patterns of the controller use.  A class is a list
    of inclusive ranges; a quantifier is greedy, with a minimum and an
    optional maximum; groups are numbered as in the pattern. *)
Inductive regex : Type :=
| Eps
| Chr (c : ascii)
| Cls (negated : bool) (ranges : list (ascii * ascii))
| Seq (a b : regex)
| Alt (a b : regex)
| Rep (mn : nat) (mx : option nat) (a : regex)
| Grp (n : nat) (a : regex)
| WordB
| Bol
| Eol.

(** The position of the matcher in the input: the index, the character
    before it, the characters from it on, and the groups captured so far. *)
Record mstate : Type := MState {
  pos : nat;
  prev : option ascii;
  rest : chars;
  caps : list (nat * chars)
}.

Definition advance (x : mstate) (c : ascii) (tl : chars) : mstate :=
  MState (S (pos x)) (Some c) tl (caps x).

Definition set_cap (n : nat) (v : chars) (x : mstate) : mstate :=
  MState (pos x) (prev x) (rest x)
         ((n, v) :: filter (fun p => negb (fst p =? n)) (caps x)).

Definition clear_caps (ns : list nat) (x : mstate) : mstate :=
  MState (pos x) (prev x) (rest x)
         (filter (fun p => negb (existsb (Nat.eqb (fst p)) ns)) (caps x)).

Fixpoint get_cap (n : nat) (cs : list (nat * chars)) : option chars :=
  match cs with
  | [] => None
  | (k, v) :: tl => if k =? n then Some v else get_cap n tl
  end.

Fixpoint groups (r : regex) : list nat :=
  match r with
  | Seq a b => groups a ++ groups b
  | Alt a b => groups a ++ groups b
  | Rep _ _ a => groups a
  | Grp n a => n :: groups a
  | _ => []
  end.

(** Character comparison; under the [i] flag both sides are
    canonicalised, which on these code units is upper-casing. *)
Definition ceq (ic : bool) (c d : ascii) : bool :=
  if ic then code (upper c) =? code (upper d) else code c =? code d.

Definition in_range (r : ascii * ascii) (d : ascii) : bool :=
  between (code (fst r)) (code (snd r)) d.

Definition in_class (ic : bool) (rs : list (ascii * ascii)) (d : ascii) : bool :=
  if ic
  then existsb (fun r => in_range r (upper d) || in_range r (lower d)) rs
  else existsb (fun r => in_range r d) rs.

Definition word_at (o : option ascii) : bool :=
  match o with Some c => is_word c | None => false end.

(** One quantifier, after RepeatMatcher: [ma] matches the quantified
    atom, [gs] are the groups inside it, reset at each round.  Below the
    minimum a round is mandatory; past it, a round that consumes nothing
    is rejected, and when no further round leads to a match the
    continuation takes over.  Each round lowers the minimum or consumes a
    character, so [fuel] rounds suffice as soon as [fuel] exceeds the
    minimum plus the characters left. *)
Fixpoint rep (ma : mstate -> (mstate -> option mstate) -> option mstate)
             (gs : list nat) (k : mstate -> option mstate)
             (fuel mn : nat) (mx : option nat) (x : mstate) {struct fuel}
    : option mstate :=
  match fuel with
  | O => None
  | S fuel' =>
      match mx with
      | Some O => k x
      | _ =>
          let d := fun y : mstate =>
            if (mn =? 0) && (pos y =? pos x) then None
            else rep ma gs k fuel' (Nat.pred mn) (option_map Nat.pred mx) y in
          let xr := clear_caps gs x in
          if mn =? 0
          then match ma xr d with
               | Some z => Some z
               | None => k x
               end
          else ma xr d
      end
  end.

(** The backtracking matcher, in continuation-passing style:
    [m_with extra ic r x k] matches [r] at [x] and hands every candidate
    end state to [k], in the priority order of the language (left
    alternative first, more repetitions first), until [k] accepts one.
    [extra] is added to the rounds granted to each quantifier; the result
    does not depend on it. *)
Fixpoint m_with (extra : nat) (ic : bool) (r : regex) (x : mstate)
                (k : mstate -> option mstate) {struct r} : option mstate :=
  match r with
  | Eps => k x
  | Chr c =>
      match rest x with
      | d :: tl => if ceq ic c d then k (advance x d tl) else None
      | [] => None
      end
  | Cls negated rs =>
      match rest x with
      | d :: tl =>
          if xorb negated (in_class ic rs d) then k (advance x d tl) else None
      | [] => None
      end
  | Seq a b => m_with extra ic a x (fun y => m_with extra ic b y k)
  | Alt a b =>
      match m_with extra ic a x k with
      | Some z => Some z
      | None => m_with extra ic b x k
      end
  | Grp n a =>
      m_with extra ic a x
             (fun y => k (set_cap n (firstn (pos y - pos x) (rest x)) y))
  | Rep mn mx a =>
      rep (m_with extra ic a) (groups a) k
          (extra + S (mn + List.length (rest x))) mn mx x
  | WordB =>
      if xorb (word_at (prev x)) (word_at (hd_error (rest x))) then k x else None
  | Bol => match prev x with None => k x | Some _ => None end
  | Eol => match rest x with [] => k x | _ :: _ => None end
  end.

Definition m : bool -> regex -> mstate -> (mstate -> option mstate) -> option mstate :=
  m_with 0.

(** A match: where it starts, the matched text ([match[0]]) and the groups. *)
Record jsmatch : Type := JsMatch {
  mstart : nat;
  mtext : chars;
  mcaps : list (nat * chars)
}.

Definition group (n : nat) (mt : jsmatch) : option chars := get_cap n (mcaps mt).

(** The match of [r] starting exactly at index [p]. *)
Definition match_at (ic : bool) (r : regex) (p : nat) (pv : option ascii)
                    (cs : chars) : option jsmatch :=
  match m ic r (MState p pv cs []) (fun y => Some y) with
  | Some y => Some (JsMatch p (firstn (pos y - p) cs) (caps y))
  | None => None
  end.

(** The first match at or after the current index: [exec] and [test] of
    a fresh regular expression. *)
Fixpoint search (ic : bool) (r : regex) (p : nat) (pv : option ascii)
                (cs : chars) {struct cs} : option jsmatch :=
  match match_at ic r p pv cs with
  | Some mt => Some mt
  | None =>
      match cs with
      | [] => None
      | c :: tl => search ic r (S p) (Some c) tl
      end
  end.

Definition test (ic : bool) (r : regex) (s : chars) : bool :=
  match search ic r 0 None s with Some _ => true | None => false end.

(** All the matches of a global pattern, left to right: after a match the
    search resumes at its end, one character further when it was empty.
    [skip] counts the characters still covered by the last match. *)
Fixpoint scan (ic : bool) (r : regex) (skip p : nat) (pv : option ascii)
              (cs : chars) {struct cs} : list jsmatch :=
  match skip with
  | S sk =>
      match cs with
      | [] => []
      | c :: tl => scan ic r sk (S p) (Some c) tl
      end
  | O =>
      match match_at ic r p pv cs with
      | Some mt =>
          mt :: match cs with
                | [] => []
                | c :: tl => scan ic r (Nat.pred (List.length (mtext mt))) (S p) (Some c) tl
                end
      | None =>
          match cs with
          | [] => []
          | c :: tl => scan ic r 0 (S p) (Some c) tl
          end
      end
  end.

(** [matchAll], and the loop over [exec] for patterns that cannot match
    the empty string. *)
Definition match_all (ic : bool) (r : regex) (s : chars) : list jsmatch :=
  scan ic r 0 0 None s.

(** [String.prototype.match] with a global pattern; the empty list stands
    for [null]. *)
Definition match_g (ic : bool) (r : regex) (s : chars) : list chars :=
  map mtext (match_all ic r s).

(** [String.prototype.replace] with a global pattern and a constant
    replacement. *)
Fixpoint replace_go (ic : bool) (r : regex) (by_ : chars) (skip p : nat)
                    (pv : option ascii) (cs : chars) {struct cs} : chars :=
  match skip with
  | S sk =>
      match cs with
      | [] => []
      | c :: tl => replace_go ic r by_ sk (S p) (Some c) tl
      end
  | O =>
      match match_at ic r p pv cs with
      | Some mt =>
          by_ ++ match cs with
                 | [] => []
                 | c :: tl =>
                     match List.length (mtext mt) with
                     | O => c :: replace_go ic r by_ 0 (S p) (Some c) tl
                     | S n => replace_go ic r by_ n (S p) (Some c) tl
                     end
                 end
      | None =>
          match cs with
          | [] => []
          | c :: tl => c :: replace_go ic r by_ 0 (S p) (Some c) tl
          end
      end
  end.

Definition replace_all (ic : bool) (r : regex) (by_ : chars) (s : chars) : chars :=
  replace_go ic r by_ 0 0 None s.

(** [String.prototype.split] with a pattern without groups: the pattern is
    tried at each index; a match that ends where the current piece began
    is passed over, any other closes the piece.  [cur] is the current
    piece, reversed. *)
Fixpoint split_go (ic : bool) (r : regex) (skip p : nat) (pv : option ascii)
                  (cs : chars) (cur : chars) {struct cs} : list chars :=
  match cs with
  | [] => [rev cur]
  | c :: tl =>
      match skip with
      | S sk => split_go ic r sk (S p) (Some c) tl cur
      | O =>
          match match_at ic r p pv cs with
          | Some mt =>
              match List.length (mtext mt), cur with
              | O, [] => split_go ic r 0 (S p) (Some c) tl [c]
              | O, _ :: _ => rev cur :: split_go ic r 0 (S p) (Some c) tl [c]
              | S n, _ => rev cur :: split_go ic r n (S p) (Some c) tl []
              end
          | None => split_go ic r 0 (S p) (Some c) tl (c :: cur)
          end
      end
  end.

Definition split (ic : bool) (r : regex) (s : chars) : list chars :=
  match s with
  | [] => match match_at ic r 0 None [] with Some _ => [] | None => [[]] end
  | _ :: _ => split_go ic r 0 0 None s []
  end.

(** ** Pattern syntax *)

Fixpoint lit_chars (cs : chars) : regex :=
  match cs with
  | [] => Eps
  | [c] => Chr c
  | c :: tl => Seq (Chr c) (lit_chars tl)
  end.

(** A literal run of characters. *)
Definition lit (s : string) : regex := lit_chars (of_string s).

Fixpoint alts (rs : list regex) : regex :=
  match rs with
  | [] => Eps
  | [r] => r
  | r :: tl => Alt r (alts tl)
  end.

Fixpoint seqs (rs : list regex) : regex :=
  match rs with
  | [] => Eps
  | [r] => r
  | r :: tl => Seq r (seqs tl)
  end.

(** An alternation of literal words, [w1|w2|...]. *)
Definition words (ws : list string) : regex := alts (map lit ws).

Definition star (r : regex) : regex := Rep 0 None r.
Definition plus (r : regex) : regex := Rep 1 None r.
Definition opt (r : regex) : regex := Rep 0 (Some 1) r.

Definition one (c : ascii) : ascii * ascii := (c, c).
Definition rng (lo hi : nat) : ascii * ascii := (ascii_of_nat lo, ascii_of_nat hi).

(** The ranges of [\s], [\d] and [\w]. *)
Definition cls_space : list (ascii * ascii) := [rng 9 13; rng 32 32; rng 160 160].
Definition cls_digit : list (ascii * ascii) := [rng 48 57].
Definition cls_word : list (ascii * ascii) := [rng 97 122; rng 65 90; rng 48 57; rng 95 95].

Definition digit : regex := Cls false cls_digit.
Definition wordc : regex := Cls false cls_word.
Definition space : regex := Cls false cls_space.

End Regex.

Import Str Regex.

Local Open Scope string_scope.
Local Open Scope nat_scope.

(* ================================================================== *)
(** * Signal extractors *)

(** ** extractNewsSource *)

Inductive SourceType : Type :=
| MajorNewsAgency
| SocialMedia
| NewsWebsite
| CitedSource
| OfficialSource
| LocalNews.

(** The string the controller stores in the [type] field. *)
Definition type_name (t : SourceType) : string :=
  match t with
  | MajorNewsAgency => "Major News Agency"
  | SocialMedia => "Social Media"
  | NewsWebsite => "News Website"
  | CitedSource => "Cited Source"
  | OfficialSource => "Official Source"
  | LocalNews => "Local News"
  end.

Inductive Confidence : Type := High | Medium | Low.

Record Source : Type := MkSource {
  name : string;
  type : SourceType;
  confidence : Confidence
}.

Definition confidence_of (t : SourceType) : Confidence :=
  match t with
  | MajorNewsAgency => High
  | OfficialSource => High
  | NewsWebsite => Medium
  | _ => Low
  end.

(** [[^,.]+] *)
Definition upto_comma_or_dot : regex := plus (Cls true [one ","; one "."]).

(** The six patterns of [sourcePatterns], in order; all carry [gi]. *)
Definition sourcePatterns : list (regex * SourceType) :=
  [ (Grp 1 (words ["Reuters"; "Associated Press"; "AP"; "AFP"; "BBC News"; "CNN";
                   "Fox News"; "MSNBC"; "Al Jazeera"; "The New York Times";
                   "Washington Post"; "The Guardian"; "USA Today";
                   "Wall Street Journal"; "Bloomberg"; "NPR"; "CBC News";
                   "NBC News"; "ABC News"; "CBS News"]),
     MajorNewsAgency);
    (seqs [alts [lit "reported"; lit "posted"; lit "shared"; lit "announced";
                 lit "stated"; lit "published"; lit "revealed";
                 Seq (lit "according to source") (opt (Chr "s"))];
           Chr " ";
           words ["on"; "via"; "through"; "in"];
           Chr " ";
           Grp 1 (words ["Twitter"; "Facebook"; "Instagram"; "LinkedIn";
                         "YouTube"; "TikTok"; "X"; "Thread"])],
     SocialMedia);
    (seqs [opt (Grp 1 (Alt (lit "www.")
                           (seqs [lit "http"; opt (Chr "s"); lit "://"])));
           star (Grp 2 (Seq (plus (Cls false [rng 97 122; rng 65 90; rng 48 57; one "-"]))
                            (Chr ".")));
           Grp 3 (words ["news"; "com"; "org"; "gov"; "edu"]);
           opt (Grp 4 (Seq (Chr "/") (star (Cls true cls_space))))],
     NewsWebsite);
    (seqs [words ["according to"; "as reported by"; "sources from"; "cited by";
                  "confirmed by"; "stated by"; "revealed by"; "announced by"];
           Chr " ";
           Grp 1 upto_comma_or_dot],
     CitedSource);
    (seqs [words ["officials from"; "spokesperson for"; "representatives of";
                  "statement from"];
           Chr " ";
           Grp 1 upto_comma_or_dot],
     OfficialSource);
    (seqs [words ["local"; "regional"; "city"; "county"; "state"];
           Chr " ";
           words ["news"; "media"; "press"; "reports"; "sources"];
           Chr " ";
           Grp 1 upto_comma_or_dot],
     LocalNews) ].

(** [/^[\s,."']+|[\s,."']+$/g] *)
Definition edge_punctuation : regex :=
  let cls := plus (Cls false (cls_space ++ [one ","; one "."; one dquote; one "'"])%list) in
  Alt (Seq Bol cls) (Seq cls Eol).

(** [/(reported by|according to|sources from|reported on|posted on|via|through|in)/gi] *)
Definition attribution_words : regex :=
  Grp 1 (words ["reported by"; "according to"; "sources from"; "reported on";
                "posted on"; "via"; "through"; "in"]).

(** The clean-up of a raw match. *)
Definition clean_source (raw : chars) : chars :=
  trim (replace_all true attribution_words []
          (replace_all false edge_punctuation [] raw)).

(** The text a match contributes: the whole match for agencies and web
    sites, the first group (when it is not empty) for the others. *)
Definition raw_source (t : SourceType) (mt : jsmatch) : chars :=
  match t with
  | MajorNewsAgency => mtext mt
  | NewsWebsite => mtext mt
  | _ =>
      match group 1 mt with
      | Some (c :: cs) => c :: cs
      | _ => mtext mt
      end
  end.

(** The two accumulators of the loop: the sources pushed so far (in
    order) and the lower-cased names already seen. *)
Definition add_match (t : SourceType) (acc : list Source * list chars)
                     (mt : jsmatch) : list Source * list chars :=
  let source := clean_source (raw_source t mt) in
  match source with
  | [] => acc
  | _ :: _ =>
      if includes (snd acc) (toLowerCase source) then acc
      else ((fst acc ++ [MkSource (to_string source) t (confidence_of t)])%list,
            toLowerCase source :: snd acc)
  end.

Definition add_pattern (content : chars) (acc : list Source * list chars)
                       (p : regex * SourceType) : list Source * list chars :=
  fold_left (add_match (snd p)) (match_all true (fst p) content) acc.

Definition confidenceOrder (c : Confidence) : Z :=
  match c with High => 3 | Medium => 2 | Low => 1 end%Z.

(** The comparator handed to [sort]. *)
Definition by_confidence (a b : Source) : Z :=
  (confidenceOrder (confidence b) - confidenceOrder (confidence a))%Z.

(** [Array.prototype.sort], which is stable: an element goes before the
    first later element the comparator puts it strictly before. *)
Fixpoint insert_sorted (A : Type) (cmp : A -> A -> Z) (x : A) (l : list A) : list A :=
  match l with
  | [] => [x]
  | y :: tl => if (cmp x y <=? 0)%Z then x :: y :: tl else y :: insert_sorted cmp x tl
  end.

Definition sort (A : Type) (cmp : A -> A -> Z) (l : list A) : list A :=
  fold_right (insert_sorted cmp) [] l.

Definition extractNewsSource (content : string) : list Source :=
  let found := fold_left (add_pattern (of_string content)) sourcePatterns ([], []) in
  sort by_confidence (fst found).

(** ** Content factors *)

(** [/\s+/] and [/[.!?]+/] *)
Definition white_space : regex := plus space.
Definition sentence_end : regex := plus (Cls false [one "."; one "!"; one "?"]).

(** [/\b\w{10,}\b|\b(?:therefore|however|furthermore|consequently|nevertheless)\b/gi] *)
Definition complexWordPattern : regex :=
  Alt (seqs [WordB; Rep 10 None wordc; WordB])
      (seqs [WordB;
             words ["therefore"; "however"; "furthermore"; "consequently";
                    "nevertheless"];
             WordB]).

Definition non_empty (cs : chars) : bool :=
  match cs with [] => false | _ :: _ => true end.

(** The words and the sentences [calculateTextComplexity] counts. *)
Definition words_of (text : chars) : list chars :=
  filter non_empty (split false white_space text).

Definition sentences_of (text : chars) : list chars :=
  filter non_empty (split false sentence_end text).

Definition total_length (ws : list chars) : nat :=
  fold_left (fun sum w => sum + List.length w) ws 0.

Definition complexWords_of (text : chars) : nat :=
  List.length (match_g true complexWordPattern text).

(** The arithmetic of [calculateTextComplexity] on the four counts. *)
Definition complexity_of_counts (letters nwords nsentences ncomplex : nat) : num :=
  let avgWordLength := (of_nat letters / of_nat nwords)%num in
  let avgSentenceLength := (of_nat nwords / of_nat nsentences)%num in
  let lengthScore := (Num.min (avgWordLength / of_Z 8) (of_Z 1) * Fin (3 # 10))%num in
  let sentenceScore := (Num.min (avgSentenceLength / of_Z 25) (of_Z 1) * Fin (3 # 10))%num in
  let complexityScore :=
    (Num.min (of_nat ncomplex / (of_nat nwords * Fin (1 # 10))) (of_Z 1) * Fin (4 # 10))%num in
  (lengthScore + sentenceScore + complexityScore)%num.

Definition calculateTextComplexity (text : string) : num :=
  let t := of_string text in
  let words := words_of t in
  let sentences := sentences_of t in
  complexity_of_counts (total_length words) (List.length words)
                       (List.length sentences) (complexWords_of t).

(** ** countCitations *)

Definition citationPatterns : list (bool * regex) :=
  [ (true, lit "according to");
    (true, lit "cited by");
    (true, lit "reported by");
    (true, lit "source:");
    (false, seqs [Chr "["; plus digit; Chr "]"]);
    (false, seqs [Chr "("; Rep 4 (Some 4) digit; Chr ")"]) ].

Definition countCitations (content : string) : nat :=
  fold_left (fun count p => count + List.length (match_g (fst p) (snd p) (of_string content)))
            citationPatterns 0.

(** ** extractQuotes *)

Definition quoted (q : ascii) : regex :=
  seqs [Chr q; Grp 1 (plus (Cls true [one q])); Chr q].

(** The array lists the double-quote and the single-quote pattern twice. *)
Definition quotePatterns : list regex :=
  [ quoted dquote; quoted "'"; quoted dquote; quoted "'" ].

Definition group_or_empty (n : nat) (mt : jsmatch) : chars :=
  match group n mt with Some v => v | None => [] end.

Definition extractQuotes (content : string) : list string :=
  flat_map (fun p => map (fun mt => to_string (group_or_empty 1 mt))
                         (match_all false p (of_string content)))
           quotePatterns.

(** ** extractDates *)

Definition datePatterns : list regex :=
  [ seqs [WordB; Rep 1 (Some 2) digit; Chr "/"; Rep 1 (Some 2) digit; Chr "/";
          Rep 2 (Some 4) digit; WordB];
    seqs [WordB; Rep 4 (Some 4) digit; Chr "-"; Rep 2 (Some 2) digit; Chr "-";
          Rep 2 (Some 2) digit; WordB];
    seqs [WordB;
          words ["Jan"; "Feb"; "Mar"; "Apr"; "May"; "Jun"; "Jul"; "Aug"; "Sep";
                 "Oct"; "Nov"; "Dec"];
          star (Cls false [rng 97 122]);
          Chr " "; Rep 1 (Some 2) digit; opt (Chr ","); Chr " ";
          Rep 4 (Some 4) digit; WordB] ].

Definition extractDates (content : string) : list string :=
  flat_map (fun p => map to_string (match_g false p (of_string content))) datePatterns.

(** ** hasStatistics *)

Definition statPatterns : list (bool * regex) :=
  [ (false, Seq (plus digit) (Chr "%"));
    (false, seqs [Chr "$"; plus digit; opt (Seq (Chr ".") (Rep 2 (Some 2) digit))]);
    (true, seqs [plus digit; Chr " "; words ["million"; "billion"; "trillion"]]);
    (true, alts [lit "increased by"; Seq WordB (lit "decreased by");
                 Seq WordB (lit "grew by")]);
    (true, words ["statistics show"; "according to data"; "survey shows"]) ].

Definition hasStatistics (content : string) : bool :=
  existsb (fun p => test (fst p) (snd p) (of_string content)) statPatterns.

(** ** analyzeContentFactors *)

Record ContentFactors : Type := MkFactors {
  length : nat;
  complexity : num;
  citations : nat;
  quotes : list string;
  dates : list string;
  statistics : bool
}.

Definition analyzeContentFactors (content : string) : ContentFactors :=
  MkFactors (String.length content)
            (calculateTextComplexity content)
            (countCitations content)
            (extractQuotes content)
            (extractDates content)
            (hasStatistics content).

(* ================================================================== *)
(** * Similarity matcher *)

(** A value that is a string, [null] or [undefined] is falsy when it is
    absent or the empty string. *)
Definition truthy (s : option string) : option chars :=
  match s with
  | Some (String c tl) => Some (of_string (String c tl))
  | _ => None
  end.

(** The distinct elements, as a [Set] built from the array holds them. *)
Fixpoint uniq (xs : list chars) (seen : list chars) : list chars :=
  match xs with
  | [] => []
  | x :: tl => if includes seen x then uniq tl seen else x :: uniq tl (x :: seen)
  end.

Definition similarity_of_words (words1 words2 : list chars) : num :=
  let intersection := filter (fun word => includes words2 word) words1 in
  let union := uniq (words1 ++ words2)%list [] in
  (of_nat (List.length intersection) / of_nat (List.length union))%num.

Definition tokens (s : chars) : list chars := split false white_space (toLowerCase s).

Definition calculateSimilarity (str1 str2 : option string) : num :=
  match truthy str1, truthy str2 with
  | Some s1, Some s2 => similarity_of_words (tokens s1) (tokens s2)
  | _, _ => of_Z 0
  end.

(* ================================================================== *)
(** * Exceptions *)

(** How a computation that may throw completes: with its value, or with
    the [message] of the error thrown.  Awaiting a promise gives the value
    it is fulfilled with, or throws the error it is rejected with. *)
Inductive completion (A : Type) : Type :=
| Normal (a : A)
| Throw (message : string).

Arguments Normal {A} a.
Arguments Throw {A} message.

Definition bind (A B : Type) (c : completion A) (f : A -> completion B)
    : completion B :=
  match c with
  | Normal a => f a
  | Throw message => Throw message
  end.

Notation "x <- c ;; k" := (bind c (fun x => k))
  (at level 61, c at next level, right associativity).

(** [try { body } catch (error) { handler }], the handler receiving the
    message of the error. *)
Definition try_catch (A : Type) (body : completion A)
                     (handler : string -> completion A) : completion A :=
  match body with
  | Normal a => Normal a
  | Throw message => handler message
  end.

(** [Array.prototype.map] with a callback that may throw. *)
Fixpoint map_throwing (A B : Type) (f : A -> completion B) (l : list A)
    : completion (list B) :=
  match l with
  | [] => Normal []
  | a :: tl =>
      b <- f a ;;
      bs <- map_throwing f tl ;;
      Normal (b :: bs)
  end.

(* ================================================================== *)
(** * Resilient caller *)

(** The delay before the next attempt, in milliseconds. *)
Definition backoff_delay (i : nat) : nat := Nat.min (1000 * 2 ^ i) 5000.

(** The loop of [retryWithTimeout]: [apiCall i] is what attempt [i]
    settles to, an attempt aborted at its timeout being one that throws;
    [lastError] is the message of the last error caught. *)
Fixpoint retry_loop (A : Type) (apiCall : nat -> completion A)
                    (i remaining : nat) (lastError : string) : completion A :=
  match remaining with
  | O => Throw lastError
  | S n =>
      match apiCall i with
      | Normal response => Normal response
      | Throw message => retry_loop apiCall (S i) n message
      end
  end.

(** [retryWithTimeout(apiCall, maxRetries)].  With no attempt at all the
    value thrown is [undefined], which carries no message; every call of
    the controller leaves [maxRetries] to its default, 3. *)
Definition retryWithTimeout (A : Type) (apiCall : nat -> completion A)
                            (maxRetries : nat) : completion A :=
  retry_loop apiCall 0 maxRetries EmptyString.

(* ================================================================== *)
(** * News verifier adapter *)

Module News.

(** An article of the search response; a field that is missing or [null]
    is [None].  [source] is the [source] object, holding its [name]. *)
Record Article : Type := MkArticle {
  title : option string;
  description : option string;
  source : option (option string);
  url : option string;
  publishedAt : option string
}.

(** An entry of [matchedArticles]; [source] is the name of the source. *)
Module Matched.
Record t : Type := Mk {
  title : option string;
  source : option string;
  url : option string;
  publishedAt : option string
}.
End Matched.

(** The body of the search response. *)
Record Response : Type := MkResponse {
  status : string;
  articles : option (list Article)
}.

Record Result : Type := MkResult {
  isVerified : bool;
  confidence : num;
  matchedArticles : list Matched.t;
  error : option string
}.

(** The query: the first five words longer than four characters. *)
Definition keywords (content : string) : string :=
  to_string
    (join (of_string " OR ")
       (firstn 5 (filter (fun word => 4 <? List.length word)
                         (split false white_space (of_string content))))).

(** The message of the TypeError raised by a property read on
    [undefined], as V8 words it. *)
Definition type_error (property : string) : string :=
  "Cannot read properties of undefined (reading '" ++ property ++ "')".

(** The value both degraded returns share; the [catch] adds the message. *)
Definition degraded (err : option string) : Result :=
  MkResult false (of_Z 0) [] err.

(** The callback of the [map] over the first three articles; reading
    [article.source.name] throws when the article has no [source].  A
    [source] that is [null] is taken as a missing one; the message then
    says "null" where the model says "undefined". *)
Definition matched (article : Article) : completion Matched.t :=
  match source article with
  | None => Throw (type_error "name")
  | Some nm => Normal (Matched.Mk (title article) nm (url article) (publishedAt article))
  end.

Definition article_similarity (content : string) (a : Article) : num :=
  let titleSimilarity := calculateSimilarity (Some content) (title a) in
  let descriptionSimilarity := calculateSimilarity (Some content) (description a) in
  Num.max titleSimilarity descriptionSimilarity.

Section Adapter.

(** The search service: what the request for a query settles to. *)
Variable newsApi : string -> completion Response.

Definition verifyWithNewsAPI (content : string) : completion Result :=
  try_catch
    (response <- newsApi (keywords content) ;;
     if String.eqb (status response) "ok" then
       match articles response with
       | None => Throw (type_error "length")
       | Some arts =>
           if 0 <? List.length arts then
             let similarityScores := map (article_similarity content) arts in
             let maxSimilarity := max_list similarityScores in
             ms <- map_throwing matched (firstn 3 arts) ;;
             Normal (MkResult (gt maxSimilarity (Fin (6 # 10)))
                              (round (maxSimilarity * of_Z 100)%num)
                              ms None)
           else Normal (degraded None)
       end
     else Normal (degraded None))
    (fun message => Normal (degraded (Some message))).

End Adapter.

End News.

(* ================================================================== *)
(** * Fusion engine and orchestrator *)

Definition getReliabilityLevel (score : num) : string :=
  if ge score (of_Z 80) then "highly reliable"
  else if ge score (of_Z 60) then "reliable"
  else if ge score (of_Z 40) then "moderately reliable"
  else if ge score (of_Z 20) then "somewhat unreliable"
  else "unreliable".

(** [combineScores] with its default weights, and with explicit ones. *)
Definition combineScoresWith (score1 score2 weight1 weight2 : num) : num :=
  round (fadd (fmul score1 weight1) (fmul score2 weight2)).

Definition combineScores (score1 score2 : num) : num :=
  combineScoresWith score1 score2 (Fin (6 # 10)) (Fin (4 # 10)).

(** [Array.prototype.indexOf] on an array of strings; [None] is -1. *)
Fixpoint indexOf (xs : list string) (x : string) : option nat :=
  match xs with
  | [] => None
  | y :: tl =>
      if String.eqb y x then Some 0
      else match indexOf tl x with Some i => Some (S i) | None => None end
  end.

(** [scores[i]] as a number: [undefined], hence [NaN], at -1 and past the
    end. *)
Definition score_at (scores : list Q) (i : option nat) : num :=
  match i with
  | Some n => of_option (nth_error scores n)
  | None => NaN
  end.

(** The unshifted local scores. *)
Definition local_credibility (factual misleading false_ : num) : num :=
  round (fsub (fsub (fmul factual (of_Z 100)) (fmul misleading (of_Z 50)))
              (fmul false_ (of_Z 100))).

Definition local_truth (factual false_ : num) : num :=
  round (fsub (fmul factual (of_Z 100)) (fmul false_ (of_Z 100))).

(** [Math.max(0, Math.min(100, score + 50))].  The score is an integer
    (or not finite), so the sum is written exactly: binary64 rounds it
    only beyond 2^53, where the clamp returns 0 or 100 either way. *)
Definition shift_and_clamp (score : num) : num :=
  Num.max (of_Z 0) (Num.min (of_Z 100) (score + of_Z 50)%num).

(** [Math.round(x * 100)] *)
Definition percent (x : num) : num := round (fmul x (of_Z 100)).

(** The zero-shot classifier: the request sent, and the body of its
    answer, the scores aligned with the labels. *)
Module Classifier.
Record Request : Type := MkRequest {
  inputs : string;
  candidate_labels : list string
}.
Record Response : Type := MkResponse {
  labels : list string;
  scores : list Q
}.
End Classifier.

(** The object parsed from the assessor's answer; a field it lacks reads
    as [undefined] and is [NaN] in the arithmetic. *)
Record MistralResult : Type := MkMistral {
  mistral_credibilityScore : num;
  mistral_truthScore : num;
  mistral_confidence : num
}.

Module ContentAnalysis.
Record t : Type := Mk {
  isNews : bool;
  contentType : option string;
  confidence : num;
  factors : ContentFactors
}.
End ContentAnalysis.

Module Details.
Record t : Type := Mk {
  factualScore : num;
  misleadingScore : num;
  falseScore : num;
  opinionScore : num
}.
End Details.

Module VerificationResult.
Record t : Type := Mk {
  labels : list string;
  scores : list num;
  primaryClassification : option string;
  details : Details.t
}.
End VerificationResult.

Module SourceAnalysis.
Record t : Type := Mk {
  sources : list Source;
  hasIdentifiableSources : bool;
  primarySource : option Source;
  sourceCount : nat;
  sourceTypes : list string
}.
End SourceAnalysis.

Module Reliability.
Record t : Type := Mk {
  score : num;
  label : string;
  confidence : num
}.
End Reliability.

Module ContentQuality.
Record t : Type := Mk {
  complexity : num;
  citations : nat;
  hasQuotes : bool;
  hasDates : bool;
  hasStatistics : bool
}.
End ContentQuality.

Module CredibilityMetrics.
Record t : Type := Mk {
  credibilityScore : num;
  truthScore : num;
  reliability : Reliability.t;
  contentQuality : ContentQuality.t
}.
End CredibilityMetrics.

Module NewsVerification.
Record t : Type := Mk {
  isVerified : bool;
  confidence : num;
  matchedArticles : list News.Matched.t;
  verdict : string
}.
End NewsVerification.

Module CombinedMetrics.
Record t : Type := Mk {
  credibilityScore : num;
  truthScore : num;
  confidence : num;
  newsReliability : num
}.
End CombinedMetrics.

(** The body of the successful answer (the time stamp left out). *)
Record Report : Type := MkReport {
  content : string;
  contentAnalysis : ContentAnalysis.t;
  verificationResult : VerificationResult.t;
  sourceAnalysis : SourceAnalysis.t;
  credibilityMetrics : CredibilityMetrics.t;
  mistralAnalysis : MistralResult;
  newsVerification : NewsVerification.t;
  combinedMetrics : CombinedMetrics.t
}.

(** What [checkContent] sends back. *)
Inductive Answer : Type :=
| BadRequest (error : string)
| AnalysisFailed (details : string) (retryAfter : nat)
| Completed (report : Report).

(** The distinct strings of a list, first occurrences kept in order. *)
Fixpoint distinct (xs : list string) (seen : list string) : list string :=
  match xs with
  | [] => []
  | x :: tl =>
      if existsb (String.eqb x) seen then distinct tl seen
      else x :: distinct tl (x :: seen)
  end.

(** The steps of [checkContent] after the analyses have settled with a
    value. *)
Definition build_report (content : string)
    (newsClassificationResponse factCheckResponse : Classifier.Response)
    (mistralResult : MistralResult) (newsApiResult : News.Result) : Report :=
  let typeLabels := Classifier.labels newsClassificationResponse in
  let typeScores := Classifier.scores newsClassificationResponse in
  let labels := Classifier.labels factCheckResponse in
  let scores := Classifier.scores factCheckResponse in
  let isNews :=
    match hd_error typeLabels with
    | Some l => String.eqb l "news article"
    | None => false
    end in
  let contentType := hd_error typeLabels in
  let contentConfidence := of_option (hd_error typeScores) in
  let factual := score_at scores (indexOf labels "factual") in
  let misleading := score_at scores (indexOf labels "misleading") in
  let false_ := score_at scores (indexOf labels "false") in
  let opinion := score_at scores (indexOf labels "opinion") in
  let credibilityScore := local_credibility factual misleading false_ in
  let truthScore := local_truth factual false_ in
  let sources := extractNewsSource content in
  let contentFactors := analyzeContentFactors content in
  let result_contentAnalysis :=
    ContentAnalysis.Mk isNews contentType (percent contentConfidence) contentFactors in
  let result_credibilityMetrics :=
    CredibilityMetrics.Mk
      (shift_and_clamp credibilityScore)
      (shift_and_clamp truthScore)
      (Reliability.Mk (percent factual)
                      (getReliabilityLevel credibilityScore)
                      (percent contentConfidence))
      (ContentQuality.Mk (complexity contentFactors)
                         (citations contentFactors)
                         (0 <? List.length (quotes contentFactors))
                         (0 <? List.length (dates contentFactors))
                         (statistics contentFactors)) in
  MkReport content
    result_contentAnalysis
    (VerificationResult.Mk labels
       (map (fun score => percent (Fin score)) scores)
       (hd_error labels)
       (Details.Mk (percent factual) (percent misleading)
                   (percent false_) (percent opinion)))
    (SourceAnalysis.Mk sources
       (0 <? List.length sources)
       (hd_error sources)
       (List.length sources)
       (distinct (map (fun s => type_name (type s)) sources) []))
    result_credibilityMetrics
    mistralResult
    (NewsVerification.Mk (News.isVerified newsApiResult)
       (News.confidence newsApiResult)
       (News.matchedArticles newsApiResult)
       (if News.isVerified newsApiResult then "REAL" else "POTENTIALLY FAKE"))
    (CombinedMetrics.Mk
       (combineScores (CredibilityMetrics.credibilityScore result_credibilityMetrics)
                      (mistral_credibilityScore mistralResult))
       (combineScores (CredibilityMetrics.truthScore result_credibilityMetrics)
                      (mistral_truthScore mistralResult))
       (round (fdiv (fadd (ContentAnalysis.confidence result_contentAnalysis)
                          (mistral_confidence mistralResult))
                    (of_Z 2)))
       (News.confidence newsApiResult)).

(** The external services of one submission.  [classifierApi request i]
    is what the attempt [i] of a classification request settles to; the
    assessor's call covers the request and the parsing of its answer. *)
Record Services : Type := MkServices {
  classifierApi : Classifier.Request -> nat -> completion Classifier.Response;
  mistralApi : string -> completion MistralResult;
  newsApi : string -> completion News.Response
}.

Definition newline : string := String (ascii_of_nat 10) EmptyString.

Definition type_request (content : string) : Classifier.Request :=
  Classifier.MkRequest
    (content ++ newline ++ "This text is:")
    ["news article"; "opinion piece"; "social media post"; "advertisement";
     "blog post"].

Definition factuality_request (content : string) : Classifier.Request :=
  Classifier.MkRequest
    (content ++ newline ++ "This content is:")
    ["factual"; "misleading"; "false"; "opinion"; "unverified"].

(** The two classifications, each under [retryWithTimeout]. *)
Definition classifyType (svc : Services) (content : string)
    : completion Classifier.Response :=
  retryWithTimeout (classifierApi svc (type_request content)) 3.

Definition classifyFactuality (svc : Services) (content : string)
    : completion Classifier.Response :=
  retryWithTimeout (classifierApi svc (factuality_request content)) 3.

(** [analyzeMistral] logs the error and throws it again. *)
Definition analyzeMistral (svc : Services) (content : string)
    : completion MistralResult :=
  try_catch (mistralApi svc content) (fun message => Throw message).

(** [checkContent].  The analyses run under [Promise.all], whose
    rejection reaches the outer [catch].  When several calls reject, the
    answer carries the message of the first in the order below (at run
    time, of the first to settle). *)
Definition checkContent (svc : Services) (content : string) : Answer :=
  match content with
  | EmptyString => BadRequest "Content is required"
  | String _ _ =>
      let analysis :=
        newsClassificationResponse <- classifyType svc content ;;
        factCheckResponse <- classifyFactuality svc content ;;
        mistralResult <- analyzeMistral svc content ;;
        newsApiResult <- News.verifyWithNewsAPI (newsApi svc) content ;;
        Normal (build_report content newsClassificationResponse factCheckResponse
                             mistralResult newsApiResult) in
      match analysis with
      | Normal combinedResult => Completed combinedResult
      | Throw message => AnalysisFailed message 5
      end
  end.

(* ================================================================== *)
(** * Specification vocabulary *)

(** [val a q]: the number [a] is finite and its value is [q]. *)
Definition val (a : num) (q : Q) : Prop :=
  exists q' : Q, a = Fin q' /\ (q' == q)%Q.

(** Closes [Qred e == e'] once the operands are rewritten. *)
Ltac qred_val Hx Hy :=
  etransitivity; [apply Qred_correct|]; rewrite Hx, Hy; reflexivity.

(** Closes [b64 c = Fin c'] on closed numbers by evaluation. *)
Ltac b64_eval := vm_compute; reflexivity.

(** [y] is [m * 2^e] for a significand of at most 53 bits and an exponent
    that is no lower than that of the subnormal numbers. *)
Definition representable (y : Q) : Prop :=
  exists m e : Z,
    (Z.abs m <= 2 ^ 53)%Z /\ (-1074 <= e)%Z /\ (y == inject_Z m * 2 ^ e)%Q.

(** The finite values of binary64. *)
Definition binary64 (y : Q) : Prop :=
  representable y /\ (- 2 ^ 1024 < y < 2 ^ 1024)%Q.

(** [e] is the exponent of the last place of [x]. *)
Definition expo_rel (x : Q) (e : Z) : Prop :=
  (-1074 <= e)%Z /\ (x < 2 ^ (e + 53))%Q /\
  ((-1074 < e)%Z -> (2 ^ (e + 52) <= x)%Q).

(** [z] is the integer nearest to [x], the upper one of two that are
    equally near: what [Math.round] returns. *)
Definition nearest_integer (x : Q) (z : Z) : Prop :=
  (inject_Z z - (1 # 2) <= x < inject_Z z + (1 # 2))%Q.

(** A magnitude that the products of the fusion cannot drive to an
    infinity. *)
Definition moderate (q : Q) : Prop := (- 2 ^ 1000 <= q <= 2 ^ 1000)%Q.

(** The formulas of the design document for the local scores, before
    the rounding to an integer: factual*100 - misleading*50 - false*100
    and factual*100 - false*100, each operation one of binary64. *)
Definition credibility_sum (f m fa : Q) : num :=
  fsub (fsub (fmul (Fin f) (of_Z 100)) (fmul (Fin m) (of_Z 50)))
       (fmul (Fin fa) (of_Z 100)).

Definition truth_sum (f fa : Q) : num :=
  fsub (fmul (Fin f) (of_Z 100)) (fmul (Fin fa) (of_Z 100)).

(** Shifted by 50 and clamped to [0,100]. *)
Definition shifted_and_clamped (c : Z) : Z := Z.max 0 (Z.min 100 (c + 50)).

(* ================================================================== *)
(** * Scenarios *)

(** The request asks for the factuality labels. *)
Definition asks_factuality (request : Classifier.Request) : bool :=
  match Classifier.candidate_labels request with
  | l :: _ => String.eqb l "factual"
  | [] => false
  end.

(** Services that answer every submission alike, at the first attempt. *)
Definition fixed_services (typ fact : completion Classifier.Response)
                          (assessed : completion MistralResult)
                          (news : completion News.Response) : Services :=
  MkServices (fun request _ => if asks_factuality request then fact else typ)
             (fun _ => assessed) (fun _ => news).

Definition factuality_labels : list string :=
  ["factual"; "misleading"; "false"; "opinion"; "unverified"].

Definition type_answer : completion Classifier.Response :=
  Normal (Classifier.MkResponse ["news article"; "blog post"; "opinion piece";
                  "social media post"; "advertisement"]
                 [(9 # 10)%Q; (4 # 100)%Q; (3 # 100)%Q; (2 # 100)%Q; (1 # 100)%Q]).

(** The factuality answer of the design document's scenario. *)
Definition mostly_factual : completion Classifier.Response :=
  Normal (Classifier.MkResponse factuality_labels
            [(7 # 10)%Q; (1 # 10)%Q; (5 # 100)%Q; (1 # 10)%Q; (5 # 100)%Q]).

Definition assessment (c t k : Z) : completion MistralResult :=
  Normal (MkMistral (of_Z c) (of_Z t) (of_Z k)).

Definition no_articles : completion News.Response :=
  Normal (News.MkResponse "ok" (Some [])).

Definition scenario_text : string := "Officials confirmed the results on Monday.".

Definition scenario_services : Services :=
  fixed_services type_answer mostly_factual (assessment 80 75 90) no_articles.

(** A factuality answer whose factual score, 0.145, would give 14.5 in
    exact arithmetic; the other scores are 0. *)
Definition half_point_services : Services :=
  fixed_services type_answer
    (Normal (Classifier.MkResponse factuality_labels
               [(145 # 1000)%Q; 0%Q; 0%Q; 0%Q; 0%Q]))
    (assessment 80 75 90) no_articles.

(** The five reliability labels. *)
Definition reliability_labels : list string :=
  ["highly reliable"; "reliable"; "moderately reliable"; "somewhat unreliable";
   "unreliable"].

(** The four fields of [combinedMetrics] are integers from 0 to 100. *)
Definition combined_in_range (r : Report) : Prop :=
  int_between 0 100 (CombinedMetrics.credibilityScore (combinedMetrics r)) /\
  int_between 0 100 (CombinedMetrics.truthScore (combinedMetrics r)) /\
  int_between 0 100 (CombinedMetrics.confidence (combinedMetrics r)) /\
  int_between 0 100 (CombinedMetrics.newsReliability (combinedMetrics r)).

(** An assessor that answers on a scale of its own. *)
Definition overrating_services : Services :=
  fixed_services type_answer mostly_factual (assessment 200 75 90) no_articles.

(** A factuality answer without the label "misleading". *)
Definition without_misleading : completion Classifier.Response :=
  Normal (Classifier.MkResponse ["factual"; "false"; "opinion"; "unverified"]
            [(7 # 10)%Q; (1 # 10)%Q; (1 # 10)%Q; (1 # 10)%Q]).

Definition unlabelled_services : Services :=
  fixed_services type_answer without_misleading (assessment 80 75 90) no_articles.

(** A factuality answer with scores of 1e307 for factual and misleading:
    both products of the credibility sum are infinite in binary64. *)
Definition overflowing_services : Services :=
  fixed_services type_answer
    (Normal (Classifier.MkResponse factuality_labels
               [inject_Z (10 ^ 307); inject_Z (10 ^ 307); 0%Q; 0%Q; 0%Q]))
    (assessment 80 75 90) no_articles.

(** The verifier has failed when its request threw, or was answered with
    a status other than "ok" or with no article. *)
Definition verifier_failed (o : completion News.Response) : Prop :=
  match o with
  | Throw _ => True
  | Normal response =>
      News.status response <> "ok" \/ News.articles response = Some []
  end.

(** The degraded shape: not verified, confidence 0, no matched article. *)
Definition is_degraded (r : News.Result) : Prop :=
  News.isVerified r = false /\
  News.confidence r = of_Z 0 /\
  News.matchedArticles r = [].

Definition article_titled (t : string) : News.Article :=
  News.MkArticle (Some t) None (Some (Some "Example Wire"))
                 (Some "https://example.org/a") (Some "2024-01-05T00:00:00Z").

(** A search service that answers every query, the empty one too, with
    one article. *)
Definition answering_api (t : string) : string -> completion News.Response :=
  fun _ => Normal (News.MkResponse "ok" (Some [article_titled t])).

(** The similarity as the design document words it: the Jaccard index of
    the two sets of case-folded white-space tokens. *)
Definition jaccard_of_words (words1 words2 : list chars) : num :=
  let set1 := uniq words1 [] in
  let intersection := filter (fun word => includes words2 word) set1 in
  let union := uniq (words1 ++ words2)%list [] in
  (of_nat (List.length intersection) / of_nat (List.length union))%num.

Definition similarity_spec (a b : option string) : num :=
  match truthy a, truthy b with
  | Some s1, Some s2 => jaccard_of_words (tokens s1) (tokens s2)
  | _, _ => of_Z 0
  end.

(** The text of the design document's extraction scenario. *)
Definition reuters_text : string :=
  "According to Reuters, officials confirmed 50% of votes were counted on 01/05/2024. "
  ++ String dquote "It was fair," ++ String dquote " said the spokesperson.".

(** The number is finite and not negative. *)
Definition nonneg (a : num) : Prop :=
  exists q : Q, a = Fin q /\ (0 <= q)%Q.

(** [reach x y]: the matcher can get from [x] to [y], that is, [y] lies
    further in the same input. *)
Definition reach (x y : mstate) : Prop :=
  pos y + List.length (rest y) = pos x + List.length (rest x) /\
  List.length (rest y) <= List.length (rest x).

(** A matcher respects [reach] when only the states reached from its
    start matter in its continuation. *)
Definition respects (ma : mstate -> (mstate -> option mstate) -> option mstate) : Prop :=
  forall x k k', (forall y, reach x y -> k y = k' y) -> ma x k = ma x k'.

(** Services whose answers are all in range, the search answering with
    one article titled "breaking news". *)
Definition matching_services : Services :=
  fixed_services type_answer mostly_factual (assessment 80 75 90)
                 (Normal (News.MkResponse "ok" (Some [article_titled "breaking news"]))).

(* ================================================================== *)
(** * Further helpers of the controller *)

(** ** adjustScoreByFactors *)

(** One term of the adjustment, [condition ? 5 : 0]. *)
Definition bonus (condition : bool) : num :=
  if condition then of_Z 5 else of_Z 0.

Definition adjustment_of (factors : ContentFactors) : num :=
  (of_Z 0
   + bonus (1000 <? length factors)
   + bonus (gt (complexity factors) (Fin (7 # 10)))
   + bonus (2 <? citations factors)
   + bonus (0 <? List.length (quotes factors))
   + bonus (0 <? List.length (dates factors))
   + bonus (statistics factors))%num.

Definition adjustScoreByFactors (score : num) (factors : ContentFactors) : num :=
  Num.max (of_Z 0) (Num.min (of_Z 100) (fadd score (adjustment_of factors))).

(** ** calculateSourceReliability *)

Module SourceScore.
Record t : Type := Mk {
  reliability : string;
  confidence : num
}.
End SourceScore.

(** The property names every object inherits from [Object.prototype]:
    looked up in the weight table they give a function or an object,
    which is truthy and multiplies to [NaN]. *)
Definition inherited_names : list string :=
  ["constructor"; "__proto__"; "hasOwnProperty"; "isPrototypeOf";
   "propertyIsEnumerable"; "toLocaleString"; "toString"; "valueOf";
   "__defineGetter__"; "__defineSetter__"; "__lookupGetter__";
   "__lookupSetter__"].

(** The weight table read at [curr.reliability], [|| 0] applied: a key
    the table does not hold reads as [undefined], and 0 is falsy. *)
Definition reliabilityWeight (reliability : string) : num :=
  if String.eqb reliability "reliable" then of_Z 100
  else if String.eqb reliability "questionable" then of_Z (-50)
  else if String.eqb reliability "unknown" then of_Z 0
  else if existsb (String.eqb reliability) inherited_names then NaN
  else of_Z 0.

Definition calculateSourceReliability (sourceScores : list SourceScore.t) : num :=
  (fold_left
     (fun acc curr =>
        acc + reliabilityWeight (SourceScore.reliability curr)
              * SourceScore.confidence curr)
     sourceScores (of_Z 0)
   / of_nat (List.length sourceScores))%num.

(** ** analyzeAuthenticityFactors *)

Module Authenticity.
Record t : Type := Mk {
  credibilityContribution : num;
  truthContribution : num;
  overallScore : num
}.
End Authenticity.

Definition analyzeAuthenticityFactors (credibilityScore truthScore : num)
    : Authenticity.t :=
  Authenticity.Mk credibilityScore truthScore
                  (round ((credibilityScore + truthScore) / of_Z 2)%num).

(* ================================================================== *)
(** * The stand-alone analyzer *)

(** [analyzeContent] of the analysis service: one request to a
    classification model and one to the assessor, combined. *)
Module Analyze.

(** The [data] of an answer, as far as [combineAnalysis] reads it; a field
    the answer lacks is [NaN] in the arithmetic.  A body that is JSON
    [null], on which reading a field throws, is not represented. *)
Module Data.
Record t : Type := Mk {
  score : num;
  confidence : num
}.
End Data.

Module Combined.
Record t : Type := Mk {
  credibilityScore : num;
  confidence : num
}.
End Combined.

Definition combineAnalysis (hfResult mistralResult : Data.t) : Combined.t :=
  Combined.Mk
    (fadd (fmul (Data.score hfResult) (Fin (6 # 10)))
          (fmul (Data.score mistralResult) (Fin (4 # 10))))
    (round (fdiv (fadd (Data.confidence hfResult) (Data.confidence mistralResult))
                 (of_Z 2))).

(** What [analyzeContent] returns: the two answers with their
    combination, or the error object.  When both requests fail,
    [Promise.all] rejects with the error that arrives first; the model
    takes that of the first request. *)
Inductive Result : Type :=
| Analysed (huggingface mistral : Data.t) (combined : Combined.t)
| Failed (error details : string).

Section Analyzer.

Variable hfApi mistralApi : string -> completion Data.t.

Definition analyzeContent (content : string) : completion Result :=
  try_catch
    (huggingfaceResult <- hfApi content ;;
     mistralResult <- mistralApi content ;;
     Normal (Analysed huggingfaceResult mistralResult
                      (combineAnalysis huggingfaceResult mistralResult)))
    (fun message => Normal (Failed "Analysis failed" message)).

End Analyzer.

End Analyze.

(* ================================================================== *)
(** * Further specification vocabulary *)

(** The five reliability labels, from worst to best. *)
Definition label_rank (label : string) : nat :=
  if String.eqb label "highly reliable" then 4
  else if String.eqb label "reliable" then 3
  else if String.eqb label "moderately reliable" then 2
  else if String.eqb label "somewhat unreliable" then 1
  else 0.

(** [a] is listed before [b] rightly: its confidence is not lower. *)
Definition at_least_as_confident (a b : Source) : Prop :=
  (confidenceOrder (confidence b) <= confidenceOrder (confidence a))%Z.

Definition same_confidence (c : Confidence) (s : Source) : bool :=
  (confidenceOrder (confidence s) =? confidenceOrder c)%Z.

(** The sources in the order the loop of [extractNewsSource] pushes them,
    before the sort. *)
Definition found_sources (content : string) : list Source :=
  fst (fold_left (add_pattern (of_string content)) sourcePatterns ([], [])).

(** What the loop keeps true of the sources pushed and of the names seen. *)
Definition well_formed_source (s : Source) : Prop :=
  name s <> EmptyString /\
  (forall c tl, of_string (name s) = c :: tl -> is_space c = false) /\
  (forall c front, of_string (name s) = (front ++ [c])%list -> is_space c = false) /\
  confidence s = confidence_of (type s).

(** The name of a source, lower-cased. *)
Definition lowered_name (s : Source) : chars := toLowerCase (of_string (name s)).

(** The invariant of the loop: the names seen are the lower-cased names
    of the sources pushed, without repetition, and every source pushed is
    well formed. *)
Definition loop_invariant (acc : list Source * list chars) : Prop :=
  snd acc = rev (map lowered_name (fst acc)) /\
  NoDup (snd acc) /\
  Forall well_formed_source (fst acc).

(** [sub] occurs in [s] as a run of consecutive characters. *)
Definition occurs_in (sub s : chars) : Prop :=
  exists pre post : chars, s = (pre ++ sub ++ post)%list.

(** The string neither starts nor ends with white space. *)
Definition trimmed (cs : chars) : Prop :=
  (forall c tl, cs = c :: tl -> is_space c = false) /\
  (forall c front, cs = (front ++ [c])%list -> is_space c = false).

(** The words a text yields as keywords, before they are joined. *)
Definition long_words (content : string) : list chars :=
  filter (fun word => 4 <? List.length word)
         (split false white_space (of_string content)).

(** A service whose attempt number [n] is the first to answer. *)
Definition answers_at (A : Type) (n : nat) (a : A) (i : nat) : completion A :=
  if i =? n then Normal a else Throw "timeout of 30000ms exceeded".

(** Services whose classifier times out twice before it answers. *)
Definition flaky_services : Services :=
  MkServices
    (fun request i =>
       if i =? 2
       then (if asks_factuality request then mostly_factual else type_answer)
       else Throw "timeout of 30000ms exceeded")
    (fun _ => assessment 80 75 90)
    (fun _ => no_articles).

(** A source score rated with one of the three keys of the weight table,
    its confidence a number in [0,1]. *)
Definition rated (s : SourceScore.t) : Prop :=
  In (SourceScore.reliability s) ["reliable"; "questionable"; "unknown"] /\
  fin_between 0 1 (SourceScore.confidence s).

(** The matcher of a one-character pattern: a class or a literal. *)
Definition atom (test : ascii -> bool) (x : mstate)
                (k : mstate -> option mstate) : option mstate :=
  match rest x with
  | d :: tl => if test d then k (advance x d tl) else None
  | [] => None
  end.

(** [v] is a quoted span of the text: it stands between two marks [q],
    is not empty and holds no [q]. *)
Definition quoted_span (q : ascii) (v text : chars) : Prop :=
  v <> [] /\ ~ In q v /\
  exists pre post : chars, text = (pre ++ q :: v ++ q :: post)%list.

(** The integer scores in percent. *)
Definition percents : list Z := map Z.of_nat (seq 0 101).

(** [combineScores] of [a] and [b] is the integer [(6a + 4b + 5) / 10],
    the exact weighted mean rounded half up. *)
Definition combines_exactly (a b : Z) : bool :=
  match combineScores (of_Z a) (of_Z b) with
  | Fin q => (Qnum q =? (6 * a + 4 * b + 5) / 10)%Z && (Qden q =? 1)%positive
  | _ => false
  end.

(* ================================================================== *)
(** * Arithmetic of finite values *)

Example round_half_up : round (Fin (5 # 2)) = of_Z 3 /\ round (Fin (- 5 # 2)) = of_Z (-2).
Proof. split; reflexivity. Qed.

Section Values.

Local Open Scope Q_scope.

Lemma val_Fin (q : Q) : val (Fin q) q.
Proof. exists q. split; [reflexivity | apply Qeq_refl]. Qed.

Lemma val_of_Z (z : Z) : val (of_Z z) (inject_Z z).
Proof. apply val_Fin. Qed.

Lemma val_of_nat (n : nat) : val (of_nat n) (inject_Z (Z.of_nat n)).
Proof. apply val_Fin. Qed.

Lemma val_eq (a : num) (q r : Q) : val a q -> q == r -> val a r.
Proof.
  intros [q' [Ha Hq]] Hr. exists q'. split; [assumption|].
  now rewrite Hq.
Qed.

Lemma val_add (a b : num) (x y : Q) : val a x -> val b y -> val (a + b)%num (x + y).
Proof.
  intros [x' [-> Hx]] [y' [-> Hy]]. eexists. split; [reflexivity|].
  qred_val Hx Hy.
Qed.

Lemma val_neg (a : num) (x : Q) : val a x -> val (neg a) (- x).
Proof.
  intros [x' [-> Hx]]. eexists. split; [reflexivity|].
  etransitivity; [apply Qred_correct|]. now rewrite Hx.
Qed.

Lemma val_sub (a b : num) (x y : Q) : val a x -> val b y -> val (a - b)%num (x - y).
Proof.
  intros Ha Hb. unfold sub, Qminus. apply val_add; [assumption | now apply val_neg].
Qed.

Lemma val_mul (a b : num) (x y : Q) : val a x -> val b y -> val (a * b)%num (x * y).
Proof.
  intros [x' [-> Hx]] [y' [-> Hy]]. eexists. split; [reflexivity|].
  qred_val Hx Hy.
Qed.

Lemma val_div (a b : num) (x y : Q) :
  val a x -> val b y -> ~ y == 0 -> val (a / b)%num (x / y).
Proof.
  intros [x' [-> Hx]] [y' [-> Hy]] Hnz. unfold div.
  destruct (y' ?= 0) eqn:E.
  - exfalso. apply Hnz. rewrite <- Hy. now apply Qeq_alt.
  - eexists. split; [reflexivity|]. qred_val Hx Hy.
  - eexists. split; [reflexivity|]. qred_val Hx Hy.
Qed.

Lemma val_min (a b : num) (x y : Q) : val a x -> val b y -> val (Num.min a b) (Qmin x y).
Proof.
  intros [x' [-> Hx]] [y' [-> Hy]]. unfold Num.min.
  destruct (Qle_bool x' y') eqn:E.
  - exists x'. split; [reflexivity|].
    apply Qle_bool_iff in E. rewrite Hx, Hy in E.
    rewrite Hx. symmetry. now apply Q.min_l.
  - exists y'. split; [reflexivity|].
    assert (H : ~ x' <= y') by (intro H; apply Qle_bool_iff in H; congruence).
    rewrite Hx, Hy in H. rewrite Hy. symmetry. apply Q.min_r.
    apply Qlt_le_weak. now apply Qnot_le_lt.
Qed.

Lemma val_max (a b : num) (x y : Q) : val a x -> val b y -> val (Num.max a b) (Qmax x y).
Proof.
  intros [x' [-> Hx]] [y' [-> Hy]]. unfold Num.max.
  destruct (Qle_bool x' y') eqn:E.
  - exists y'. split; [reflexivity|].
    apply Qle_bool_iff in E. rewrite Hx, Hy in E.
    rewrite Hy. symmetry. now apply Q.max_r.
  - exists x'. split; [reflexivity|].
    assert (H : ~ x' <= y') by (intro H; apply Qle_bool_iff in H; congruence).
    rewrite Hx, Hy in H. rewrite Hx. symmetry. apply Q.max_l.
    apply Qlt_le_weak. now apply Qnot_le_lt.
Qed.

(** [Math.round] of a finite value is the integer [round_Q] of it. *)
Lemma round_val (a : num) (x : Q) : val a x -> round a = of_Z (round_Q x).
Proof.
  intros [x' [-> Hx]]. unfold round, round_Q. now rewrite Hx.
Qed.

Lemma round_Q_bounds (lo hi : Z) (x : Q) :
  inject_Z lo <= x <= inject_Z hi -> (lo <= round_Q x <= hi)%Z.
Proof.
  intros [Hlo Hhi]. unfold round_Q. split.
  - rewrite <- (Qfloor_Z lo). apply Qfloor_resp_le. lra.
  - assert (H : inject_Z (Qfloor (x + (1 # 2))) < inject_Z (hi + 1)).
    { apply Qle_lt_trans with (x + (1 # 2)); [apply Qfloor_le|].
      rewrite inject_Z_plus. change (inject_Z 1) with 1. lra. }
    rewrite <- Zlt_Qlt in H. lia.
Qed.

Lemma round_Q_Z (z : Z) : round_Q (inject_Z z) = z.
Proof.
  assert (H : (z <= round_Q (inject_Z z) <= z)%Z)
    by (apply round_Q_bounds; split; apply Qle_refl).
  lia.
Qed.

Lemma Qred_inject_Z (z : Z) : Qred (inject_Z z) = inject_Z z.
Proof.
  unfold Qred, inject_Z.
  generalize (Z.ggcd_gcd z 1) (Z.ggcd_correct_divisors z 1).
  destruct (Z.ggcd z 1) as [g [p q]]. simpl.
  rewrite Z.gcd_1_r. intros -> [Hp Hq].
  rewrite Z.mul_1_l in Hp, Hq. now subst.
Qed.

Lemma add_of_Z (a b : Z) : (of_Z a + of_Z b)%num = of_Z (a + b).
Proof.
  unfold of_Z, add. f_equal.
  rewrite <- (Qred_inject_Z (a + b)). apply Qred_complete.
  now rewrite inject_Z_plus.
Qed.

Lemma Qle_bool_inject_Z (a b : Z) : Qle_bool (inject_Z a) (inject_Z b) = (a <=? b)%Z.
Proof.
  destruct (a <=? b)%Z eqn:E.
  - apply Qle_bool_iff. rewrite <- Zle_Qle. now apply Z.leb_le.
  - destruct (Qle_bool (inject_Z a) (inject_Z b)) eqn:F; [|reflexivity].
    apply Qle_bool_iff in F. rewrite <- Zle_Qle in F.
    apply Z.leb_le in F. congruence.
Qed.

Lemma min_of_Z (a b : Z) : Num.min (of_Z a) (of_Z b) = of_Z (Z.min a b).
Proof.
  unfold of_Z, Num.min. rewrite Qle_bool_inject_Z.
  destruct (a <=? b)%Z eqn:E.
  - apply Z.leb_le in E. now rewrite Z.min_l.
  - apply Z.leb_gt in E. rewrite Z.min_r; [reflexivity | lia].
Qed.

Lemma max_of_Z (a b : Z) : Num.max (of_Z a) (of_Z b) = of_Z (Z.max a b).
Proof.
  unfold of_Z, Num.max. rewrite Qle_bool_inject_Z.
  destruct (a <=? b)%Z eqn:E.
  - apply Z.leb_le in E. now rewrite Z.max_r.
  - apply Z.leb_gt in E. rewrite Z.max_l; [reflexivity | lia].
Qed.

Lemma of_Z_inj (a b : Z) : of_Z a = of_Z b -> a = b.
Proof. unfold of_Z, inject_Z. intros H. now injection H. Qed.

End Values.

(** The clamp on an integer score is the integer clamp. *)
Lemma shift_and_clamp_of_Z (z : Z) :
  shift_and_clamp (of_Z z) = of_Z (Z.max 0 (Z.min 100 (z + 50))).
Proof.
  unfold shift_and_clamp. now rewrite add_of_Z, min_of_Z, max_of_Z.
Qed.

(* ================================================================== *)
(** * Binary64 rounding *)

Section Binary64.

Local Open Scope Q_scope.

(** ** Powers of two and the exponent *)

Lemma two_nz : ~ 2 == 0.
Proof. discriminate. Qed.

Lemma pow2_pos (e : Z) : 0 < 2 ^ e.
Proof. apply Qpower_0_lt. reflexivity. Qed.

Lemma pow2_plus (a b : Z) : 2 ^ (a + b) == 2 ^ a * 2 ^ b.
Proof. apply Qpower_plus, @two_nz. Qed.

Lemma pow2_le (a b : Z) : (a <= b)%Z -> 2 ^ a <= 2 ^ b.
Proof. intros H. apply Qpower_le_compat_l; [exact H | discriminate]. Qed.

Lemma pow2_lt (a b : Z) : (a < b)%Z -> 2 ^ a < 2 ^ b.
Proof. intros H. apply Qpower_lt_compat_l; [exact H | reflexivity]. Qed.

Lemma pow2_Z (k : Z) : (0 <= k)%Z -> inject_Z (2 ^ k) == 2 ^ k.
Proof. intros H. now rewrite Zpower_Qpower. Qed.

Lemma pow2_succ (a : Z) : 2 ^ (a + 1) == 2 * 2 ^ a.
Proof. rewrite @pow2_plus. change (2 ^ 1) with 2. ring. Qed.

Lemma ilog2_spec (n d : positive) :
  2 ^ ilog2 n d <= Zpos n # d /\ Zpos n # d < 2 ^ (ilog2 n d + 1).
Proof.
  unfold ilog2.
  set (ln := Z.log2 (Zpos n)). set (ld := Z.log2 (Zpos d)).
  assert (Hn := Z.log2_spec (Zpos n) eq_refl). fold ln in Hn.
  assert (Hd := Z.log2_spec (Zpos d) eq_refl). fold ld in Hd.
  assert (Ln : (0 <= ln)%Z) by apply Z.log2_nonneg.
  assert (Ld : (0 <= ld)%Z) by apply Z.log2_nonneg.
  destruct Hn as [Hn1 Hn2], Hd as [Hd1 Hd2].
  rewrite Zle_Qle in Hn1, Hd1. rewrite Zlt_Qlt in Hn2, Hd2.
  rewrite @pow2_Z in Hn1, Hd1 by assumption.
  unfold Z.succ in Hn2, Hd2.
  rewrite @pow2_Z in Hn2, Hd2 by lia.
  rewrite @pow2_succ in Hn2, Hd2.
  assert (Hq : Zpos n # d == inject_Z (Zpos n) / inject_Z (Zpos d))
    by apply Qmake_Qdiv.
  set (A := inject_Z (Zpos n)) in *. set (D := inject_Z (Zpos d)) in *.
  assert (Pn := @pow2_pos ln). assert (Pd := @pow2_pos ld).
  assert (HD : 0 < D) by lra.
  assert (Hl : 2 ^ (ln - ld) * 2 ^ ld == 2 ^ ln).
  { rewrite <- @pow2_plus. now replace (ln - ld + ld)%Z with ln by lia. }
  assert (Pl := @pow2_pos (ln - ld)).
  destruct (Qle_bool (2 ^ (ln - ld)) (Zpos n # d)) eqn:T.
  - apply Qle_bool_iff in T. split; [exact T|].
    rewrite Hq, @pow2_succ. apply Qlt_shift_div_r; [exact HD|]. nra.
  - assert (T' : Zpos n # d < 2 ^ (ln - ld)).
    { apply Qnot_le_lt. intros H. apply Qle_bool_iff in H. congruence. }
    replace (ln - ld - 1 + 1)%Z with (ln - ld)%Z by lia. split; [|exact T'].
    assert (Hm : 2 * 2 ^ (ln - ld - 1) == 2 ^ (ln - ld)).
    { rewrite <- @pow2_succ. now replace (ln - ld - 1 + 1)%Z with (ln - ld)%Z by lia. }
    assert (Pm := @pow2_pos (ln - ld - 1)).
    rewrite Hq. apply Qle_shift_div_l; [exact HD|]. nra.
Qed.

Lemma ulp_exp_rel (n d : positive) : expo_rel (Zpos n # d) (ulp_exp n d).
Proof.
  destruct (@ilog2_spec n d) as [H1 H2]. unfold ulp_exp, expo_rel.
  set (il := ilog2 n d) in *.
  destruct (Z.max_spec (-1074) (il - 52)) as [[Hc ->] | [Hc ->]].
  - split; [lia|]. split.
    + now replace (il - 52 + 53)%Z with (il + 1)%Z by lia.
    + intros _. now replace (il - 52 + 52)%Z with il by lia.
  - split; [lia|]. split; [|lia].
    apply Qlt_le_trans with (1 := H2). apply @pow2_le. lia.
Qed.

Lemma expo_rel_mono (x y : Q) (ex ey : Z) :
  x <= y -> expo_rel x ex -> expo_rel y ey -> (ex <= ey)%Z.
Proof.
  intros Hxy (Hx1 & Hx2 & Hx3) (Hy1 & Hy2 & Hy3).
  destruct (Z_le_gt_dec ex ey) as [H|H]; [exact H|exfalso].
  assert (Hx : 2 ^ (ex + 52) <= x) by (apply Hx3; lia).
  assert (Hp : 2 ^ (ey + 53) <= 2 ^ (ex + 52)) by (apply @pow2_le; lia).
  lra.
Qed.

(** ** The nearest integer *)

Lemma rne_floor (t : Q) :
  (Qfloor t <= rne t <= Qfloor t + 1)%Z.
Proof.
  unfold rne. destruct (Qcompare _ _); [destruct (Z.even _)| |]; lia.
Qed.

Lemma rne_near (t : Q) :
  inject_Z (rne t) - (1 # 2) <= t /\ t <= inject_Z (rne t) + (1 # 2).
Proof.
  assert (L := Qfloor_le t). assert (U := Qlt_floor t).
  rewrite inject_Z_plus in U. change (inject_Z 1) with 1 in U.
  unfold rne. destruct (Qcompare_spec (t - inject_Z (Qfloor t)) (1 # 2)) as [E|E|E].
  - destruct (Z.even _); [|rewrite inject_Z_plus; change (inject_Z 1) with 1]; lra.
  - lra.
  - rewrite inject_Z_plus; change (inject_Z 1) with 1. lra.
Qed.

Lemma rne_nearest (t : Q) (k : Z) :
  Qabs (t - inject_Z (rne t)) <= Qabs (t - inject_Z k).
Proof.
  destruct (@rne_near t) as [L U].
  assert (D : (k <= rne t - 1)%Z \/ k = rne t \/ (rne t + 1 <= k)%Z) by lia.
  destruct D as [D | [-> | D]].
  - assert (D' : inject_Z k + 1 <= inject_Z (rne t))
      by (change 1 with (inject_Z 1); rewrite <- inject_Z_plus, <- Zle_Qle; lia).
    assert (E : Qabs (t - inject_Z k) == t - inject_Z k) by (apply Qabs_pos; lra).
    apply Qabs_Qle_condition. split; lra.
  - apply Qle_refl.
  - assert (D' : inject_Z (rne t) + 1 <= inject_Z k)
      by (change 1 with (inject_Z 1); rewrite <- inject_Z_plus, <- Zle_Qle; lia).
    assert (E : Qabs (t - inject_Z k) == - (t - inject_Z k)) by (apply Qabs_neg; lra).
    apply Qabs_Qle_condition. split; lra.
Qed.

Lemma rne_Z (k : Z) : rne (inject_Z k) = k.
Proof.
  unfold rne. rewrite Qfloor_Z.
  destruct (Qcompare_spec (inject_Z k - inject_Z k) (1 # 2)) as [E|E|E].
  - exfalso. lra.
  - reflexivity.
  - exfalso. lra.
Qed.

Lemma rne_mono (t u : Q) : t <= u -> (rne t <= rne u)%Z.
Proof.
  intros H. assert (F := Qfloor_resp_le _ _ H).
  destruct (Z.eq_dec (Qfloor t) (Qfloor u)) as [E|E].
  - unfold rne. rewrite <- E.
    destruct (Qcompare_spec (t - inject_Z (Qfloor t)) (1 # 2)) as [A|A|A];
    destruct (Qcompare_spec (u - inject_Z (Qfloor t)) (1 # 2)) as [B|B|B];
      try (destruct (Z.even _)); try lia; exfalso; lra.
  - assert (A := @rne_floor t). assert (B := @rne_floor u). lia.
Qed.

Lemma rne_comp (t u : Q) : t == u -> rne t = rne u.
Proof.
  intros H. apply Z.le_antisymm; apply @rne_mono; rewrite H; apply Qle_refl.
Qed.

Lemma rne_ge (t : Q) (k : Z) : inject_Z k <= t -> (k <= rne t)%Z.
Proof. intros H. rewrite <- (@rne_Z k). now apply @rne_mono. Qed.

Lemma rne_le (t : Q) (k : Z) : t <= inject_Z k -> (rne t <= k)%Z.
Proof. intros H. rewrite <- (@rne_Z k). now apply @rne_mono. Qed.

(** ** The nearest multiple of a power of two *)

Lemma scaled (e : Z) (x : Q) : x / 2 ^ e * 2 ^ e == x.
Proof. field. apply Qpower_not_0, @two_nz. Qed.

Lemma scale_le (e : Z) (x y : Q) : x <= y -> x / 2 ^ e <= y / 2 ^ e.
Proof.
  intros H. assert (P := @pow2_pos e).
  apply Qle_shift_div_l; [exact P|]. now rewrite @scaled.
Qed.

Lemma round_at_mono (e : Z) (x y : Q) : x <= y -> round_at e x <= round_at e y.
Proof.
  intros H. unfold round_at. assert (P := @pow2_pos e).
  apply Qmult_le_compat_r; [|lra].
  rewrite <- Zle_Qle. apply @rne_mono. now apply @scale_le.
Qed.

Lemma round_at_grid (e : Z) (k : Z) : round_at e (inject_Z k * 2 ^ e) == inject_Z k * 2 ^ e.
Proof.
  unfold round_at.
  assert (E : inject_Z k * 2 ^ e / 2 ^ e == inject_Z k).
  { field. apply Qpower_not_0, @two_nz. }
  now rewrite (@rne_comp _ _ E), @rne_Z.
Qed.

Lemma round_at_nearest (e : Z) (x : Q) (k : Z) :
  Qabs (x - round_at e x) <= Qabs (x - inject_Z k * 2 ^ e).
Proof.
  unfold round_at. assert (P := @pow2_pos e).
  assert (N := @rne_nearest (x / 2 ^ e) k).
  assert (E : forall z : Z, x - inject_Z z * 2 ^ e == (x / 2 ^ e - inject_Z z) * 2 ^ e).
  { intros z. field. apply Qpower_not_0, @two_nz. }
  rewrite !E, !Qabs_Qmult, (Qabs_pos (2 ^ e)) by lra.
  apply Qmult_le_compat_r; [exact N | lra].
Qed.

Lemma round_at_le_grid (e : Z) (x : Q) (k : Z) :
  x <= inject_Z k * 2 ^ e -> round_at e x <= inject_Z k * 2 ^ e.
Proof. intros H. rewrite <- (@round_at_grid e k). now apply @round_at_mono. Qed.

Lemma round_at_ge_grid (e : Z) (x : Q) (k : Z) :
  inject_Z k * 2 ^ e <= x -> inject_Z k * 2 ^ e <= round_at e x.
Proof. intros H. rewrite <- (@round_at_grid e k). now apply @round_at_mono. Qed.

Lemma grid_pow (e a : Z) : (0 <= a)%Z -> inject_Z (2 ^ a) * 2 ^ e == 2 ^ (e + a).
Proof. intros H. rewrite @pow2_Z by exact H. rewrite @pow2_plus. ring. Qed.

Lemma round_at_bounds (e : Z) (x : Q) :
  0 < x -> expo_rel x e ->
  0 <= round_at e x /\ round_at e x <= 2 ^ (e + 53) /\
  ((-1074 < e)%Z -> 2 ^ (e + 52) <= round_at e x).
Proof.
  intros Hx (H1 & H2 & H3). split; [|split].
  - assert (G := @round_at_ge_grid e x 0). change (inject_Z 0) with 0 in G.
    rewrite Qmult_0_l in G. apply G. lra.
  - rewrite <- (@grid_pow e 53) by lia. apply @round_at_le_grid.
    rewrite @grid_pow by lia. lra.
  - intros H. rewrite <- (@grid_pow e 52) by lia. apply @round_at_ge_grid.
    rewrite @grid_pow by lia. now apply H3.
Qed.

Lemma round_pos_mono (x y : Q) (ex ey : Z) :
  0 < x -> x <= y -> expo_rel x ex -> expo_rel y ey ->
  round_at ex x <= round_at ey y.
Proof.
  intros Hx Hxy Rx Ry.
  assert (Hle := @expo_rel_mono _ _ _ _ Hxy Rx Ry).
  destruct (Z.eq_dec ex ey) as [->|Hne].
  - now apply @round_at_mono.
  - destruct (@round_at_bounds ex x Hx Rx) as (_ & U & _).
    destruct (@round_at_bounds ey y) as (_ & _ & L); [lra | exact Ry |].
    assert (Lo := L ltac:(destruct Rx; lia)).
    assert (P : 2 ^ (ex + 53) <= 2 ^ (ey + 52)) by (apply @pow2_le; lia).
    lra.
Qed.

(** ** Rounding to 53 bits *)

Lemma rnd_pos_form (n d : positive) :
  rnd (Zpos n # d) = round_at (ulp_exp n d) (Zpos n # d).
Proof. reflexivity. Qed.

Lemma rnd_opp (x : Q) : rnd (- x) == - rnd x.
Proof.
  destruct x as [[|n|n] d]; unfold rnd; simpl; try reflexivity.
  now rewrite Qopp_involutive.
Qed.

Lemma rnd_nonneg (x : Q) : 0 <= x -> 0 <= rnd x.
Proof.
  destruct x as [[|n|n] d]; intros H.
  - apply Qle_refl.
  - rewrite @rnd_pos_form.
    now destruct (@round_at_bounds (ulp_exp n d) (Zpos n # d) eq_refl (@ulp_exp_rel n d)).
  - exfalso. now apply H.
Qed.

Lemma rnd_mono_pos (x y : Q) : 0 < x -> x <= y -> rnd x <= rnd y.
Proof.
  intros Hx Hxy.
  assert (Hy : 0 < y) by lra.
  destruct x as [[|n|n] d]; try discriminate Hx.
  destruct y as [[|n'|n'] d']; try discriminate Hy.
  rewrite !@rnd_pos_form.
  apply @round_pos_mono; auto using @ulp_exp_rel.
Qed.

Lemma rnd_mono (x y : Q) : x <= y -> rnd x <= rnd y.
Proof.
  intros H.
  destruct (Qlt_le_dec 0 x) as [Hx|Hx]; [now apply @rnd_mono_pos|].
  destruct (Qlt_le_dec y 0) as [Hy|Hy].
  - assert (M : rnd (- y) <= rnd (- x)) by (apply @rnd_mono_pos; lra).
    rewrite !@rnd_opp in M. lra.
  - assert (A := @rnd_nonneg y Hy).
    assert (B : 0 <= rnd (- x)) by (apply @rnd_nonneg; lra).
    rewrite @rnd_opp in B. lra.
Qed.

Lemma rnd_comp (x y : Q) : x == y -> rnd x == rnd y.
Proof.
  intros H. apply Qle_antisym; apply @rnd_mono; rewrite H; apply Qle_refl.
Qed.

Lemma representable_opp (y : Q) : representable y -> representable (- y).
Proof.
  intros (m & e & Hm & He & Hy). exists (- m)%Z, e.
  split; [lia|]. split; [exact He|].
  rewrite Hy, inject_Z_opp. ring.
Qed.

Lemma representable_bound (y : Q) (m e : Z) :
  (Z.abs m <= 2 ^ 53)%Z -> y == inject_Z m * 2 ^ e -> y <= 2 ^ (e + 53).
Proof.
  intros Hm Hy. rewrite Hy, <- (@grid_pow e 53) by lia.
  assert (P := @pow2_pos e). apply Qmult_le_compat_r; [|lra].
  rewrite <- Zle_Qle. lia.
Qed.

Lemma rnd_nearest_pos (n d : positive) (y : Q) :
  representable y ->
  Qabs ((Zpos n # d) - rnd (Zpos n # d)) <= Qabs ((Zpos n # d) - y).
Proof.
  intros (m & e' & Hm & He' & Hy). rewrite @rnd_pos_form.
  set (x := Zpos n # d). set (e := ulp_exp n d).
  assert (R : expo_rel x e) by apply @ulp_exp_rel.
  destruct (Z_le_gt_dec e e') as [C|C].
  - assert (G : y == inject_Z (m * 2 ^ (e' - e)) * 2 ^ e).
    { rewrite Hy, inject_Z_mult, @pow2_Z by lia.
      rewrite <- Qmult_assoc, <- @pow2_plus.
      now replace (e' - e + e)%Z with e' by lia. }
    rewrite G. apply @round_at_nearest.
  - destruct R as (R1 & R2 & R3).
    assert (L : 2 ^ (e + 52) <= x) by (apply R3; lia).
    assert (B := @representable_bound y m e' Hm Hy).
    assert (P : 2 ^ (e' + 53) <= 2 ^ (e + 52)) by (apply @pow2_le; lia).
    assert (N := @round_at_nearest e x (2 ^ 52)).
    rewrite @grid_pow in N by lia.
    rewrite (Qabs_pos (x - 2 ^ (e + 52))) in N by lra.
    rewrite (Qabs_pos (x - y)) by lra. lra.
Qed.

Lemma rnd_nearest (x y : Q) :
  representable y -> Qabs (x - rnd x) <= Qabs (x - y).
Proof.
  intros Hy. destruct x as [[|n|n] d].
  - change (rnd (0 # d)) with 0.
    assert (E : (0 # d) - 0 == 0) by reflexivity.
    rewrite (Qabs_wd _ _ E). apply Qabs_nonneg.
  - now apply @rnd_nearest_pos.
  - assert (N := @rnd_nearest_pos n d (- y) (@representable_opp _ Hy)).
    change (Z.neg n # d) with (- (Z.pos n # d)).
    rewrite (Qabs_wd (- (Z.pos n # d) - rnd (- (Z.pos n # d)))
                     (- ((Z.pos n # d) - rnd (Z.pos n # d))))
      by (rewrite @rnd_opp; ring).
    rewrite (Qabs_wd (- (Z.pos n # d) - y) (- ((Z.pos n # d) - - y))) by ring.
    now rewrite !Qabs_opp.
Qed.

Lemma rnd_fixed (y : Q) : representable y -> rnd y == y.
Proof.
  intros H. assert (N := @rnd_nearest y y H).
  rewrite (Qabs_wd (y - y) 0) in N by ring. change (Qabs 0) with 0 in N.
  apply Qabs_Qle_condition in N. lra.
Qed.

Lemma rnd_representable (x : Q) : representable (rnd x).
Proof.
  assert (Pos : forall n d, representable (rnd (Zpos n # d))).
  { intros n d. rewrite @rnd_pos_form.
    destruct (@round_at_bounds (ulp_exp n d) (Zpos n # d) eq_refl (@ulp_exp_rel n d))
      as (L & U & _).
    destruct (@ulp_exp_rel n d) as (He & _).
    exists (rne ((Zpos n # d) / 2 ^ ulp_exp n d)), (ulp_exp n d).
    split; [|split; [exact He | reflexivity]].
    unfold round_at in L, U. assert (P := @pow2_pos (ulp_exp n d)).
    rewrite <- (@grid_pow _ 53) in U by lia.
    assert (A : 0 <= inject_Z (rne ((Zpos n # d) / 2 ^ ulp_exp n d))) by nra.
    assert (B : inject_Z (rne ((Zpos n # d) / 2 ^ ulp_exp n d)) <= inject_Z (2 ^ 53)) by nra.
    rewrite <- Zle_Qle in B. change 0 with (inject_Z 0) in A. rewrite <- Zle_Qle in A.
    lia. }
  destruct x as [[|n|n] d].
  - exists 0%Z, 0%Z. split; [simpl; lia|]. split; [lia|]. reflexivity.
  - apply Pos.
  - change (Z.neg n # d) with (- (Z.pos n # d)).
    destruct (Pos n d) as (m & e & Hm & He & Hy).
    exists (- m)%Z, e. split; [lia|]. split; [exact He|].
    rewrite @rnd_opp, Hy, inject_Z_opp. ring.
Qed.

(** A tie goes to the even integer. *)
Lemma rne_tie_even (t : Q) (k : Z) :
  t == inject_Z k + (1 # 2) -> Z.even (rne t) = true.
Proof.
  intros H.
  assert (F : Qfloor t = k).
  { apply Z.le_antisymm.
    - assert (U : inject_Z (Qfloor t) < inject_Z (k + 1)).
      { apply Qle_lt_trans with t; [apply Qfloor_le|].
        rewrite H, inject_Z_plus. change (inject_Z 1) with 1. lra. }
      rewrite <- Zlt_Qlt in U. lia.
    - rewrite <- (Qfloor_Z k). apply Qfloor_resp_le. lra. }
  unfold rne. rewrite F.
  destruct (Qcompare_spec (t - inject_Z k) (1 # 2)) as [E|E|E].
  - destruct (Z.even k) eqn:K; [exact K|].
    rewrite Z.even_add, K. reflexivity.
  - exfalso. lra.
  - exfalso. lra.
Qed.

Lemma representable_comp (x y : Q) : x == y -> representable x -> representable y.
Proof.
  intros E (m & e & Hm & He & Hx). exists m, e.
  split; [exact Hm|]. split; [exact He|]. now rewrite <- E.
Qed.

Lemma b64_cases (x : Q) :
  (b64 x = PInf /\ 2 ^ 1024 <= rnd x) \/
  (b64 x = NInf /\ rnd x <= - 2 ^ 1024) \/
  (b64 x = Fin (Qred (rnd x)) /\ - 2 ^ 1024 < rnd x < 2 ^ 1024).
Proof.
  unfold b64. cbv zeta.
  destruct (Qle_bool (2 ^ 1024) (rnd x)) eqn:A.
  - left. split; [reflexivity|]. now apply Qle_bool_iff.
  - assert (A' : rnd x < 2 ^ 1024).
    { apply Qnot_le_lt. intros H. apply Qle_bool_iff in H. congruence. }
    destruct (Qle_bool (rnd x) (- 2 ^ 1024)) eqn:B.
    + right; left. split; [reflexivity|]. now apply Qle_bool_iff.
    + right; right. split; [reflexivity|]. split; [|exact A'].
      apply Qnot_le_lt. intros H. apply Qle_bool_iff in H. congruence.
Qed.

Lemma b64_fin (x v : Q) :
  b64 x = Fin v -> v = Qred (rnd x) /\ v == rnd x /\ - 2 ^ 1024 < rnd x < 2 ^ 1024.
Proof.
  intros H. destruct (@b64_cases x) as [[E _] | [[E _] | [E B]]];
    rewrite E in H; try discriminate.
  injection H as <-. split; [reflexivity|]. split; [apply Qred_correct | exact B].
Qed.

Lemma b64_finite (x : Q) :
  - 2 ^ 1024 < rnd x < 2 ^ 1024 -> b64 x = Fin (Qred (rnd x)).
Proof.
  intros B. assert (P := @pow2_pos 1024).
  destruct (@b64_cases x) as [[_ C] | [[_ C] | [E _]]]; [exfalso; lra | exfalso; lra | exact E].
Qed.

Lemma b64_comp (x y : Q) : x == y -> b64 x = b64 y.
Proof.
  intros E. assert (R := @rnd_comp x y E).
  destruct (@b64_cases x) as [[Ex Cx] | [[Ex Cx] | [Ex Cx]]];
  destruct (@b64_cases y) as [[Ey Cy] | [[Ey Cy] | [Ey Cy]]];
    rewrite Ex, Ey; try reflexivity; try (exfalso; lra).
  f_equal. now apply Qred_complete.
Qed.

(** Rounding keeps the order. *)
Lemma b64_between (x lo hi lo' hi' : Q) :
  lo <= x <= hi -> b64 lo = Fin lo' -> b64 hi = Fin hi' ->
  exists v : Q, b64 x = Fin v /\ lo' <= v <= hi'.
Proof.
  intros [L U] Hlo Hhi.
  apply @b64_fin in Hlo. destruct Hlo as (_ & El & Bl).
  apply @b64_fin in Hhi. destruct Hhi as (_ & Eh & Bh).
  assert (Ml := @rnd_mono lo x L). assert (Mh := @rnd_mono x hi U).
  exists (Qred (rnd x)). split.
  - apply @b64_finite. split; lra.
  - rewrite Qred_correct, El, Eh. split; assumption.
Qed.

(** A binary64 value is its own rounding. *)
Lemma b64_fixed (y : Q) : binary64 y -> b64 y = Fin (Qred y).
Proof.
  intros [R B]. assert (F := @rnd_fixed y R).
  rewrite @b64_finite by (rewrite F; exact B).
  f_equal. now apply Qred_complete.
Qed.

Lemma b64_idem (x v : Q) : b64 x = Fin v -> b64 v = Fin v.
Proof.
  intros H. apply @b64_fin in H. destruct H as (E & Ev & B).
  rewrite @b64_fixed.
  - f_equal. rewrite E. apply Qred_complete, Qred_correct.
  - split.
    + apply @representable_comp with (rnd x); [now symmetry | apply @rnd_representable].
    + now rewrite Ev.
Qed.

Lemma small_is_binary64 (z : Z) : (Z.abs z <= 2 ^ 53)%Z -> binary64 (inject_Z z).
Proof.
  intros H. split.
  - exists z, 0%Z. split; [exact H|]. split; [lia|].
    change (2 ^ 0) with 1. ring.
  - assert (P : 2 ^ 53 < 2 ^ 1024) by (apply @pow2_lt; lia).
    rewrite <- (@pow2_Z 53) in P by lia.
    assert (A : inject_Z z <= inject_Z (2 ^ 53)) by (rewrite <- Zle_Qle; lia).
    assert (B : inject_Z (- 2 ^ 53) <= inject_Z z) by (rewrite <- Zle_Qle; lia).
    rewrite inject_Z_opp in B. split; lra.
Qed.

(** The integers of at most 53 bits are binary64 values. *)
Lemma b64_of_Z (z : Z) : (Z.abs z <= 2 ^ 53)%Z -> b64 (inject_Z z) = of_Z z.
Proof.
  intros H. rewrite @b64_fixed by now apply @small_is_binary64.
  unfold of_Z. f_equal. apply Qred_inject_Z.
Qed.

Lemma b64_int_between (x : Q) (lo hi : Z) :
  (Z.abs lo <= 2 ^ 53)%Z -> (Z.abs hi <= 2 ^ 53)%Z ->
  inject_Z lo <= x <= inject_Z hi ->
  exists v : Q, b64 x = Fin v /\ inject_Z lo <= v <= inject_Z hi.
Proof.
  intros Hlo Hhi B.
  apply (@b64_between x (inject_Z lo) (inject_Z hi)); [exact B | |];
    now apply @b64_of_Z.
Qed.

(** [b64] returns a binary64 value, and none is nearer to the number. *)
Theorem b64_nearest (x v : Q) :
  b64 x = Fin v ->
  binary64 v /\ forall y : Q, binary64 y -> Qabs (x - v) <= Qabs (x - y).
Proof.
  intros H. apply @b64_fin in H. destruct H as (_ & E & B). split.
  - split.
    + apply @representable_comp with (rnd x); [now symmetry | apply @rnd_representable].
    + now rewrite E.
  - intros y [R _].
    rewrite (Qabs_wd (x - v) (x - rnd x)) by now rewrite E.
    now apply @rnd_nearest.
Qed.

(** Overflow: the numbers from [2^1024 - 2^970] on, half an ulp below
    [2^1024], round to [Infinity]. *)
Theorem b64_overflow (x : Q) :
  b64 x = PInf <-> 2 ^ 1024 - 2 ^ 970 <= x.
Proof.
  assert (P1 := @pow2_pos 1024). assert (P2 := @pow2_pos 970).
  assert (G : 2 ^ 1024 - 2 ^ 970 == inject_Z (2 ^ 54 - 1) * 2 ^ 970).
  { unfold Zminus. rewrite inject_Z_plus, @pow2_Z by lia.
    change (inject_Z (- (1))) with (- (1)).
    replace 1024%Z with (54 + 970)%Z by reflexivity. rewrite @pow2_plus. ring. }
  assert (Big : 2 ^ 1024 == inject_Z (2 ^ 53) * 2 ^ 971).
  { rewrite @grid_pow by lia. reflexivity. }
  assert (Max : 2 ^ 1024 - 2 ^ 971 == inject_Z (2 ^ 53 - 1) * 2 ^ 971).
  { unfold Zminus. rewrite inject_Z_plus, @pow2_Z by lia.
    change (inject_Z (- (1))) with (- (1)).
    replace 1024%Z with (53 + 971)%Z by reflexivity. rewrite @pow2_plus. ring. }
  assert (RMax : representable (2 ^ 1024 - 2 ^ 971)).
  { exists (2 ^ 53 - 1)%Z, 971%Z. split; [lia|]. split; [lia | exact Max]. }
  assert (RBig : representable (2 ^ 1024)).
  { exists (2 ^ 53)%Z, 971%Z. split; [lia|]. split; [lia | exact Big]. }
  assert (S971 : 2 ^ 971 == 2 * 2 ^ 970).
  { replace 971%Z with (970 + 1)%Z by reflexivity. apply @pow2_succ. }
  split.
  - intros H. destruct (@b64_cases x) as [[_ C] | [[E _] | [E _]]];
      [| rewrite E in H; discriminate | rewrite E in H; discriminate].
    apply Qnot_lt_le. intros Lt.
    assert (N := @rnd_nearest x (2 ^ 1024 - 2 ^ 971) RMax).
    assert (M : rnd (2 ^ 1024 - 2 ^ 971) <= rnd x).
    { rewrite (@rnd_fixed _ RMax). lra. }
    assert (A1 : Qabs (x - rnd x) == rnd x - x).
    { rewrite Qabs_neg by lra. ring. }
    destruct (Qlt_le_dec x (2 ^ 1024 - 2 ^ 971)) as [D|D].
    + assert (A2 : Qabs (x - (2 ^ 1024 - 2 ^ 971)) == (2 ^ 1024 - 2 ^ 971) - x).
      { rewrite Qabs_neg by lra. ring. }
      lra.
    + assert (A2 : Qabs (x - (2 ^ 1024 - 2 ^ 971)) == x - (2 ^ 1024 - 2 ^ 971)).
      { rewrite Qabs_pos by lra. ring. }
      lra.
  - intros H.
    destruct (@b64_cases x) as [[E _] | [[_ C] | [_ [_ C]]]]; [exact E | exfalso | exfalso].
    + assert (M : 0 <= rnd x) by (apply @rnd_nonneg; lra). lra.
    + destruct (Qlt_le_dec x (2 ^ 1024)) as [D|D].
      * assert (Hx : 0 < x) by lra.
        destruct x as [[|n|n] d]; try discriminate Hx.
        rewrite @rnd_pos_form in C.
        assert (R := @ulp_exp_rel n d).
        set (x := Z.pos n # d) in *. set (e := ulp_exp n d) in *.
        assert (R971 : expo_rel x 971).
        { split; [lia|]. split.
          - replace (971 + 53)%Z with 1024%Z by reflexivity. exact D.
          - intros _. replace (971 + 52)%Z with 1023%Z by reflexivity.
            assert (Q1 : 2 ^ 1024 == 2 * 2 ^ 1023).
            { replace 1024%Z with (1023 + 1)%Z by reflexivity. apply @pow2_succ. }
            assert (Q2 := @pow2_le 970 1023 ltac:(lia)). lra. }
        assert (Ee : e = 971%Z).
        { apply Z.le_antisymm.
          - apply (@expo_rel_mono x x e 971); [apply Qle_refl | exact R | exact R971].
          - apply (@expo_rel_mono x x 971 e); [apply Qle_refl | exact R971 | exact R]. }
        rewrite Ee in C. unfold round_at in C.
        assert (P971 := @pow2_pos 971).
        assert (T : inject_Z (2 ^ 53) - (1 # 2) <= x / 2 ^ 971).
        { apply Qle_shift_div_l; [exact P971|]. rewrite @pow2_Z by lia.
          rewrite @pow2_Z in Big by lia. lra. }
        assert (K : (2 ^ 53 <= rne (x / 2 ^ 971))%Z).
        { destruct (Qlt_le_dec (inject_Z (2 ^ 53) - (1 # 2)) (x / 2 ^ 971)) as [S|S].
          - destruct (@rne_near (x / 2 ^ 971)) as [_ U2].
            assert (W : inject_Z (2 ^ 53 - 1) < inject_Z (rne (x / 2 ^ 971))).
            { unfold Zminus. rewrite inject_Z_plus.
              change (inject_Z (- (1))) with (- (1)). lra. }
            rewrite <- Zlt_Qlt in W. lia.
          - assert (Tie : x / 2 ^ 971 == inject_Z (2 ^ 53 - 1) + (1 # 2)).
            { unfold Zminus. rewrite inject_Z_plus.
              change (inject_Z (- (1))) with (- (1)). lra. }
            assert (Ev := @rne_tie_even _ _ Tie).
            destruct (@rne_floor (x / 2 ^ 971)) as [F1 F2].
            assert (Fl : Qfloor (x / 2 ^ 971) = (2 ^ 53 - 1)%Z).
            { apply Z.le_antisymm.
              - assert (U : inject_Z (Qfloor (x / 2 ^ 971)) < inject_Z (2 ^ 53 - 1 + 1)).
                { apply Qle_lt_trans with (x / 2 ^ 971); [apply Qfloor_le|].
                  rewrite Tie, inject_Z_plus. change (inject_Z 1) with 1. lra. }
                rewrite <- Zlt_Qlt in U. lia.
              - rewrite <- (Qfloor_Z (2 ^ 53 - 1)). apply Qfloor_resp_le. lra. }
            rewrite Fl in F1, F2.
            destruct (Z.eq_dec (rne (x / 2 ^ 971)) (2 ^ 53 - 1)) as [Q|Q]; [|lia].
            rewrite Q in Ev. discriminate Ev. }
        rewrite Zle_Qle in K.
        assert (Fin' : inject_Z (2 ^ 53) * 2 ^ 971 <= inject_Z (rne (x / 2 ^ 971)) * 2 ^ 971).
        { apply Qmult_le_compat_r; [exact K | lra]. }
        lra.
      * assert (M : rnd (2 ^ 1024) <= rnd x) by now apply @rnd_mono.
        rewrite (@rnd_fixed _ RBig) in M. lra.
Qed.

(** ** The operations *)

Lemma fl_fin_between (a : num) (lo hi lo' hi' : Q) :
  fin_between lo hi a -> b64 lo = Fin lo' -> b64 hi = Fin hi' ->
  fin_between lo' hi' (fl a).
Proof.
  intros (q & -> & B) Hlo Hhi. unfold fl. now apply @b64_between with lo hi.
Qed.

Lemma fl_idem (a : num) : fl (fl a) = fl a.
Proof.
  destruct a as [x| | |]; try reflexivity.
  change (fl (Fin x)) with (b64 x).
  destruct (b64 x) as [v| | |] eqn:E; try reflexivity.
  exact (@b64_idem x v E).
Qed.

Lemma fl_of_Z (z : Z) : (Z.abs z <= 2 ^ 53)%Z -> fl (of_Z z) = of_Z z.
Proof. intros H. unfold of_Z, fl. now apply @b64_of_Z. Qed.

Lemma fl_NaN_iff (a : num) : fl a = NaN <-> a = NaN.
Proof.
  destruct a as [x| | |]; split; intros H; try discriminate; try reflexivity.
  unfold fl in H. destruct (@b64_cases x) as [[E _] | [[E _] | [E _]]];
    rewrite E in H; discriminate.
Qed.

(** Ranges of the results, from ranges of the rounded operands. *)
Lemma fmul_between (a b : num) (la ha lb hb lo hi lo' hi' : Q) :
  fin_between la ha (fl a) -> fin_between lb hb (fl b) ->
  (forall u v : Q, la <= u <= ha -> lb <= v <= hb -> lo <= u * v <= hi) ->
  b64 lo = Fin lo' -> b64 hi = Fin hi' ->
  fin_between lo' hi' (fmul a b).
Proof.
  intros (u & Eu & Bu) (v & Ev & Bv) S Hlo Hhi.
  unfold fmul. rewrite Eu, Ev. cbn [mul fl].
  apply @b64_between with lo hi; [|exact Hlo | exact Hhi].
  rewrite Qred_correct. now apply S.
Qed.

Lemma fadd_between (a b : num) (la ha lb hb lo' hi' : Q) :
  fin_between la ha (fl a) -> fin_between lb hb (fl b) ->
  b64 (la + lb) = Fin lo' -> b64 (ha + hb) = Fin hi' ->
  fin_between lo' hi' (fadd a b).
Proof.
  intros (u & Eu & Bu) (v & Ev & Bv) Hlo Hhi.
  unfold fadd. rewrite Eu, Ev. cbn [add fl].
  apply @b64_between with (la + lb) (ha + hb); [|exact Hlo | exact Hhi].
  rewrite Qred_correct. split; lra.
Qed.

Lemma fsub_between (a b : num) (la ha lb hb lo' hi' : Q) :
  fin_between la ha (fl a) -> fin_between lb hb (fl b) ->
  b64 (la - hb) = Fin lo' -> b64 (ha - lb) = Fin hi' ->
  fin_between lo' hi' (fsub a b).
Proof.
  intros (u & Eu & Bu) (v & Ev & Bv) Hlo Hhi.
  unfold fsub. rewrite Eu, Ev. cbn [sub neg add fl].
  apply @b64_between with (la - hb) (ha - lb); [|exact Hlo | exact Hhi].
  rewrite !Qred_correct. split; lra.
Qed.

(** The result of an operation is a binary64 value already. *)
Lemma fl_fmul (a b : num) : fl (fmul a b) = fmul a b.
Proof. apply @fl_idem. Qed.

Lemma fl_fadd (a b : num) : fl (fadd a b) = fadd a b.
Proof. apply @fl_idem. Qed.

Lemma fl_fsub (a b : num) : fl (fsub a b) = fsub a b.
Proof. apply @fl_idem. Qed.

Lemma nearest_integer_round (x : Q) : nearest_integer x (round_Q x).
Proof.
  unfold nearest_integer, round_Q.
  assert (L := Qfloor_le (x + (1 # 2))). assert (U := Qlt_floor (x + (1 # 2))).
  rewrite inject_Z_plus in U. change (inject_Z 1) with 1 in U. split; lra.
Qed.

Lemma nearest_integer_unique (x : Q) (a b : Z) :
  nearest_integer x a -> nearest_integer x b -> a = b.
Proof.
  unfold nearest_integer. intros [A1 A2] [B1 B2].
  assert (H1 : inject_Z a < inject_Z (b + 1))
    by (rewrite inject_Z_plus; change (inject_Z 1) with 1; lra).
  assert (H2 : inject_Z b < inject_Z (a + 1))
    by (rewrite inject_Z_plus; change (inject_Z 1) with 1; lra).
  rewrite <- Zlt_Qlt in H1, H2. lia.
Qed.

End Binary64.

(* ================================================================== *)
(** * Strings *)

Lemma eqb_eq (a b : chars) : Str.eqb a b = true <-> a = b.
Proof.
  unfold Str.eqb. destruct (list_eq_dec ascii_dec a b); split; congruence.
Qed.

Lemma eqb_refl (a : chars) : Str.eqb a a = true.
Proof. now apply eqb_eq. Qed.

Lemma includes_In (xs : list chars) (x : chars) : includes xs x = true <-> In x xs.
Proof.
  unfold includes. rewrite existsb_exists. split.
  - intros [y [Hy He]]. apply eqb_eq in He. now subst.
  - intros H. exists x. split; [assumption | apply eqb_refl].
Qed.

(* ================================================================== *)
(** * The rounds granted to a quantifier are enough *)

Section Fuel.

Lemma reach_refl (x : mstate) : reach x x.
Proof. split; lia. Qed.

Lemma reach_trans (x y z : mstate) : reach x y -> reach y z -> reach x z.
Proof. unfold reach. intros [H1 H2] [H3 H4]. split; lia. Qed.

Lemma reach_advance (x : mstate) (d : ascii) (tl : chars) :
  rest x = d :: tl -> reach x (advance x d tl).
Proof. unfold reach, advance. intros ->. simpl. split; lia. Qed.

Lemma rep_cong ma gs :
  respects ma ->
  forall fuel mn mx x k k',
    (forall y, reach x y -> k y = k' y) ->
    rep ma gs k fuel mn mx x = rep ma gs k' fuel mn mx x.
Proof.
  intros Hma. induction fuel as [|fuel IH]; intros mn mx x k k' Hk; [reflexivity|].
  assert (Hd : forall mx', forall y, reach (clear_caps gs x) y ->
            (if (mn =? 0) && (pos y =? pos x) then None
             else rep ma gs k fuel (Nat.pred mn) mx' y) =
            (if (mn =? 0) && (pos y =? pos x) then None
             else rep ma gs k' fuel (Nat.pred mn) mx' y)).
  { intros mx' y Hy. destruct ((mn =? 0) && (pos y =? pos x)); [reflexivity|].
    apply IH. intros z Hz. apply Hk. apply reach_trans with y; assumption. }
  simpl. destruct mx as [[|n]|].
  - apply Hk, reach_refl.
  - rewrite (Hma _ _ _ (Hd (option_map Nat.pred (Some (S n))))).
    now rewrite (Hk x (reach_refl x)).
  - rewrite (Hma _ _ _ (Hd (option_map Nat.pred None))).
    now rewrite (Hk x (reach_refl x)).
Qed.

Lemma m_with_respects (extra : nat) (ic : bool) (r : regex) :
  respects (m_with extra ic r).
Proof.
  induction r as [|c|negated rs|a IHa b IHb|a IHa b IHb|mn mx a IHa|n a IHa| | |];
    intros x k k' Hk; simpl.
  - apply Hk, reach_refl.
  - destruct (rest x) as [|d tl] eqn:E; [reflexivity|].
    destruct (ceq ic c d); [|reflexivity]. now apply Hk, reach_advance.
  - destruct (rest x) as [|d tl] eqn:E; [reflexivity|].
    destruct (xorb negated (in_class ic rs d)); [|reflexivity].
    now apply Hk, reach_advance.
  - apply IHa. intros y Hy. apply IHb. intros z Hz.
    apply Hk. now apply reach_trans with y.
  - now rewrite (IHa x k k' Hk), (IHb x k k' Hk).
  - now apply rep_cong.
  - apply IHa. intros y Hy. now apply Hk.
  - destruct (xorb _ _); [apply Hk, reach_refl | reflexivity].
  - destruct (prev x); [reflexivity | apply Hk, reach_refl].
  - destruct (rest x); [apply Hk, reach_refl | reflexivity].
Qed.

(** Past the bound, more rounds change nothing. *)
Lemma rep_fuel ma gs k :
  respects ma ->
  forall fuel fuel' mn mx x,
    mn + List.length (rest x) < fuel ->
    mn + List.length (rest x) < fuel' ->
    rep ma gs k fuel mn mx x = rep ma gs k fuel' mn mx x.
Proof.
  intros Hma. induction fuel as [|fuel IH]; intros fuel' mn mx x H H'; [lia|].
  destruct fuel' as [|fuel']; [lia|].
  assert (Hd : forall mx', forall y, reach (clear_caps gs x) y ->
            (if (mn =? 0) && (pos y =? pos x) then None
             else rep ma gs k fuel (Nat.pred mn) mx' y) =
            (if (mn =? 0) && (pos y =? pos x) then None
             else rep ma gs k fuel' (Nat.pred mn) mx' y)).
  { intros mx' y [Hy1 Hy2]. simpl in Hy1, Hy2.
    destruct (Nat.eqb_spec mn 0); destruct (Nat.eqb_spec (pos y) (pos x)); simpl;
      try reflexivity; apply IH; lia. }
  simpl. destruct mx as [[|n]|]; [reflexivity| |].
  - now rewrite (Hma _ _ _ (Hd (option_map Nat.pred (Some (S n))))).
  - now rewrite (Hma _ _ _ (Hd (option_map Nat.pred None))).
Qed.

Lemma rep_ma_ext ma ma' gs :
  respects ma' ->
  (forall x k, ma x k = ma' x k) ->
  forall fuel mn mx x k,
    rep ma gs k fuel mn mx x = rep ma' gs k fuel mn mx x.
Proof.
  intros Hma' Hext. induction fuel as [|fuel IH]; intros mn mx x k; [reflexivity|].
  assert (Hd : forall mx', forall y, reach (clear_caps gs x) y ->
            (if (mn =? 0) && (pos y =? pos x) then None
             else rep ma gs k fuel (Nat.pred mn) mx' y) =
            (if (mn =? 0) && (pos y =? pos x) then None
             else rep ma' gs k fuel (Nat.pred mn) mx' y)).
  { intros mx' y _. destruct ((mn =? 0) && (pos y =? pos x)); [reflexivity|].
    apply IH. }
  simpl. destruct mx as [[|n]|]; [reflexivity| |].
  - now rewrite Hext, (Hma' _ _ _ (Hd (option_map Nat.pred (Some (S n))))).
  - now rewrite Hext, (Hma' _ _ _ (Hd (option_map Nat.pred None))).
Qed.

(** The matcher does not depend on the rounds added to its quantifiers:
    the bound it grants them is never what stops a match. *)
Theorem m_with_fuel_irrelevant (extra : nat) (ic : bool) (r : regex) :
  forall x k, m_with extra ic r x k = m ic r x k.
Proof.
  unfold m.
  induction r as [|c|negated rs|a IHa b IHb|a IHa b IHb|mn mx a IHa|n a IHa| | |];
    intros x k; cbn [m_with]; try reflexivity.
  - rewrite IHa. apply m_with_respects. intros y _. apply IHb.
  - now rewrite IHa, IHb.
  - rewrite (@rep_ma_ext _ _ (groups a) (m_with_respects 0 ic a) IHa).
    apply rep_fuel; [apply m_with_respects | lia | lia].
  - apply IHa.
Qed.

End Fuel.
(* ================================================================== *)
(** * Local fusion scores *)

Lemma score_at_found (labels : list string) (scores : list Q) (l : string)
    (i : nat) (q : Q) :
  indexOf labels l = Some i -> nth_error scores i = Some q ->
  score_at scores (indexOf labels l) = Fin q.
Proof. intros -> H. unfold score_at. now rewrite H. Qed.

Lemma local_credibility_value (f m fa x : Q) :
  credibility_sum f m fa = Fin x ->
  local_credibility (Fin f) (Fin m) (Fin fa) = of_Z (round_Q x).
Proof. unfold local_credibility, credibility_sum. now intros ->. Qed.

Lemma local_truth_value (f fa x : Q) :
  truth_sum f fa = Fin x ->
  local_truth (Fin f) (Fin fa) = of_Z (round_Q x).
Proof. unfold local_truth, truth_sum. now intros ->. Qed.

Lemma fin_between_Fin (lo hi q : Q) : (lo <= q <= hi)%Q -> fin_between lo hi (Fin q).
Proof. intros H. now exists q. Qed.

Lemma fin_between_fl_of_Z (z : Z) :
  (Z.abs z <= 2 ^ 53)%Z -> fin_between (inject_Z z) (inject_Z z) (fl (of_Z z)).
Proof.
  intros H. rewrite fl_of_Z by exact H. exists (inject_Z z).
  split; [reflexivity | split; apply Qle_refl].
Qed.

(** A product with a positive integer constant, from a range of the
    other factor. *)
Lemma fmul_const_between (a : num) (c : Z) (la ha lo' hi' : Q) :
  fin_between la ha (fl a) -> (0 < c)%Z -> (c <= 2 ^ 53)%Z ->
  b64 (la * inject_Z c) = Fin lo' -> b64 (ha * inject_Z c) = Fin hi' ->
  fin_between lo' hi' (fmul a (of_Z c)).
Proof.
  intros Ha Hc Hc' Hlo Hhi.
  apply (@fmul_between a (of_Z c) la ha (inject_Z c) (inject_Z c)
                       (la * inject_Z c)%Q (ha * inject_Z c)%Q);
    [exact Ha | apply fin_between_fl_of_Z; lia | | exact Hlo | exact Hhi].
  intros u v Hu Hv.
  assert (P : (0 < inject_Z c)%Q) by (change 0%Q with (inject_Z 0); rewrite <- Zlt_Qlt; lia).
  assert (E : (v == inject_Z c)%Q) by (apply Qle_antisym; tauto).
  rewrite E. split; apply Qmult_le_compat_r; lra.
Qed.

(** For scores in [0,1] the sums are finite, the credibility sum between
    -150 and 100 and the truth sum between -100 and 100. *)
Lemma credibility_sum_range (f m fa : Q) :
  (0 <= f <= 1)%Q -> (0 <= m <= 1)%Q -> (0 <= fa <= 1)%Q ->
  fin_between (-150) 100 (credibility_sum f m fa).
Proof.
  intros Hf Hm Hfa. unfold credibility_sum.
  assert (U : forall q : Q, (0 <= q <= 1)%Q -> fin_between 0 1 (fl (Fin q))).
  { intros q Hq. apply (@fl_fin_between (Fin q) 0 1); [now apply fin_between_Fin | |]; b64_eval. }
  assert (Pf : fin_between 0 100 (fmul (Fin f) (of_Z 100))).
  { apply (@fmul_const_between _ 100 0 1); [now apply U | lia | lia | |]; b64_eval. }
  assert (Pm : fin_between 0 50 (fmul (Fin m) (of_Z 50))).
  { apply (@fmul_const_between _ 50 0 1); [now apply U | lia | lia | |]; b64_eval. }
  assert (Pfa : fin_between 0 100 (fmul (Fin fa) (of_Z 100))).
  { apply (@fmul_const_between _ 100 0 1); [now apply U | lia | lia | |]; b64_eval. }
  assert (D : fin_between (-50) 100
                (fsub (fmul (Fin f) (of_Z 100)) (fmul (Fin m) (of_Z 50)))).
  { apply (@fsub_between _ _ 0 100 0 50); rewrite ?fl_fmul; [exact Pf | exact Pm | |]; b64_eval. }
  apply (@fsub_between _ _ (-50) 100 0 100);
    rewrite ?fl_fsub, ?fl_fmul; [exact D | exact Pfa | |]; b64_eval.
Qed.

Lemma truth_sum_range (f fa : Q) :
  (0 <= f <= 1)%Q -> (0 <= fa <= 1)%Q ->
  fin_between (-100) 100 (truth_sum f fa).
Proof.
  intros Hf Hfa. unfold truth_sum.
  assert (U : forall q : Q, (0 <= q <= 1)%Q -> fin_between 0 100 (fmul (Fin q) (of_Z 100))).
  { intros q Hq. apply (@fmul_const_between _ 100 0 1); [| lia | lia | b64_eval | b64_eval].
    apply (@fl_fin_between (Fin q) 0 1); [now apply fin_between_Fin | |]; b64_eval. }
  apply (@fsub_between _ _ 0 100 0 100);
    rewrite ?fl_fmul; [now apply U | now apply U | |]; b64_eval.
Qed.

(** A product of a score of a moderate magnitude with a weight of at most
    100 is finite. *)
Lemma fmul_moderate (q : Q) (c : Z) :
  moderate q -> (0 < c <= 100)%Z ->
  fin_between (- 2 ^ 1007) (2 ^ 1007) (fmul (Fin q) (of_Z c)).
Proof.
  unfold moderate. intros Hq Hc.
  assert (P : (0 < inject_Z c <= inject_Z 100)%Q)
    by (split; [change 0%Q with (inject_Z 0); rewrite <- Zlt_Qlt | rewrite <- Zle_Qle]; lia).
  change (inject_Z 100) with 100%Q in P.
  apply (@fmul_between (Fin q) (of_Z c) (- 2 ^ 1000) (2 ^ 1000) (inject_Z c) (inject_Z c)
                       (- 2 ^ 1007) (2 ^ 1007));
    [ | apply fin_between_fl_of_Z; lia | | b64_eval | b64_eval].
  - apply (@fl_fin_between (Fin q) (- 2 ^ 1000) (2 ^ 1000));
      [now apply fin_between_Fin | |]; b64_eval.
  - intros u v Hu Hv.
    assert (E : (v == inject_Z c)%Q) by (apply Qle_antisym; tauto).
    assert (B : (2 ^ 1007 == 128 * 2 ^ 1000)%Q).
    { replace 1007%Z with (7 + 1000)%Z by reflexivity. rewrite pow2_plus. reflexivity. }
    assert (Pw := pow2_pos 1000).
    rewrite E, B. clear Hq B E Hv.
    generalize dependent (2 ^ 1000)%Q. intros T Hu Pw. split; nra.
Qed.

(** For scores of a moderate magnitude the sums are finite. *)
Lemma credibility_sum_moderate (f m fa : Q) :
  moderate f -> moderate m -> moderate fa ->
  exists x : Q, credibility_sum f m fa = Fin x.
Proof.
  intros Hf Hm Hfa. unfold credibility_sum.
  assert (D : fin_between (- 2 ^ 1008) (2 ^ 1008)
                (fsub (fmul (Fin f) (of_Z 100)) (fmul (Fin m) (of_Z 50)))).
  { apply (@fsub_between _ _ (- 2 ^ 1007) (2 ^ 1007) (- 2 ^ 1007) (2 ^ 1007));
      rewrite ?fl_fmul;
      [apply fmul_moderate; [exact Hf | lia] | apply fmul_moderate; [exact Hm | lia]
      | b64_eval | b64_eval]. }
  assert (R : fin_between (- (2 ^ 1008 + 2 ^ 1007)) (2 ^ 1008 + 2 ^ 1007)
                (fsub (fsub (fmul (Fin f) (of_Z 100)) (fmul (Fin m) (of_Z 50)))
                      (fmul (Fin fa) (of_Z 100)))).
  { apply (@fsub_between _ _ (- 2 ^ 1008) (2 ^ 1008) (- 2 ^ 1007) (2 ^ 1007));
      rewrite ?fl_fsub, ?fl_fmul;
      [exact D | apply fmul_moderate; [exact Hfa | lia] | b64_eval | b64_eval]. }
  destruct R as (x & Hx & _). now exists x.
Qed.

Lemma truth_sum_moderate (f fa : Q) :
  moderate f -> moderate fa -> exists x : Q, truth_sum f fa = Fin x.
Proof.
  intros Hf Hfa. unfold truth_sum.
  assert (R : fin_between (- 2 ^ 1008) (2 ^ 1008)
                (fsub (fmul (Fin f) (of_Z 100)) (fmul (Fin fa) (of_Z 100)))).
  { apply (@fsub_between _ _ (- 2 ^ 1007) (2 ^ 1007) (- 2 ^ 1007) (2 ^ 1007));
      rewrite ?fl_fmul;
      [apply fmul_moderate; [exact Hf | lia] | apply fmul_moderate; [exact Hfa | lia]
      | b64_eval | b64_eval]. }
  destruct R as (x & Hx & _). now exists x.
Qed.

(* ================================================================== *)
(** * Reliability label *)

Lemma getReliabilityLevel_below_20 (x : num) :
  lt x (of_Z 20) = true -> getReliabilityLevel x = "unreliable".
Proof.
  unfold getReliabilityLevel, ge, of_Z.
  destruct x as [q| | |]; simpl; try discriminate; [|reflexivity].
  intros H. apply negb_true_iff in H.
  assert (Hq : ~ (20 <= q)%Q).
  { intro C. apply Qle_bool_iff in C. unfold inject_Z in H. congruence. }
  assert (F : forall z : Z, (20 <= z)%Z -> Qle_bool (inject_Z z) q = false).
  { intros z Hz. destruct (Qle_bool (inject_Z z) q) eqn:E; [|reflexivity].
    exfalso. apply Hq. apply Qle_bool_iff in E.
    apply Qle_trans with (inject_Z z); [|assumption].
    change 20%Q with (inject_Z 20). rewrite <- Zle_Qle. assumption. }
  rewrite (F 80%Z), (F 60%Z), (F 40%Z), (F 20%Z) by lia. reflexivity.
Qed.

Lemma getReliabilityLevel_label (x : num) :
  In (getReliabilityLevel x) reliability_labels.
Proof.
  unfold getReliabilityLevel, reliability_labels.
  destruct (ge x (of_Z 80)); [simpl; tauto|].
  destruct (ge x (of_Z 60)); [simpl; tauto|].
  destruct (ge x (of_Z 40)); [simpl; tauto|].
  destruct (ge x (of_Z 20)); simpl; tauto.
Qed.

Lemma local_credibility_range (f m fa : Q) :
  (0 <= f <= 1)%Q -> (0 <= m <= 1)%Q -> (0 <= fa <= 1)%Q ->
  exists z : Z,
    local_credibility (Fin f) (Fin m) (Fin fa) = of_Z z /\ (-150 <= z <= 100)%Z.
Proof.
  intros Hf Hm Hfa.
  destruct (credibility_sum_range Hf Hm Hfa) as (x & Hx & Bx).
  exists (round_Q x). split; [exact (@local_credibility_value _ _ _ _ Hx)|].
  apply round_Q_bounds. exact Bx.
Qed.

(** C9. [getReliabilityLevel] returns one of the five labels on every
    number (the special values included), "unreliable" on every input
    strictly below 20, and so on each unshifted credibility value, which
    for scores in [0,1] ranges over the integers from -150 to 100, -150
    being reached. *)
Theorem C9_getReliabilityLevel_total :
  NoDup reliability_labels /\
  (forall x : num, In (getReliabilityLevel x) reliability_labels) /\
  (forall x : num, lt x (of_Z 20) = true -> getReliabilityLevel x = "unreliable") /\
  (forall f m fa : Q,
      (0 <= f <= 1)%Q -> (0 <= m <= 1)%Q -> (0 <= fa <= 1)%Q ->
      exists z : Z,
        local_credibility (Fin f) (Fin m) (Fin fa) = of_Z z /\
        (-150 <= z <= 100)%Z /\
        In (getReliabilityLevel (of_Z z)) reliability_labels) /\
  (local_credibility (of_Z 0) (of_Z 1) (of_Z 1) = of_Z (-150) /\
   getReliabilityLevel (of_Z (-150)) = "unreliable").
Proof.
  split; [|split; [|split; [|split]]].
  - unfold reliability_labels.
    repeat (constructor; [simpl; intuition discriminate|]). constructor.
  - apply getReliabilityLevel_label.
  - apply getReliabilityLevel_below_20.
  - intros f m fa Hf Hm Hfa.
    destruct (local_credibility_range Hf Hm Hfa) as (z & Hz & Bz).
    exists z. split; [exact Hz|].
    split; [exact Bz | apply getReliabilityLevel_label].
  - split; [vm_compute; reflexivity | reflexivity].
Qed.

Lemma C9_witness :
  getReliabilityLevel (of_Z (-150)) = "unreliable" /\
  exists z : Z,
    local_credibility (Fin 0) (Fin 1) (Fin 1) = of_Z z /\
    (-150 <= z <= 100)%Z /\
    In (getReliabilityLevel (of_Z z)) reliability_labels.
Proof.
  split.
  - apply (proj1 (proj2 (proj2 C9_getReliabilityLevel_total)) (of_Z (-150))).
    reflexivity.
  - apply (proj1 (proj2 (proj2 (proj2 C9_getReliabilityLevel_total))) 0%Q 1%Q 1%Q);
      split; discriminate.
Defined.

(* ================================================================== *)
(** * Text complexity *)

(** C5. On degenerate inputs the complexity is not 0: the empty text and
    the text of one space have no word, the divisions by the word count
    are 0/0 and the score is NaN; a text of full stops has one word and
    no sentence, the sentence average is infinite and the score is
    0.4125. *)
Theorem C5_complexity_of_degenerate_text :
  calculateTextComplexity " " = NaN /\
  calculateTextComplexity EmptyString = NaN /\
  calculateTextComplexity "..." = Fin (33 # 80) /\
  (exists r : Report,
      checkContent scenario_services " " = Completed r /\
      complexity (ContentAnalysis.factors (contentAnalysis r)) = NaN).
Proof.
  split; [|split; [|split]]; try (vm_compute; reflexivity).
  eexists. split; [reflexivity | vm_compute; reflexivity].
Qed.

(** Without a word the average word length is 0/0 and the score is NaN,
    whatever the sentence and complex-word counts. *)
Lemma complexity_without_words (nsentences ncomplex : nat) :
  complexity_of_counts 0 0 nsentences ncomplex = NaN.
Proof. reflexivity. Qed.

Lemma calculateTextComplexity_without_words (text : string) :
  words_of (of_string text) = [] -> calculateTextComplexity text = NaN.
Proof.
  intros H. unfold calculateTextComplexity. rewrite H.
  apply complexity_without_words.
Qed.

Lemma capped_fraction (x : Q) : (0 <= x)%Q -> (0 <= Qmin x 1 <= 1)%Q.
Proof.
  intros H. split.
  - apply Q.min_glb; [assumption | discriminate].
  - apply Q.le_min_r.
Qed.

Lemma Qdiv_nonneg (a b : Q) : (0 <= a)%Q -> (0 < b)%Q -> (0 <= a / b)%Q.
Proof.
  intros Ha Hb. apply Qle_shift_div_l; [assumption|]. now rewrite Qmult_0_l.
Qed.

Lemma inject_nat_nonneg (n : nat) : (0 <= inject_Z (Z.of_nat n))%Q.
Proof. change 0%Q with (inject_Z 0). rewrite <- Zle_Qle. lia. Qed.

Lemma inject_nat_pos (n : nat) : n <> 0 -> (0 < inject_Z (Z.of_nat n))%Q.
Proof. intros H. change 0%Q with (inject_Z 0). rewrite <- Zlt_Qlt. lia. Qed.

(** With at least one word and one sentence the score is the weighted sum
    of the three capped ratios, and lies in [0,1]. *)
Lemma complexity_of_regular_counts (letters nwords nsentences ncomplex : nat) :
  nwords <> 0 -> nsentences <> 0 ->
  let l := inject_Z (Z.of_nat letters) in
  let w := inject_Z (Z.of_nat nwords) in
  let s := inject_Z (Z.of_nat nsentences) in
  let c := inject_Z (Z.of_nat ncomplex) in
  exists q : Q,
    complexity_of_counts letters nwords nsentences ncomplex = Fin q /\
    (q == Qmin (l / w / 8) 1 * (3 # 10) + Qmin (w / s / 25) 1 * (3 # 10)
          + Qmin (c / (w * (1 # 10))) 1 * (4 # 10))%Q /\
    (0 <= q <= 1)%Q.
Proof.
  intros Hw Hs l w s c.
  assert (Pw : (0 < w)%Q) by now apply inject_nat_pos.
  assert (Ps : (0 < s)%Q) by now apply inject_nat_pos.
  assert (Nl : (0 <= l)%Q) by apply inject_nat_nonneg.
  assert (Nc : (0 <= c)%Q) by apply inject_nat_nonneg.
  assert (V : val (complexity_of_counts letters nwords nsentences ncomplex)
                  (Qmin (l / w / 8) 1 * (3 # 10) + Qmin (w / s / 25) 1 * (3 # 10)
                   + Qmin (c / (w * (1 # 10))) 1 * (4 # 10))%Q).
  { unfold complexity_of_counts.
    repeat first
      [ apply val_add | apply val_mul | apply val_min | apply val_Fin
      | apply val_of_nat
      | apply val_div; [ | | try discriminate; intro E; lra ] ]. }
  destruct V as [q [Hq Hv]]. exists q. split; [assumption|]. split; [assumption|].
  rewrite Hv.
  assert (B1 : (0 <= Qmin (l / w / 8) 1 <= 1)%Q).
  { apply capped_fraction. apply Qdiv_nonneg; [|reflexivity].
    now apply Qdiv_nonneg. }
  assert (B2 : (0 <= Qmin (w / s / 25) 1 <= 1)%Q).
  { apply capped_fraction. apply Qdiv_nonneg; [|reflexivity].
    apply Qdiv_nonneg; [now apply Qlt_le_weak | assumption]. }
  assert (B3 : (0 <= Qmin (c / (w * (1 # 10))) 1 <= 1)%Q).
  { apply capped_fraction. apply Qdiv_nonneg; [assumption | lra]. }
  split; lra.
Qed.

Lemma calculateTextComplexity_regular (text : string) :
  words_of (of_string text) <> [] -> sentences_of (of_string text) <> [] ->
  fin_between 0 1 (calculateTextComplexity text).
Proof.
  intros Hw Hs. unfold calculateTextComplexity.
  destruct (@complexity_of_regular_counts
              (total_length (words_of (of_string text)))
              (List.length (words_of (of_string text)))
              (List.length (sentences_of (of_string text)))
              (complexWords_of (of_string text)))
    as [q [Hq [_ Hr]]].
  - destruct (words_of (of_string text)); [congruence | discriminate].
  - destruct (sentences_of (of_string text)); [congruence | discriminate].
  - exists q. split; assumption.
Qed.

(* ================================================================== *)
(** * The extraction scenario *)

(** C4, as the code has it. On the scenario text the source list is the
    single High-confidence "Reuters" entry of type Major News Agency (the
    text reads "officials confirmed", which the official-source pattern,
    asking for "officials from", does not match), [hasStatistics] is
    true, the dates contain "01/05/2024", and the quotes contain the
    quoted span as written, comma included. *)
Theorem C4_reuters_scenario :
  extractNewsSource reuters_text = [MkSource "Reuters" MajorNewsAgency High] /\
  hasStatistics reuters_text = true /\
  In "01/05/2024" (extractDates reuters_text) /\
  In "It was fair," (extractQuotes reuters_text).
Proof.
  split; [|split; [|split]].
  - vm_compute. reflexivity.
  - vm_compute. reflexivity.
  - vm_compute. tauto.
  - vm_compute. tauto.
Qed.

(** C4, as the design document words it, fails: the source list holds no
    Official Source entry, and no extracted quote is "It was fair". *)
Lemma C4_counterexample :
  ~ (exists s : Source,
        In s (extractNewsSource reuters_text) /\
        type s = OfficialSource /\ confidence s = High) /\
  ~ In "It was fair" (extractQuotes reuters_text) /\
  extractQuotes reuters_text = ["It was fair,"; "It was fair,"].
Proof.
  assert (Hs : extractNewsSource reuters_text = [MkSource "Reuters" MajorNewsAgency High])
    by (vm_compute; reflexivity).
  assert (Hq : extractQuotes reuters_text = ["It was fair,"; "It was fair,"])
    by (vm_compute; reflexivity).
  split; [|split].
  - intros [s [Hin [Ht _]]]. rewrite Hs in Hin.
    destruct Hin as [<- | []]. discriminate.
  - rewrite Hq. intros [H | [H | []]]; discriminate.
  - exact Hq.
Qed.

(* ================================================================== *)
(** * Similarity *)

(** C6. The similarity of "a a" with itself is 2 where the Jaccard index
    of the design document is 1: the intersection is filtered out of the
    token list of the first string, repetitions kept, while the union is
    a set. *)
Theorem C6_similarity_of_repeated_word :
  calculateSimilarity (Some "a a") (Some "a a") = of_Z 2 /\
  similarity_spec (Some "a a") (Some "a a") = of_Z 1 /\
  tokens (of_string "a a") = [of_string "a"; of_string "a"].
Proof. repeat split; vm_compute; reflexivity. Qed.

(** Against the empty string, or an absent one, the similarity is 0. *)
Lemma calculateSimilarity_empty_r (a : option string) :
  calculateSimilarity a (Some EmptyString) = of_Z 0 /\ calculateSimilarity a None = of_Z 0.
Proof.
  unfold calculateSimilarity. destruct (truthy a); split; reflexivity.
Qed.

Lemma uniq_fresh (xs : list chars) :
  forall seen, NoDup xs -> (forall x, In x xs -> ~ In x seen) -> uniq xs seen = xs.
Proof.
  induction xs as [|x tl IH]; intros seen Hnd Hfresh; [reflexivity|].
  inversion Hnd as [|? ? Hx Htl]; subst. simpl.
  destruct (includes seen x) eqn:E.
  - apply includes_In in E. exfalso. apply (Hfresh x); [now left | assumption].
  - f_equal. apply IH; [assumption|].
    intros y Hy [<- | Hs]; [contradiction|].
    apply (Hfresh y); [now right | assumption].
Qed.

Lemma uniq_NoDup (xs : list chars) : NoDup xs -> uniq xs [] = xs.
Proof. intros H. apply uniq_fresh; [assumption | intros x _ []]. Qed.

(** The code computes the Jaccard index when the first string repeats no
    token. *)
Lemma calculateSimilarity_is_jaccard (a b : option string) :
  (forall s, truthy a = Some s -> NoDup (tokens s)) ->
  calculateSimilarity a b = similarity_spec a b.
Proof.
  intros H. unfold calculateSimilarity, similarity_spec.
  destruct (truthy a) as [s1|]; [|reflexivity].
  destruct (truthy b) as [s2|]; [|reflexivity].
  unfold similarity_of_words, jaccard_of_words.
  now rewrite (uniq_NoDup (H s1 eq_refl)).
Qed.

(** C8. Some non-empty strings have a similarity above 1: "breaking
    breaking news" against "breaking news" has three tokens in the
    filtered list and two in the union, 3/2; a verifier answered with an
    article of that title returns the confidence 150. *)
(* ================================================================== *)
(** * Similarity and verifier confidence are never negative *)

Lemma split_go_nonempty (ic : bool) (r : regex) (cs : chars) :
  forall skip p pv cur, split_go ic r skip p pv cs cur <> [].
Proof.
  induction cs as [|c tl IH]; intros skip p pv cur; simpl.
  - discriminate.
  - destruct skip as [|sk]; [|apply IH].
    destruct (match_at ic r p pv (c :: tl)) as [mt|]; [|apply IH].
    destruct (List.length (mtext mt)); [destruct cur|]; try discriminate; apply IH.
Qed.

Lemma split_nonempty (ic : bool) (r : regex) (s : chars) :
  s <> [] -> split ic r s <> [].
Proof.
  destruct s as [|c tl]; [congruence|]. intros _. apply split_go_nonempty.
Qed.

Lemma tokens_nonempty (s : chars) : s <> [] -> tokens s <> [].
Proof.
  intros H. apply split_nonempty. destruct s; [congruence | discriminate].
Qed.

Lemma truthy_nonempty (o : option string) (s : chars) : truthy o = Some s -> s <> [].
Proof.
  destruct o as [[|c tl]|]; simpl; try discriminate.
  intros H. injection H as <-. discriminate.
Qed.

Lemma uniq_nonempty (xs : list chars) : xs <> [] -> uniq xs [] <> [].
Proof. destruct xs; [congruence | discriminate]. Qed.

Lemma nonneg_of_Z (z : Z) : (0 <= z)%Z -> nonneg (of_Z z).
Proof.
  intros H. exists (inject_Z z). split; [reflexivity|].
  change 0%Q with (inject_Z 0). now rewrite <- Zle_Qle.
Qed.

Lemma nonneg_val (a : num) (q : Q) : val a q -> (0 <= q)%Q -> nonneg a.
Proof.
  intros [q' [-> Hq]] H. exists q'. split; [reflexivity | now rewrite Hq].
Qed.

Lemma quotient_nonneg (n k : nat) :
  k <> 0 -> nonneg (of_nat n / of_nat k)%num.
Proof.
  intros Hk.
  assert (Hpos : (0 < inject_Z (Z.of_nat k))%Q).
  { change 0%Q with (inject_Z 0). rewrite <- Zlt_Qlt. lia. }
  apply nonneg_val with (inject_Z (Z.of_nat n) / inject_Z (Z.of_nat k))%Q.
  - apply val_div; [apply val_of_nat | apply val_of_nat |].
    intro E. rewrite E in Hpos. now apply Qlt_irrefl in Hpos.
  - apply Qle_shift_div_l; [assumption|]. rewrite Qmult_0_l.
    change 0%Q with (inject_Z 0). rewrite <- Zle_Qle. lia.
Qed.

Lemma similarity_of_words_nonneg (words1 words2 : list chars) :
  words1 <> [] -> nonneg (similarity_of_words words1 words2).
Proof.
  intros H. unfold similarity_of_words. apply quotient_nonneg.
  assert (U : uniq (words1 ++ words2) [] <> []).
  { apply uniq_nonempty. destruct words1; [congruence | discriminate]. }
  destruct (uniq (words1 ++ words2) []); [congruence | discriminate].
Qed.

Lemma calculateSimilarity_nonneg (a b : option string) :
  nonneg (calculateSimilarity a b).
Proof.
  unfold calculateSimilarity.
  destruct (truthy a) as [s1|] eqn:Ha; [|now apply nonneg_of_Z].
  destruct (truthy b) as [s2|]; [|now apply nonneg_of_Z].
  apply similarity_of_words_nonneg, tokens_nonempty.
  now apply truthy_nonempty with a.
Qed.

Lemma max_nonneg (a b : num) : nonneg a -> nonneg b -> nonneg (Num.max a b).
Proof.
  intros [x [-> Hx]] [y [-> Hy]]. unfold Num.max.
  destruct (Qle_bool x y); [now exists y | now exists x].
Qed.

Lemma max_list_nonneg (xs : list num) :
  Forall nonneg xs -> xs <> [] -> nonneg (max_list xs).
Proof.
  unfold max_list.
  assert (G : forall l acc, Forall nonneg l -> nonneg acc ->
                            nonneg (fold_left Num.max l acc)).
  { induction l as [|y l IH]; intros acc Hl Hacc; simpl; [assumption|].
    inversion Hl; subst. apply IH; [assumption | now apply max_nonneg]. }
  destruct xs as [|x tl]; [congruence|]. intros Hall _.
  inversion Hall as [|? ? Hx Htl]; subst. simpl.
  apply G; [assumption|].
  destruct Hx as [q [-> Hq]]. now exists q.
Qed.

Lemma round_Q_nonneg (x : Q) : (0 <= x)%Q -> (0 <= round_Q x)%Z.
Proof.
  intros H. unfold round_Q. rewrite <- (Qfloor_Z 0).
  apply Qfloor_resp_le. change (inject_Z 0) with 0%Q. lra.
Qed.

Lemma percent_nonneg (a : num) :
  nonneg a -> exists z : Z, round (a * of_Z 100)%num = of_Z z /\ (0 <= z)%Z.
Proof.
  intros [q [-> Hq]]. exists (round_Q (q * 100)%Q). split.
  - apply round_val. apply val_mul; apply val_Fin.
  - apply round_Q_nonneg. change (inject_Z 100) with 100%Q. nra.
Qed.

(** The confidence the adapter returns is a non-negative integer. *)

(** C8. Some non-empty strings have a similarity above 1: "breaking
    breaking news" against "breaking news" has three tokens in the
    filtered list and two in the union, 3/2; a verifier answered with an
    article of that title returns the confidence 150. *)
Theorem C8_similarity_above_one :
  (exists a b : string,
      a <> EmptyString /\ b <> EmptyString /\
      calculateSimilarity (Some a) (Some b) = Fin (3 # 2) /\
      gt (calculateSimilarity (Some a) (Some b)) (of_Z 1) = true) /\
  (exists (api : string -> completion News.Response) (content : string)
          (r : News.Result),
      News.verifyWithNewsAPI api content = Normal r /\
      News.confidence r = of_Z 150 /\
      gt (News.confidence r) (of_Z 100) = true /\
      News.isVerified r = true).
Proof.
  split.
  - exists "breaking breaking news", "breaking news".
    repeat split; try discriminate; vm_compute; reflexivity.
  - exists (answering_api "breaking news"), "breaking breaking news".
    eexists. split; [vm_compute; reflexivity|].
    repeat split.
Qed.

(* ================================================================== *)
(** * The verifier adapter *)

(** The adapter never throws: what its [try] block throws, its [catch]
    turns into a result. *)
Lemma verify_never_throws (api : string -> completion News.Response)
    (content : string) :
  exists r : News.Result, News.verifyWithNewsAPI api content = Normal r.
Proof.
  unfold News.verifyWithNewsAPI, try_catch.
  match goal with |- context [match ?b with _ => _ end] => destruct b end;
    eexists; reflexivity.
Qed.

Lemma verify_threw (api : string -> completion News.Response)
    (content message : string) :
  api (News.keywords content) = Throw message ->
  News.verifyWithNewsAPI api content = Normal (News.degraded (Some message)).
Proof. intros H. unfold News.verifyWithNewsAPI. now rewrite H. Qed.

Lemma verify_not_ok (api : string -> completion News.Response)
    (content : string) (response : News.Response) :
  api (News.keywords content) = Normal response ->
  News.status response <> "ok" ->
  News.verifyWithNewsAPI api content = Normal (News.degraded None).
Proof.
  intros H Hs. unfold News.verifyWithNewsAPI. rewrite H. simpl.
  destruct (String.eqb (News.status response) "ok") eqn:E; [|reflexivity].
  apply String.eqb_eq in E. contradiction.
Qed.

Lemma verify_no_article (api : string -> completion News.Response)
    (content : string) (response : News.Response) :
  api (News.keywords content) = Normal response ->
  News.articles response = Some [] ->
  News.verifyWithNewsAPI api content = Normal (News.degraded None).
Proof.
  intros H Ha. unfold News.verifyWithNewsAPI. rewrite H. simpl. rewrite Ha.
  now destruct (String.eqb (News.status response) "ok").
Qed.

Lemma degraded_is_degraded (err : option string) : is_degraded (News.degraded err).
Proof. repeat split. Qed.

(** The confidence the adapter returns is a non-negative integer. *)
Lemma verifier_confidence_nonneg (api : string -> completion News.Response)
    (content : string) (r : News.Result) :
  News.verifyWithNewsAPI api content = Normal r ->
  exists z : Z, News.confidence r = of_Z z /\ (0 <= z)%Z.
Proof.
  assert (Z0 : forall e, exists z : Z,
               News.confidence (News.degraded e) = of_Z z /\ (0 <= z)%Z)
    by (intros e; exists 0%Z; split; [reflexivity | lia]).
  unfold News.verifyWithNewsAPI, try_catch, bind.
  destruct (api (News.keywords content)) as [response|message]; cbv beta iota;
    [|intros H; injection H as <-; apply Z0].
  destruct (String.eqb (News.status response) "ok"); cbv beta iota;
    [|intros H; injection H as <-; apply Z0].
  destruct (News.articles response) as [arts|]; cbv beta iota;
    [|intros H; injection H as <-; apply Z0].
  destruct (0 <? List.length arts) eqn:E; cbv beta iota;
    [|intros H; injection H as <-; apply Z0].
  destruct (map_throwing News.matched (firstn 3 arts)) as [ms|message];
    cbv beta iota; [|intros H; injection H as <-; apply Z0].
  intros H. injection H as <-. cbn [News.confidence].
  apply percent_nonneg. apply max_list_nonneg.
  - apply Forall_forall. intros x Hx. apply in_map_iff in Hx.
    destruct Hx as [a [<- _]]. unfold News.article_similarity.
    apply max_nonneg; apply calculateSimilarity_nonneg.
  - destruct arts; discriminate.
Qed.

(* ================================================================== *)
(** * The orchestrator *)

(** A completed submission is a non-empty text whose classifications and
    assessment all settled with a value; the report is [build_report] of
    them and of the result of the verifier adapter. *)
Lemma checkContent_completed (svc : Services) (content : string) (r : Report) :
  checkContent svc content = Completed r ->
  exists tr fr mr nr,
    classifyType svc content = Normal tr /\
    classifyFactuality svc content = Normal fr /\
    analyzeMistral svc content = Normal mr /\
    News.verifyWithNewsAPI (newsApi svc) content = Normal nr /\
    r = build_report content tr fr mr nr.
Proof.
  unfold checkContent. destruct content as [|c tl]; [discriminate|].
  destruct (classifyType svc (String c tl)) as [tr|e]; [|discriminate].
  destruct (classifyFactuality svc (String c tl)) as [fr|e]; [|discriminate].
  destruct (analyzeMistral svc (String c tl)) as [mr|e]; [|discriminate].
  destruct (News.verifyWithNewsAPI (newsApi svc) (String c tl)) as [nr|e];
    [|discriminate].
  simpl. intros H. injection H as <-. now exists tr, fr, mr, nr.
Qed.

Lemma checkContent_success (svc : Services) (content : string)
    (tr fr : Classifier.Response) (mr : MistralResult) :
  content <> EmptyString ->
  classifyType svc content = Normal tr ->
  classifyFactuality svc content = Normal fr ->
  analyzeMistral svc content = Normal mr ->
  exists nr : News.Result,
    News.verifyWithNewsAPI (newsApi svc) content = Normal nr /\
    checkContent svc content = Completed (build_report content tr fr mr nr).
Proof.
  intros Hne H1 H2 H3.
  destruct (verify_never_throws (newsApi svc) content) as [nr Hn].
  exists nr. split; [assumption|].
  unfold checkContent. destruct content as [|c tl]; [congruence|].
  now rewrite H1, H2, H3, Hn.
Qed.

(** C7, as the code has it. The adapter never throws. Whenever its request
    throws, or is answered with a status other than "ok" or with no
    article, it returns the degraded result: not verified, confidence 0,
    no matched article. It does not look at the keyword set: the query is
    sent also when it is empty, and the result follows from what the
    request settles to. Whatever that is, a non-empty submission whose
    classifier and assessor calls succeed completes with a report, which
    carries the adapter's result. *)
Theorem C7_verifier_degrades_and_pipeline_completes :
  (forall (api : string -> completion News.Response) (content : string),
      exists r : News.Result,
        News.verifyWithNewsAPI api content = Normal r /\
        (verifier_failed (api (News.keywords content)) -> is_degraded r)) /\
  (forall (svc : Services) (content : string)
          (tr fr : Classifier.Response) (mr : MistralResult),
      content <> EmptyString ->
      classifyType svc content = Normal tr ->
      classifyFactuality svc content = Normal fr ->
      analyzeMistral svc content = Normal mr ->
      exists (r : Report) (nr : News.Result),
        News.verifyWithNewsAPI (newsApi svc) content = Normal nr /\
        checkContent svc content = Completed r /\
        NewsVerification.isVerified (newsVerification r) = News.isVerified nr /\
        NewsVerification.confidence (newsVerification r) = News.confidence nr /\
        NewsVerification.matchedArticles (newsVerification r) =
          News.matchedArticles nr).
Proof.
  split.
  - intros api content.
    destruct (api (News.keywords content)) as [response|message] eqn:E.
    + destruct (verify_never_throws api content) as [r Hr].
      exists r. split; [assumption|]. intros [H | H].
      * rewrite (verify_not_ok _ _ E H) in Hr. injection Hr as <-.
        apply degraded_is_degraded.
      * rewrite (verify_no_article _ _ E H) in Hr. injection Hr as <-.
        apply degraded_is_degraded.
    + exists (News.degraded (Some message)).
      split; [now apply verify_threw | intros _; apply degraded_is_degraded].
  - intros svc content tr fr mr Hne Ht Hc Hm.
    destruct (checkContent_success _ Hne Ht Hc Hm) as [nr [Hn Hr]].
    eexists. exists nr. split; [exact Hn|]. split; [exact Hr|].
    repeat split.
Qed.

Lemma C7_witness :
  (exists r : News.Result,
      News.verifyWithNewsAPI (fun _ => Throw "Network Error") scenario_text
        = Normal r /\ is_degraded r) /\
  exists (r : Report) (nr : News.Result),
    News.verifyWithNewsAPI (fun _ => Throw "Network Error") scenario_text
      = Normal nr /\
    checkContent (fixed_services type_answer mostly_factual (assessment 80 75 90)
                                 (Throw "Network Error"))
                 scenario_text = Completed r /\
    NewsVerification.isVerified (newsVerification r) = News.isVerified nr /\
    NewsVerification.confidence (newsVerification r) = News.confidence nr /\
    NewsVerification.matchedArticles (newsVerification r) = News.matchedArticles nr.
Proof.
  split.
  - destruct (proj1 C7_verifier_degrades_and_pipeline_completes
                    (fun _ => Throw "Network Error") scenario_text)
      as [r [Hr Hd]].
    exists r. split; [exact Hr|]. apply Hd. exact I.
  - apply (proj2 C7_verifier_degrades_and_pipeline_completes
                 (fixed_services type_answer mostly_factual (assessment 80 75 90)
                                 (Throw "Network Error"))
                 scenario_text
                 (Classifier.MkResponse
                    ["news article"; "blog post"; "opinion piece";
                     "social media post"; "advertisement"]
                    [(9 # 10)%Q; (4 # 100)%Q; (3 # 100)%Q; (2 # 100)%Q; (1 # 100)%Q])
                 (Classifier.MkResponse factuality_labels
                    [(7 # 10)%Q; (1 # 10)%Q; (5 # 100)%Q; (1 # 10)%Q; (5 # 100)%Q])
                 (MkMistral (of_Z 80) (of_Z 75) (of_Z 90)));
      [discriminate | reflexivity | reflexivity | reflexivity].
Defined.

(** C7, as the design document words it, fails on the empty keyword set:
    the text "hi" has no word longer than four characters, the query is
    empty, and when the search service answers it with an article titled
    "hi" the adapter returns a verified result of confidence 100. *)
Lemma C7_counterexample :
  News.keywords "hi" = EmptyString /\
  exists r : News.Result,
    News.verifyWithNewsAPI (answering_api "hi") "hi" = Normal r /\
    News.isVerified r = true /\
    News.confidence r = of_Z 100 /\
    List.length (News.matchedArticles r) = 1 /\
    ~ is_degraded r.
Proof.
  split; [vm_compute; reflexivity|].
  eexists. split; [vm_compute; reflexivity|].
  split; [reflexivity|]. split; [reflexivity|]. split; [reflexivity|].
  intros [H _]. discriminate.
Qed.

(** C10. When the request threw, the degraded result carries the message
    of the failure in its [error] field; when the request was answered
    without any article the degraded result has no [error] field. The two
    results agree on the other fields and differ on this one. *)
Theorem C10_thrown_failure_carries_error :
  forall (api api' : string -> completion News.Response)
         (content message : string) (response : News.Response),
    api (News.keywords content) = Throw message ->
    api' (News.keywords content) = Normal response ->
    News.articles response = Some [] ->
    News.verifyWithNewsAPI api content =
      Normal (News.MkResult false (of_Z 0) [] (Some message)) /\
    News.verifyWithNewsAPI api' content =
      Normal (News.MkResult false (of_Z 0) [] None) /\
    News.verifyWithNewsAPI api content <> News.verifyWithNewsAPI api' content.
Proof.
  intros api api' content message response H H' Ha.
  rewrite (verify_threw _ _ H), (verify_no_article _ _ H' Ha).
  repeat split. discriminate.
Qed.

Lemma C10_witness :
  News.verifyWithNewsAPI (fun _ => Throw "Network Error") scenario_text =
    Normal (News.MkResult false (of_Z 0) [] (Some "Network Error")) /\
  News.verifyWithNewsAPI (fun _ => no_articles) scenario_text =
    Normal (News.MkResult false (of_Z 0) [] None) /\
  News.verifyWithNewsAPI (fun _ => Throw "Network Error") scenario_text <>
    News.verifyWithNewsAPI (fun _ => no_articles) scenario_text.
Proof.
  apply (@C10_thrown_failure_carries_error
           (fun _ => Throw "Network Error") (fun _ => no_articles)
           scenario_text "Network Error" (News.MkResponse "ok" (Some [])));
    reflexivity.
Defined.

(** C2. The local credibility score reported by a completed submission is
    round(factual*100 - misleading*50 - false*100), shifted by 50 and
    clamped to [0,100], and the local truth score is
    round(factual*100 - false*100), shifted and clamped alike: the sums are
    those of binary64 and the rounding is to the nearest integer, a tie
    going up. For scores in [0,1] the sums are finite, within [-150,100]
    and [-100,100]. On the factuality scores 0.7, 0.1, 0.05, 0.1, 0.05 the
    sums are 60 and 65 and both reported scores are 100. The arithmetic is
    not exact: on a factual score of 0.145 alone the binary64 sum lies
    below 14.5, where the exact one is 14.5, and the reported credibility
    is 64; on the binary64 value nearest to 0.015, which lies below 0.015,
    the product is 1.5 and the reported credibility is 52. *)
Theorem C2_local_scores_shifted_and_clamped :
  (forall (svc : Services) (content : string) (r : Report)
          (fr : Classifier.Response) (i j k : nat) (f m fa x y : Q),
      checkContent svc content = Completed r ->
      classifyFactuality svc content = Normal fr ->
      indexOf (Classifier.labels fr) "factual" = Some i ->
      nth_error (Classifier.scores fr) i = Some f ->
      indexOf (Classifier.labels fr) "misleading" = Some j ->
      nth_error (Classifier.scores fr) j = Some m ->
      indexOf (Classifier.labels fr) "false" = Some k ->
      nth_error (Classifier.scores fr) k = Some fa ->
      credibility_sum f m fa = Fin x ->
      truth_sum f fa = Fin y ->
      exists c t : Z,
        nearest_integer x c /\ nearest_integer y t /\
        CredibilityMetrics.credibilityScore (credibilityMetrics r) =
          of_Z (shifted_and_clamped c) /\
        CredibilityMetrics.truthScore (credibilityMetrics r) =
          of_Z (shifted_and_clamped t)) /\
  (forall f m fa : Q,
      (0 <= f <= 1)%Q -> (0 <= m <= 1)%Q -> (0 <= fa <= 1)%Q ->
      fin_between (-150) 100 (credibility_sum f m fa) /\
      fin_between (-100) 100 (truth_sum f fa)) /\
  (exists r : Report,
      checkContent scenario_services scenario_text = Completed r /\
      credibility_sum (7 # 10) (1 # 10) (5 # 100) = Fin 60 /\
      truth_sum (7 # 10) (5 # 100) = Fin 65 /\
      CredibilityMetrics.credibilityScore (credibilityMetrics r) = of_Z 100 /\
      CredibilityMetrics.truthScore (credibilityMetrics r) = of_Z 100) /\
  (exists (r : Report) (x : Q),
      checkContent half_point_services scenario_text = Completed r /\
      credibility_sum (145 # 1000) 0 0 = Fin x /\
      (x < 29 # 2)%Q /\ ((145 # 1000) * 100 - 0 * 50 - 0 * 100 == 29 # 2)%Q /\
      nearest_integer x 14 /\
      CredibilityMetrics.credibilityScore (credibilityMetrics r) = of_Z 64) /\
  (b64 (15 # 1000) = Fin (1080863910568919 # 72057594037927936) /\
   ((1080863910568919 # 72057594037927936) * 100 < 3 # 2)%Q /\
   credibility_sum (1080863910568919 # 72057594037927936) 0 0 = Fin (3 # 2) /\
   shift_and_clamp
     (local_credibility (Fin (1080863910568919 # 72057594037927936)) (Fin 0) (Fin 0)) =
   of_Z 52).
Proof.
  split; [|split; [|split; [|split]]].
  - intros svc content r fr i j k f m fa x y Hr Hc Hi Hf Hj Hm Hk Hfa Hx Hy.
    destruct (checkContent_completed _ _ Hr)
      as (tr & fr' & mr & nr & _ & Hc' & _ & _ & ->).
    rewrite Hc in Hc'. injection Hc' as <-.
    exists (round_Q x), (round_Q y).
    split; [apply nearest_integer_round|]. split; [apply nearest_integer_round|].
    unfold build_report. cbn [credibilityMetrics CredibilityMetrics.credibilityScore
                              CredibilityMetrics.truthScore].
    rewrite (score_at_found _ _ _ Hi Hf), (score_at_found _ _ _ Hj Hm),
            (score_at_found _ _ _ Hk Hfa).
    rewrite (@local_credibility_value _ _ _ _ Hx), (@local_truth_value _ _ _ Hy).
    now rewrite !shift_and_clamp_of_Z.
  - intros f m fa Hf Hm Hfa. split.
    + now apply credibility_sum_range.
    + now apply truth_sum_range.
  - eexists. split; [vm_compute; reflexivity|].
    repeat split; vm_compute; reflexivity.
  - eexists. eexists. split; [vm_compute; reflexivity|].
    split; [vm_compute; reflexivity|].
    split; [reflexivity|]. split; [reflexivity|].
    split; [split; [discriminate | reflexivity] | vm_compute; reflexivity].
  - split; [vm_compute; reflexivity|]. split; [reflexivity|].
    split; vm_compute; reflexivity.
Qed.

Lemma C2_witness :
  exists c t : Z,
    nearest_integer 60 c /\ nearest_integer 65 t /\
    shift_and_clamp (local_credibility (Fin (7 # 10)) (Fin (1 # 10)) (Fin (5 # 100))) =
      of_Z (shifted_and_clamped c) /\
    shift_and_clamp (local_truth (Fin (7 # 10)) (Fin (5 # 100))) =
      of_Z (shifted_and_clamped t).
Proof.
  assert (R : exists r : Report,
             checkContent scenario_services scenario_text = Completed r)
    by (eexists; vm_compute; reflexivity).
  destruct R as [r Hr].
  destruct (proj1 C2_local_scores_shifted_and_clamped
              scenario_services scenario_text r
              (Classifier.MkResponse factuality_labels
                 [(7 # 10)%Q; (1 # 10)%Q; (5 # 100)%Q; (1 # 10)%Q; (5 # 100)%Q])
              0 1 2 (7 # 10)%Q (1 # 10)%Q (5 # 100)%Q 60%Q 65%Q)
    as (c & t & Hc & Ht & _ & _);
    [exact Hr | reflexivity | reflexivity | reflexivity | reflexivity | reflexivity
    | reflexivity | reflexivity | vm_compute; reflexivity | vm_compute; reflexivity |].
  exists c, t. split; [exact Hc|]. split; [exact Ht|].
  rewrite (nearest_integer_unique Hc (nearest_integer_round 60)),
          (nearest_integer_unique Ht (nearest_integer_round 65)).
  split; vm_compute; reflexivity.
Defined.
(* ================================================================== *)
(** * Combined metrics *)

(** A product with a weight of the source, a non-negative literal. *)
Lemma fmul_weight_between (a : num) (w w' ha hi' : Q) :
  fin_between 0 ha (fl a) -> b64 w = Fin w' -> (0 <= w')%Q ->
  b64 (ha * w') = Fin hi' ->
  fin_between 0 hi' (fmul a (Fin w)).
Proof.
  intros Ha Hw Pw Hhi.
  apply (@fmul_between a (Fin w) 0 ha w' w' 0 (ha * w')%Q);
    [exact Ha | | | b64_eval | exact Hhi].
  - exists w'. split; [exact Hw | split; apply Qle_refl].
  - intros u v Hu Hv.
    assert (E : (v == w')%Q) by (apply Qle_antisym; tauto).
    rewrite E. split; [nra|]. apply Qmult_le_compat_r; lra.
Qed.

(** The two weights as binary64 reads them. *)
Lemma weights_in_binary64 :
  b64 (6 # 10) = Fin (5404319552844595 # 9007199254740992) /\
  b64 (4 # 10) = Fin (3602879701896397 # 9007199254740992).
Proof. split; b64_eval. Qed.

Lemma weighted_sum_between (a b : num) (h h6 h4 hs : Q) :
  fin_between 0 h (fl a) -> fin_between 0 h (fl b) ->
  b64 (h * (5404319552844595 # 9007199254740992)) = Fin h6 ->
  b64 (h * (3602879701896397 # 9007199254740992)) = Fin h4 ->
  b64 (h6 + h4) = Fin hs ->
  fin_between 0 hs (fadd (fmul a (Fin (6 # 10))) (fmul b (Fin (4 # 10)))).
Proof.
  intros Ha Hb H6 H4 Hs. destruct weights_in_binary64 as [W6 W4].
  apply (@fadd_between _ _ 0 h6 0 h4);
    rewrite ?fl_fmul; [| | b64_eval | exact Hs].
  - apply (@fmul_weight_between a _ _ h _ Ha W6); [discriminate | exact H6].
  - apply (@fmul_weight_between b _ _ h _ Hb W4); [discriminate | exact H4].
Qed.

Lemma combineScores_range (a : Z) (e : num) :
  (0 <= a <= 100)%Z -> fin_between 0 100 e ->
  int_between 0 100 (combineScores (of_Z a) e).
Proof.
  intros Ha He.
  assert (A : fin_between 0 100 (fl (of_Z a))).
  { rewrite fl_of_Z by lia. exists (inject_Z a). split; [reflexivity|].
    change 0%Q with (inject_Z 0). change 100%Q with (inject_Z 100).
    rewrite <- !Zle_Qle. lia. }
  assert (E : fin_between 0 100 (fl e)).
  { apply (@fl_fin_between e 0 100); [exact He | |]; b64_eval. }
  destruct (@weighted_sum_between (of_Z a) e 100 60 40 100) as (v & Hv & Bv);
    [exact A | exact E | b64_eval | b64_eval | b64_eval |].
  unfold combineScores, combineScoresWith. rewrite Hv.
  exists (round_Q v). split; [reflexivity|]. apply round_Q_bounds. exact Bv.
Qed.

Lemma percent_range (c : Q) :
  (0 <= c <= 1)%Q ->
  exists z : Z, percent (Fin c) = of_Z z /\ (0 <= z <= 100)%Z.
Proof.
  intros Hc.
  assert (P : fin_between 0 100 (fmul (Fin c) (of_Z 100))).
  { apply (@fmul_const_between _ 100 0 1); [| lia | lia | b64_eval | b64_eval].
    apply (@fl_fin_between (Fin c) 0 1); [now apply fin_between_Fin | |]; b64_eval. }
  destruct P as (v & Hv & Bv). unfold percent. rewrite Hv.
  exists (round_Q v). split; [reflexivity|]. apply round_Q_bounds. exact Bv.
Qed.

(** A quotient by a positive integer constant, from a range of the
    dividend. *)
Lemma fdiv_const_between (a : num) (c : Z) (la ha lo' hi' : Q) :
  fin_between la ha (fl a) -> (0 < c)%Z -> (c <= 2 ^ 53)%Z ->
  b64 (la / inject_Z c) = Fin lo' -> b64 (ha / inject_Z c) = Fin hi' ->
  fin_between lo' hi' (fdiv a (of_Z c)).
Proof.
  intros (u & Eu & Bu) Hc Hc' Hlo Hhi.
  assert (P : (0 < inject_Z c)%Q)
    by (change 0%Q with (inject_Z 0); rewrite <- Zlt_Qlt; lia).
  unfold fdiv. rewrite Eu, fl_of_Z by lia. unfold of_Z, div.
  assert (G : (inject_Z c ?= 0)%Q = Gt) by now apply Qgt_alt.
  rewrite G. cbn [fl].
  apply b64_between with (la / inject_Z c)%Q (ha / inject_Z c)%Q;
    [|exact Hlo | exact Hhi].
  rewrite Qred_correct. split.
  - apply Qle_shift_div_l; [exact P|].
    setoid_replace (la / inject_Z c * inject_Z c)%Q with la by (field; lra). tauto.
  - apply Qle_shift_div_r; [exact P|].
    setoid_replace (ha / inject_Z c * inject_Z c)%Q with ha by (field; lra). tauto.
Qed.

Lemma average_range (p : Z) (e : num) :
  (0 <= p <= 100)%Z -> fin_between 0 100 e ->
  int_between 0 100 (round (fdiv (fadd (of_Z p) e) (of_Z 2))).
Proof.
  intros Hp He.
  assert (A : fin_between 0 100 (fl (of_Z p))).
  { rewrite fl_of_Z by lia. exists (inject_Z p). split; [reflexivity|].
    change 0%Q with (inject_Z 0). change 100%Q with (inject_Z 100).
    rewrite <- !Zle_Qle. lia. }
  assert (E : fin_between 0 100 (fl e)).
  { apply (@fl_fin_between e 0 100); [exact He | |]; b64_eval. }
  assert (S : fin_between 0 200 (fadd (of_Z p) e)).
  { apply (@fadd_between _ _ 0 100 0 100); [exact A | exact E | |]; b64_eval. }
  assert (D : fin_between 0 100 (fdiv (fadd (of_Z p) e) (of_Z 2))).
  { apply (@fdiv_const_between _ 2 0 200);
      [rewrite fl_fadd; exact S | lia | lia | b64_eval | b64_eval]. }
  destruct D as (v & Hv & Bv). rewrite Hv.
  exists (round_Q v). split; [reflexivity|]. apply round_Q_bounds. exact Bv.
Qed.

(** C1, as the code has it. When the factuality answer scores the labels
    factual, misleading and false with numbers of a magnitude of at most
    2^1000, the top content-type score lies in [0,1] and the three fields
    of the assessor's answer are numbers in [0,100], the combined
    credibility score, truth score and confidence of a completed
    submission are integers in [0,100]; newsReliability is the confidence
    of the verifier adapter as it is, a non-negative integer. *)
Theorem C1_combined_metrics_in_range_on_bounded_answers :
  forall (svc : Services) (content : string) (r : Report)
         (tr fr : Classifier.Response) (mr : MistralResult) (nr : News.Result)
         (c : Q) (i j k : nat) (f m fa : Q),
    checkContent svc content = Completed r ->
    classifyType svc content = Normal tr ->
    classifyFactuality svc content = Normal fr ->
    analyzeMistral svc content = Normal mr ->
    News.verifyWithNewsAPI (newsApi svc) content = Normal nr ->
    hd_error (Classifier.scores tr) = Some c -> (0 <= c <= 1)%Q ->
    indexOf (Classifier.labels fr) "factual" = Some i ->
    nth_error (Classifier.scores fr) i = Some f ->
    indexOf (Classifier.labels fr) "misleading" = Some j ->
    nth_error (Classifier.scores fr) j = Some m ->
    indexOf (Classifier.labels fr) "false" = Some k ->
    nth_error (Classifier.scores fr) k = Some fa ->
    moderate f -> moderate m -> moderate fa ->
    fin_between 0 100 (mistral_credibilityScore mr) ->
    fin_between 0 100 (mistral_truthScore mr) ->
    fin_between 0 100 (mistral_confidence mr) ->
    int_between 0 100 (CombinedMetrics.credibilityScore (combinedMetrics r)) /\
    int_between 0 100 (CombinedMetrics.truthScore (combinedMetrics r)) /\
    int_between 0 100 (CombinedMetrics.confidence (combinedMetrics r)) /\
    CombinedMetrics.newsReliability (combinedMetrics r) = News.confidence nr /\
    exists z : Z,
      CombinedMetrics.newsReliability (combinedMetrics r) = of_Z z /\ (0 <= z)%Z.
Proof.
  intros svc content r tr fr mr nr c i j k f m fa
         Hr Ht Hc Hm Hn Hhd Hcr Hi Hf Hj Hmi Hk Hfa Bf Bm Bfa Mc Mt Mk.
  destruct (credibility_sum_moderate Bf Bm Bfa) as [x Hx].
  destruct (truth_sum_moderate Bf Bfa) as [y Hy].
  destruct (checkContent_completed _ _ Hr)
    as (tr' & fr' & mr' & nr' & Ht' & Hc' & Hm' & Hn' & ->).
  rewrite Ht in Ht'. injection Ht' as <-.
  rewrite Hc in Hc'. injection Hc' as <-.
  rewrite Hm in Hm'. injection Hm' as <-.
  rewrite Hn in Hn'. injection Hn' as <-.
  unfold build_report.
  cbn [combinedMetrics CombinedMetrics.credibilityScore CombinedMetrics.truthScore
       CombinedMetrics.confidence CombinedMetrics.newsReliability
       CredibilityMetrics.credibilityScore CredibilityMetrics.truthScore
       ContentAnalysis.confidence].
  rewrite (score_at_found _ _ _ Hi Hf), (score_at_found _ _ _ Hj Hmi),
          (score_at_found _ _ _ Hk Hfa).
  rewrite (@local_credibility_value _ _ _ _ Hx), (@local_truth_value _ _ _ Hy),
          !shift_and_clamp_of_Z.
  rewrite Hhd. cbn [of_option].
  destruct (percent_range Hcr) as [p [-> Hp]].
  repeat split.
  - apply combineScores_range; [lia | assumption].
  - apply combineScores_range; [lia | assumption].
  - now apply average_range.
  - now apply verifier_confidence_nonneg with (newsApi svc) content.
Qed.

Lemma C1_witness :
  exists r : Report,
    checkContent scenario_services scenario_text = Completed r /\
    int_between 0 100 (CombinedMetrics.credibilityScore (combinedMetrics r)) /\
    int_between 0 100 (CombinedMetrics.truthScore (combinedMetrics r)) /\
    int_between 0 100 (CombinedMetrics.confidence (combinedMetrics r)) /\
    CombinedMetrics.newsReliability (combinedMetrics r) = of_Z 0 /\
    exists z : Z,
      CombinedMetrics.newsReliability (combinedMetrics r) = of_Z z /\ (0 <= z)%Z.
Proof.
  eexists. split; [reflexivity|].
  apply (@C1_combined_metrics_in_range_on_bounded_answers
           scenario_services scenario_text _
           (Classifier.MkResponse
              ["news article"; "blog post"; "opinion piece"; "social media post";
               "advertisement"]
              [(9 # 10)%Q; (4 # 100)%Q; (3 # 100)%Q; (2 # 100)%Q; (1 # 100)%Q])
           (Classifier.MkResponse factuality_labels
              [(7 # 10)%Q; (1 # 10)%Q; (5 # 100)%Q; (1 # 10)%Q; (5 # 100)%Q])
           (MkMistral (of_Z 80) (of_Z 75) (of_Z 90))
           (News.degraded None)
           (9 # 10)%Q 0 1 2 (7 # 10)%Q (1 # 10)%Q (5 # 100)%Q);
    try reflexivity.
  - split; discriminate.
  - unfold moderate. split; vm_compute; discriminate.
  - unfold moderate. split; vm_compute; discriminate.
  - unfold moderate. split; vm_compute; discriminate.
  - exists 80%Q. split; [reflexivity | split; discriminate].
  - exists 75%Q. split; [reflexivity | split; discriminate].
  - exists 90%Q. split; [reflexivity | split; discriminate].
Defined.

(** C1, as the design document words it, fails. An assessor answering 200
    for credibility drives the combined credibility score of a completed
    submission to 140; with every answer in range, a text that repeats a
    word of the matched title gets a news reliability of 150; a
    factuality answer without the label "misleading" gives a combined
    credibility score that is NaN; and so do factuality scores of 1e307,
    whose products overflow to Infinity - Infinity. *)
Lemma C1_counterexample :
  (exists r : Report,
      checkContent overrating_services scenario_text = Completed r /\
      CombinedMetrics.credibilityScore (combinedMetrics r) = of_Z 140 /\
      ~ combined_in_range r) /\
  (exists r : Report,
      checkContent matching_services "breaking breaking news" = Completed r /\
      CombinedMetrics.newsReliability (combinedMetrics r) = of_Z 150 /\
      ~ combined_in_range r) /\
  (exists r : Report,
      checkContent unlabelled_services scenario_text = Completed r /\
      CombinedMetrics.credibilityScore (combinedMetrics r) = NaN /\
      ~ combined_in_range r) /\
  (exists r : Report,
      checkContent overflowing_services scenario_text = Completed r /\
      credibility_sum (inject_Z (10 ^ 307)) (inject_Z (10 ^ 307)) 0 = NaN /\
      CombinedMetrics.credibilityScore (combinedMetrics r) = NaN /\
      ~ combined_in_range r).
Proof.
  split; [|split; [|split]].
  - eexists. split; [reflexivity|]. split; [vm_compute; reflexivity|].
    intros [[z [Hz Hr]] _].
    vm_compute in Hz. injection Hz as Hz. lia.
  - eexists. split; [reflexivity|]. split; [vm_compute; reflexivity|].
    intros (_ & _ & _ & [z [Hz Hr]]).
    vm_compute in Hz. injection Hz as Hz. lia.
  - eexists. split; [reflexivity|]. split; [vm_compute; reflexivity|].
    intros [[z [Hz Hr]] _].
    vm_compute in Hz. discriminate.
  - eexists. split; [vm_compute; reflexivity|]. split; [vm_compute; reflexivity|].
    split; [vm_compute; reflexivity|].
    intros [[z [Hz Hr]] _].
    vm_compute in Hz. discriminate.
Qed.
(* ================================================================== *)
(** * A missing factuality label *)

Lemma add_NaN_r (a : num) : (a + NaN)%num = NaN.
Proof. now destruct a. Qed.

Lemma sub_NaN_r (a : num) : (a - NaN)%num = NaN.
Proof. unfold sub. simpl. apply add_NaN_r. Qed.

Lemma fmul_NaN_l (b : num) : fmul NaN b = NaN.
Proof. reflexivity. Qed.

Lemma fsub_NaN_l (b : num) : fsub NaN b = NaN.
Proof. reflexivity. Qed.

Lemma fsub_NaN_r (a : num) : fsub a NaN = NaN.
Proof. unfold fsub. cbn [fl]. now rewrite sub_NaN_r. Qed.

Lemma local_credibility_NaN (f m fa : num) :
  f = NaN \/ m = NaN \/ fa = NaN -> local_credibility f m fa = NaN.
Proof.
  unfold local_credibility. intros [-> | [-> | ->]].
  - reflexivity.
  - now rewrite fmul_NaN_l, fsub_NaN_r, fsub_NaN_l.
  - now rewrite fmul_NaN_l, fsub_NaN_r.
Qed.

Lemma local_truth_NaN (f fa : num) :
  f = NaN \/ fa = NaN -> local_truth f fa = NaN.
Proof.
  unfold local_truth. intros [-> | ->].
  - reflexivity.
  - now rewrite fmul_NaN_l, fsub_NaN_r.
Qed.

Lemma score_at_missing (labels : list string) (scores : list Q) (l : string) :
  indexOf labels l = None -> score_at scores (indexOf labels l) = NaN.
Proof. now intros ->. Qed.

(** C3, as the code has it. A factuality answer that lacks an expected
    label raises no error: the submission completes with a report, in
    which every score computed from the missing label is NaN. The local
    and the combined credibility score are NaN when factual, misleading
    or false is missing, the local and the combined truth score when
    factual or false is missing, and the opinion score of the details
    when opinion is missing. *)

(** C3, as the code has it. A factuality answer that lacks an expected
    label raises no error: the submission completes with a report, in
    which every score computed from the missing label is NaN. The local
    and the combined credibility score are NaN when factual, misleading
    or false is missing, the local and the combined truth score when
    factual or false is missing, and the opinion score of the details
    when opinion is missing. *)
Theorem C3_missing_label_completes_with_NaN :
  forall (svc : Services) (content : string)
         (tr fr : Classifier.Response) (mr : MistralResult),
    content <> EmptyString ->
    classifyType svc content = Normal tr ->
    classifyFactuality svc content = Normal fr ->
    analyzeMistral svc content = Normal mr ->
    exists r : Report,
      checkContent svc content = Completed r /\
      (indexOf (Classifier.labels fr) "factual" = None \/
       indexOf (Classifier.labels fr) "misleading" = None \/
       indexOf (Classifier.labels fr) "false" = None ->
       CredibilityMetrics.credibilityScore (credibilityMetrics r) = NaN /\
       CombinedMetrics.credibilityScore (combinedMetrics r) = NaN) /\
      (indexOf (Classifier.labels fr) "factual" = None \/
       indexOf (Classifier.labels fr) "false" = None ->
       CredibilityMetrics.truthScore (credibilityMetrics r) = NaN /\
       CombinedMetrics.truthScore (combinedMetrics r) = NaN) /\
      (indexOf (Classifier.labels fr) "opinion" = None ->
       Details.opinionScore (VerificationResult.details (verificationResult r)) = NaN).
Proof.
  intros svc content tr fr mr Hne Ht Hc Hm.
  destruct (checkContent_success _ Hne Ht Hc Hm) as [nr [_ Hr]].
  eexists. split; [exact Hr|].
  unfold build_report.
  cbn [credibilityMetrics combinedMetrics verificationResult
       CredibilityMetrics.credibilityScore CredibilityMetrics.truthScore
       CombinedMetrics.credibilityScore CombinedMetrics.truthScore
       VerificationResult.details Details.opinionScore].
  split; [|split].
  - intros H. rewrite local_credibility_NaN; [split; reflexivity|].
    destruct H as [H | [H | H]]; rewrite (score_at_missing _ _ _ H); tauto.
  - intros H. rewrite local_truth_NaN; [split; reflexivity|].
    destruct H as [H | H]; rewrite (score_at_missing _ _ _ H); tauto.
  - intros H. now rewrite (score_at_missing _ _ _ H).
Qed.

Lemma C3_witness :
  exists r : Report,
    checkContent unlabelled_services scenario_text = Completed r /\
    CredibilityMetrics.credibilityScore (credibilityMetrics r) = NaN /\
    CombinedMetrics.credibilityScore (combinedMetrics r) = NaN.
Proof.
  destruct (@C3_missing_label_completes_with_NaN
              unlabelled_services scenario_text
              (Classifier.MkResponse
                 ["news article"; "blog post"; "opinion piece"; "social media post";
                  "advertisement"]
                 [(9 # 10)%Q; (4 # 100)%Q; (3 # 100)%Q; (2 # 100)%Q; (1 # 100)%Q])
              (Classifier.MkResponse
                 ["factual"; "false"; "opinion"; "unverified"]
                 [(7 # 10)%Q; (1 # 10)%Q; (1 # 10)%Q; (1 # 10)%Q])
              (MkMistral (of_Z 80) (of_Z 75) (of_Z 90)))
    as (r & Hr & Hc & _); [discriminate | reflexivity | reflexivity | reflexivity |].
  exists r. split; [exact Hr|]. apply Hc. right. left. reflexivity.
Defined.

(** C3, as the design document words it, fails: with the label
    "misleading" missing from the factuality answer the submission is
    answered with a report, whose credibility scores are NaN. *)
Lemma C3_counterexample :
  indexOf ["factual"; "false"; "opinion"; "unverified"] "misleading" = None /\
  exists r : Report,
    checkContent unlabelled_services scenario_text = Completed r /\
    CredibilityMetrics.credibilityScore (credibilityMetrics r) = NaN /\
    CombinedMetrics.credibilityScore (combinedMetrics r) = NaN /\
    CredibilityMetrics.truthScore (credibilityMetrics r) = of_Z 100.
Proof.
  split; [reflexivity|].
  eexists. split; [reflexivity|]. repeat split; vm_compute; reflexivity.
Qed.

(* ================================================================== *)
(** * The resilient caller *)

(** An attempt that succeeds ends the loop with its response. *)
Lemma retry_loop_success (A : Type) (apiCall : nat -> completion A)
    (remaining i : nat) (lastError : string) (response : A) :
  apiCall i = Normal response ->
  retry_loop apiCall i (S remaining) lastError = Normal response.
Proof. intros H. simpl. now rewrite H. Qed.

(** When every attempt throws, the error of the last one is thrown. *)
Lemma retry_loop_exhausted (A : Type) (apiCall : nat -> completion A)
    (messages : nat -> string) :
  (forall i, apiCall i = Throw (messages i)) ->
  forall remaining i lastError,
    retry_loop apiCall i (S remaining) lastError = Throw (messages (i + remaining)).
Proof.
  intros H. induction remaining as [|n IH]; intros i lastError.
  - simpl. rewrite H. now rewrite Nat.add_0_r.
  - change (retry_loop apiCall i (S (S n)) lastError)
      with (match apiCall i with
            | Normal response => Normal response
            | Throw message => retry_loop apiCall (S i) (S n) message
            end).
    rewrite H, IH. f_equal. f_equal. lia.
Qed.

(** A response of [retryWithTimeout] is that of its first attempt not to
    throw. *)
Lemma retryWithTimeout_response (A : Type) (apiCall : nat -> completion A)
    (maxRetries : nat) (response : A) :
  retryWithTimeout apiCall maxRetries = Normal response ->
  exists i, i < maxRetries /\ apiCall i = Normal response /\
            forall j, j < i -> exists message, apiCall j = Throw message.
Proof.
  unfold retryWithTimeout.
  assert (G : forall remaining i lastError,
             retry_loop apiCall i remaining lastError = Normal response ->
             exists k, i <= k < i + remaining /\ apiCall k = Normal response /\
                       forall j, i <= j < k -> exists message, apiCall j = Throw message).
  { induction remaining as [|n IH]; intros i lastError; simpl; [discriminate|].
    destruct (apiCall i) as [a|e] eqn:E.
    - intros H. injection H as ->. exists i.
      split; [lia|]. split; [assumption|]. intros j Hj. lia.
    - intros H. destruct (IH _ _ H) as (k & Hk & Hr & Hb).
      exists k. split; [lia|]. split; [assumption|].
      intros j Hj. destruct (Nat.eq_dec j i) as [->|Hne]; [now exists e|].
      apply Hb. lia. }
  intros H. destruct (G _ _ _ H) as (k & Hk & Hr & Hb).
  exists k. split; [lia|]. split; [assumption|].
  intros j Hj. apply Hb. lia.
Qed.

(* ================================================================== *)
(** * More on the resilient caller *)

Lemma retry_loop_first_success (A : Type) (apiCall : nat -> completion A)
    (response : A) :
  forall remaining i k lastError,
    i <= k -> k < i + remaining ->
    apiCall k = Normal response ->
    (forall j, i <= j < k -> exists message, apiCall j = Throw message) ->
    retry_loop apiCall i remaining lastError = Normal response.
Proof.
  induction remaining as [|n IH]; intros i k lastError Hik Hk Hr Hb; [lia|].
  simpl. destruct (Nat.eq_dec i k) as [->|Hne].
  - now rewrite Hr.
  - destruct (Hb i) as [e He]; [lia|]. rewrite He.
    apply IH with k; try lia; [assumption|].
    intros j Hj. apply Hb. lia.
Qed.

(** X1. [retryWithTimeout] returns a response exactly when one of the
    first [maxRetries] attempts answers, and the response is that of the
    first attempt that does not throw. *)
Theorem retryWithTimeout_returns_first_answer :
  forall (A : Type) (apiCall : nat -> completion A) (maxRetries : nat)
         (response : A),
    retryWithTimeout apiCall maxRetries = Normal response <->
    exists i, i < maxRetries /\ apiCall i = Normal response /\
              forall j, j < i -> exists message, apiCall j = Throw message.
Proof.
  intros A apiCall maxRetries response. split.
  - apply retryWithTimeout_response.
  - intros (i & Hi & Hr & Hb). unfold retryWithTimeout.
    apply retry_loop_first_success with i; try lia; [assumption|].
    intros j Hj. apply Hb. lia.
Qed.

Lemma X1_witness :
  retryWithTimeout (answers_at 2 7%Z) 3 = Normal 7%Z /\
  exists i, i < 3 /\ answers_at 2 7%Z i = Normal 7%Z /\
            forall j, j < i -> exists message, answers_at 2 7%Z j = Throw message.
Proof.
  split; [reflexivity|].
  apply (proj1 (@retryWithTimeout_returns_first_answer Z (answers_at 2 7%Z) 3 7%Z)).
  reflexivity.
Defined.

(** X2. When each of the [maxRetries] attempts throws, [retryWithTimeout]
    throws the error of the last attempt; the earlier errors are dropped. *)
Theorem retryWithTimeout_throws_last_error :
  forall (A : Type) (apiCall : nat -> completion A) (messages : nat -> string)
         (n : nat),
    (forall i, i <= n -> apiCall i = Throw (messages i)) ->
    retryWithTimeout apiCall (S n) = Throw (messages n).
Proof.
  intros A apiCall messages n H. unfold retryWithTimeout.
  assert (G : forall remaining i lastError,
             i + remaining = n ->
             retry_loop apiCall i (S remaining) lastError = Throw (messages n)).
  { induction remaining as [|r IH]; intros i lastError Hn.
    - simpl. rewrite H by lia. f_equal. f_equal. lia.
    - change (retry_loop apiCall i (S (S r)) lastError)
        with (match apiCall i with
              | Normal response => Normal response
              | Throw message => retry_loop apiCall (S i) (S r) message
              end).
      rewrite H by lia. apply IH. lia. }
  apply G. reflexivity.
Qed.

Lemma X2_witness :
  retryWithTimeout
    (fun i => @Throw Z (if i =? 2 then "Network Error" else "timeout")) 3
  = Throw "Network Error".
Proof.
  apply (@retryWithTimeout_throws_last_error Z
           (fun i => Throw (if i =? 2 then "Network Error" else "timeout"))
           (fun i => if i =? 2 then "Network Error" else "timeout") 2).
  intros i _. reflexivity.
Defined.

(** X3. [retryWithTimeout] makes at most [maxRetries] attempts: what the
    later attempts would settle to has no influence on its outcome. *)
Theorem retryWithTimeout_attempts_bounded :
  forall (A : Type) (apiCall apiCall' : nat -> completion A) (maxRetries : nat),
    (forall i, i < maxRetries -> apiCall i = apiCall' i) ->
    retryWithTimeout apiCall maxRetries = retryWithTimeout apiCall' maxRetries.
Proof.
  intros A apiCall apiCall' maxRetries H. unfold retryWithTimeout.
  assert (G : forall remaining i lastError,
             i + remaining <= maxRetries ->
             retry_loop apiCall i remaining lastError =
             retry_loop apiCall' i remaining lastError).
  { induction remaining as [|r IH]; intros i lastError Hn; [reflexivity|].
    simpl. rewrite <- H by lia. destruct (apiCall i); [reflexivity|].
    apply IH. lia. }
  apply G. lia.
Qed.

Lemma X3_witness :
  retryWithTimeout (answers_at 5 1%Z) 3 =
  retryWithTimeout (fun _ => Throw "timeout of 30000ms exceeded") 3.
Proof.
  apply (@retryWithTimeout_attempts_bounded Z (answers_at 5 1%Z)
           (fun _ => Throw "timeout of 30000ms exceeded") 3).
  intros i Hi. unfold answers_at.
  destruct (Nat.eqb_spec i 5) as [E|E]; [lia | reflexivity].
Defined.

(** X4. The delay between attempts starts at one second, never decreases
    from one attempt to the next and never exceeds five seconds, which it
    reaches from the fourth attempt on. *)
Theorem backoff_delay_capped :
  backoff_delay 0 = 1000 /\
  forall i : nat,
    backoff_delay i <= backoff_delay (S i) /\
    backoff_delay i <= 5000 /\
    (3 <= i -> backoff_delay i = 5000).
Proof.
  split; [reflexivity|]. intros i. unfold backoff_delay.
  assert (Hpow : 2 ^ i <= 2 ^ S i) by (apply Nat.pow_le_mono_r; lia).
  split; [|split].
  - apply Nat.min_le_compat_r. apply Nat.mul_le_mono_l. exact Hpow.
  - apply Nat.le_min_r.
  - intros Hi. apply Nat.min_r.
    assert (H8 : 2 ^ 3 <= 2 ^ i) by (apply Nat.pow_le_mono_r; lia).
    change (2 ^ 3) with 8 in H8. lia.
Qed.

Lemma X4_witness : backoff_delay 3 = 5000.
Proof.
  apply (proj2 (proj2 (proj2 backoff_delay_capped 3))). lia.
Defined.

(* ================================================================== *)
(** * The reliability label grows with the score *)

Lemma ge_of_le (x y : num) (t : Z) :
  le x y = true -> ge x (of_Z t) = true -> ge y (of_Z t) = true.
Proof.
  unfold ge, of_Z.
  destruct x as [a| | |], y as [b| | |]; simpl; try discriminate; try reflexivity.
  intros Hab Hta. apply Qle_bool_iff in Hab. apply Qle_bool_iff in Hta.
  apply Qle_bool_iff. now apply Qle_trans with a.
Qed.

(** X5. [getReliabilityLevel] is monotone: a score that is at least
    another one gets a label that is at least as good. *)
Theorem getReliabilityLevel_monotone :
  forall x y : num,
    le x y = true ->
    label_rank (getReliabilityLevel x) <= label_rank (getReliabilityLevel y).
Proof.
  intros x y Hxy.
  assert (H : forall t, ge x (of_Z t) = true -> ge y (of_Z t) = true)
    by (intros t; now apply ge_of_le).
  unfold getReliabilityLevel.
  destruct (ge x (of_Z 80)) eqn:X80.
  { rewrite (H _ X80). apply Nat.le_refl. }
  destruct (ge x (of_Z 60)) eqn:X60.
  { rewrite (H _ X60). destruct (ge y (of_Z 80)); vm_compute; lia. }
  destruct (ge x (of_Z 40)) eqn:X40.
  { rewrite (H _ X40).
    destruct (ge y (of_Z 80)); [vm_compute; lia|].
    destruct (ge y (of_Z 60)); vm_compute; lia. }
  destruct (ge x (of_Z 20)) eqn:X20.
  { rewrite (H _ X20).
    destruct (ge y (of_Z 80)); [vm_compute; lia|].
    destruct (ge y (of_Z 60)); [vm_compute; lia|].
    destruct (ge y (of_Z 40)); vm_compute; lia. }
  change (label_rank "unreliable") with 0. lia.
Qed.

Lemma X5_witness :
  label_rank (getReliabilityLevel (of_Z (-150))) <=
  label_rank (getReliabilityLevel (Fin (123 # 2))).
Proof.
  apply (getReliabilityLevel_monotone (of_Z (-150)) (Fin (123 # 2))).
  reflexivity.
Defined.

(* ================================================================== *)
(** * The source list *)

Section SortByConfidence.

Lemma insert_sorted_perm (A : Type) (cmp : A -> A -> Z) (x : A) (l : list A) :
  Permutation (insert_sorted cmp x l) (x :: l).
Proof.
  induction l as [|y tl IH]; simpl; [apply Permutation_refl|].
  destruct (cmp x y <=? 0)%Z; [apply Permutation_refl|].
  apply Permutation_trans with (y :: x :: tl);
    [now apply perm_skip | apply perm_swap].
Qed.

Lemma sort_perm (A : Type) (cmp : A -> A -> Z) (l : list A) :
  Permutation (sort cmp l) l.
Proof.
  induction l as [|x tl IH]; simpl; [apply Permutation_refl|].
  apply Permutation_trans with (x :: sort cmp tl);
    [apply insert_sorted_perm | now apply perm_skip].
Qed.

Lemma insert_sorted_by_confidence (x : Source) (l : list Source) :
  StronglySorted at_least_as_confident l ->
  StronglySorted at_least_as_confident (insert_sorted by_confidence x l).
Proof.
  induction l as [|y tl IH]; intros Hs; simpl.
  - constructor; constructor.
  - inversion Hs as [|? ? Htl Hy]; subst.
    destruct (by_confidence x y <=? 0)%Z eqn:E.
    + apply Z.leb_le in E. unfold by_confidence in E.
      constructor; [assumption|]. constructor.
      * unfold at_least_as_confident. lia.
      * eapply Forall_impl; [|exact Hy].
        unfold at_least_as_confident. intros z Hz. lia.
    + apply Z.leb_gt in E. unfold by_confidence in E.
      constructor; [now apply IH|].
      apply Permutation_Forall with (x :: tl);
        [apply Permutation_sym, insert_sorted_perm|].
      constructor; [unfold at_least_as_confident; lia | assumption].
Qed.

Lemma sort_by_confidence_sorted (l : list Source) :
  StronglySorted at_least_as_confident (sort by_confidence l).
Proof.
  induction l as [|x tl IH]; simpl; [constructor|].
  now apply insert_sorted_by_confidence.
Qed.

(** An entry is inserted behind entries of a strictly higher confidence
    only, so the entries of its own confidence keep their order. *)
Lemma insert_sorted_stable (c : Confidence) (x : Source) (l : list Source) :
  filter (same_confidence c) (insert_sorted by_confidence x l) =
  filter (same_confidence c) (x :: l).
Proof.
  induction l as [|y tl IH]; [reflexivity|].
  simpl insert_sorted.
  destruct (by_confidence x y <=? 0)%Z eqn:E; [reflexivity|].
  apply Z.leb_gt in E. unfold by_confidence in E.
  change (filter (same_confidence c) (y :: insert_sorted by_confidence x tl))
    with (if same_confidence c y
          then y :: filter (same_confidence c) (insert_sorted by_confidence x tl)
          else filter (same_confidence c) (insert_sorted by_confidence x tl)).
  rewrite IH. simpl. unfold same_confidence.
  destruct (Z.eqb_spec (confidenceOrder (confidence x)) (confidenceOrder c));
    destruct (Z.eqb_spec (confidenceOrder (confidence y)) (confidenceOrder c));
    try reflexivity.
  lia.
Qed.

Lemma sort_by_confidence_stable (c : Confidence) (l : list Source) :
  filter (same_confidence c) (sort by_confidence l) = filter (same_confidence c) l.
Proof.
  induction l as [|x tl IH]; [reflexivity|].
  simpl sort. rewrite insert_sorted_stable. simpl. now rewrite IH.
Qed.

End SortByConfidence.

(** X6. The sources [extractNewsSource] returns are ordered by confidence:
    no entry is listed after one of a lower confidence. *)
Theorem extractNewsSource_sorted_by_confidence :
  forall content : string,
    StronglySorted at_least_as_confident (extractNewsSource content).
Proof. intros content. apply sort_by_confidence_sorted. Qed.

(** X7. The sort loses and adds no source, and it is stable: the sources
    of one confidence come out in the order the patterns found them. *)
Theorem extractNewsSource_keeps_found_order :
  forall (content : string) (c : Confidence),
    Permutation (extractNewsSource content) (found_sources content) /\
    filter (same_confidence c) (extractNewsSource content) =
    filter (same_confidence c) (found_sources content).
Proof.
  intros content c. split.
  - apply sort_perm.
  - apply sort_by_confidence_stable.
Qed.

Section SourceLoop.

Lemma drop_while_head (p : ascii -> bool) (cs : chars) (c : ascii) (tl : chars) :
  drop_while p cs = c :: tl -> p c = false.
Proof.
  induction cs as [|d cs' IH]; simpl; [discriminate|].
  destruct (p d) eqn:E; [exact IH|].
  intros H. injection H as <- _. exact E.
Qed.

Lemma drop_while_suffix (p : ascii -> bool) (cs : chars) :
  exists pre : chars, cs = (pre ++ drop_while p cs)%list.
Proof.
  induction cs as [|d cs' [pre IH]]; simpl.
  - now exists [].
  - destruct (p d).
    + exists (d :: pre). simpl. now f_equal.
    + now exists [].
Qed.

Lemma trim_first (cs : chars) (c : ascii) (tl : chars) :
  trim cs = c :: tl -> is_space c = false.
Proof.
  unfold trim. intros H.
  destruct (drop_while_suffix is_space (rev (drop_while is_space cs))) as [pre Hpre].
  assert (Hb : drop_while is_space (rev (drop_while is_space cs)) = (rev tl ++ [c])%list).
  { rewrite <- (rev_involutive (drop_while is_space (rev (drop_while is_space cs)))).
    rewrite H. reflexivity. }
  rewrite Hb in Hpre.
  assert (Ha : drop_while is_space cs = c :: (tl ++ rev pre)%list).
  { rewrite <- (rev_involutive (drop_while is_space cs)). rewrite Hpre.
    rewrite !rev_app_distr. simpl. now rewrite rev_involutive. }
  exact (@drop_while_head _ _ _ _ Ha).
Qed.

Lemma trim_last (cs : chars) (c : ascii) (front : chars) :
  trim cs = (front ++ [c])%list -> is_space c = false.
Proof.
  unfold trim. intros H.
  assert (Hb : drop_while is_space (rev (drop_while is_space cs)) = c :: rev front).
  { rewrite <- (rev_involutive (drop_while is_space (rev (drop_while is_space cs)))).
    rewrite H. now rewrite rev_app_distr. }
  exact (@drop_while_head _ _ _ _ Hb).
Qed.

Lemma add_match_invariant (t : SourceType) (acc : list Source * list chars)
    (mt : jsmatch) :
  loop_invariant acc -> loop_invariant (add_match t acc mt).
Proof.
  intros (Hseen & Hnd & Hwf). unfold add_match.
  destruct (clean_source (raw_source t mt)) as [|c cs] eqn:E; [now repeat split|].
  destruct (includes (snd acc) (toLowerCase (c :: cs))) eqn:I; [now repeat split|].
  assert (Hname : of_string (to_string (c :: cs)) = c :: cs)
    by apply list_ascii_of_string_of_list_ascii.
  split; [|split]; cbn [fst snd].
  - rewrite map_app, rev_app_distr. cbn [map rev app].
    unfold lowered_name at 1. cbn [name]. rewrite Hname. now f_equal.
  - constructor; [|assumption].
    intro Hin. apply includes_In in Hin. congruence.
  - apply Forall_app. split; [assumption|]. constructor; [|constructor].
    unfold well_formed_source. cbn [name type confidence]. rewrite Hname.
    repeat split.
    + discriminate.
    + intros d tl Hd. unfold clean_source in E. rewrite <- E in Hd.
      exact (@trim_first _ _ _ Hd).
    + intros d front Hd. unfold clean_source in E. rewrite <- E in Hd.
      exact (@trim_last _ _ _ Hd).
Qed.

Lemma add_pattern_invariant (content : chars) (acc : list Source * list chars)
    (p : regex * SourceType) :
  loop_invariant acc -> loop_invariant (add_pattern content acc p).
Proof.
  unfold add_pattern. generalize (match_all true (fst p) content) as ms.
  intros ms. revert acc. induction ms as [|mt ms IH]; intros acc H; [exact H|].
  simpl. apply IH. now apply add_match_invariant.
Qed.

Lemma found_sources_invariant (content : string) :
  exists seen : list chars,
    loop_invariant (found_sources content, seen).
Proof.
  unfold found_sources.
  assert (G : forall ps acc, loop_invariant acc ->
                loop_invariant (fold_left (add_pattern (of_string content)) ps acc)).
  { induction ps as [|p ps IH]; intros acc H; [exact H|].
    simpl. apply IH. now apply add_pattern_invariant. }
  specialize (G sourcePatterns ([], [])).
  destruct (fold_left (add_pattern (of_string content)) sourcePatterns ([], []))
    as [srcs seen].
  exists seen. apply G. repeat split; constructor.
Qed.

End SourceLoop.

(** X8. No two sources returned by [extractNewsSource] have the same name
    up to letter case. *)
Theorem extractNewsSource_names_distinct :
  forall content : string,
    NoDup (map lowered_name (extractNewsSource content)).
Proof.
  intros content.
  destruct (found_sources_invariant content) as [seen (Hseen & Hnd & _)].
  cbn [fst snd] in Hseen, Hnd.
  apply Permutation_NoDup with (map lowered_name (found_sources content)).
  - apply Permutation_map, Permutation_sym, sort_perm.
  - rewrite Hseen in Hnd. apply NoDup_rev in Hnd. now rewrite rev_involutive in Hnd.
Qed.

(** X9. Every source returned by [extractNewsSource] has a name that is
    not empty and neither starts nor ends with white space, and the
    confidence its type fixes: High for a major news agency and an
    official source, Medium for a news website, Low otherwise. *)
Theorem extractNewsSource_well_formed :
  forall content : string,
    Forall well_formed_source (extractNewsSource content).
Proof.
  intros content.
  destruct (found_sources_invariant content) as [seen (_ & _ & Hwf)].
  cbn [fst] in Hwf.
  apply Permutation_Forall with (found_sources content);
    [apply Permutation_sym, sort_perm | exact Hwf].
Qed.

(* ================================================================== *)
(** * What the verifier adapter returns *)

Lemma map_throwing_length (A B : Type) (f : A -> completion B) (l : list A) :
  forall bs, map_throwing f l = Normal bs -> List.length bs = List.length l.
Proof.
  induction l as [|a tl IH]; intros bs; simpl.
  - intros H. now injection H as <-.
  - destruct (f a) as [b|e]; simpl; [|discriminate].
    destruct (map_throwing f tl) as [bs'|e]; simpl; [|discriminate].
    intros H. injection H as <-. simpl. f_equal. now apply IH.
Qed.

(** A result of the adapter is a degraded one, or is built from a
    response that holds at least one article. *)
Lemma verify_result_cases (api : string -> completion News.Response)
    (content : string) (r : News.Result) :
  News.verifyWithNewsAPI api content = Normal r ->
  (exists e, r = News.degraded e) \/
  (exists arts ms,
      arts <> [] /\
      map_throwing News.matched (firstn 3 arts) = Normal ms /\
      r = News.MkResult
            (gt (max_list (map (News.article_similarity content) arts)) (Fin (6 # 10)))
            (round (max_list (map (News.article_similarity content) arts) * of_Z 100)%num)
            ms None).
Proof.
  unfold News.verifyWithNewsAPI, try_catch, bind.
  destruct (api (News.keywords content)) as [response|message]; cbv beta iota;
    [|intros H; injection H as <-; left; eauto].
  destruct (String.eqb (News.status response) "ok"); cbv beta iota;
    [|intros H; injection H as <-; left; eauto].
  destruct (News.articles response) as [arts|]; cbv beta iota;
    [|intros H; injection H as <-; left; eauto].
  destruct (0 <? List.length arts) eqn:E; cbv beta iota;
    [|intros H; injection H as <-; left; eauto].
  destruct (map_throwing News.matched (firstn 3 arts)) as [ms|message] eqn:M;
    cbv beta iota; [|intros H; injection H as <-; left; eauto].
  intros H. injection H as <-. right. exists arts, ms.
  split; [destruct arts; [discriminate E | discriminate]|].
  split; [exact M | reflexivity].
Qed.

Lemma max_similarity_nonneg (content : string) (arts : list News.Article) :
  arts <> [] ->
  nonneg (max_list (map (News.article_similarity content) arts)).
Proof.
  intros H. apply max_list_nonneg.
  - apply Forall_forall. intros x Hx. apply in_map_iff in Hx.
    destruct Hx as [a [<- _]]. unfold News.article_similarity.
    apply max_nonneg; apply calculateSimilarity_nonneg.
  - destruct arts; [congruence | discriminate].
Qed.

(** X10. A result the adapter marks verified carries no error and lists
    between one and three matched articles; no result lists more than
    three. *)
Theorem verified_result_lists_articles :
  forall (api : string -> completion News.Response) (content : string)
         (r : News.Result),
    News.verifyWithNewsAPI api content = Normal r ->
    List.length (News.matchedArticles r) <= 3 /\
    (News.isVerified r = true ->
     News.error r = None /\ 1 <= List.length (News.matchedArticles r)).
Proof.
  intros api content r H.
  destruct (verify_result_cases _ _ H) as [[e ->] | (arts & ms & Hne & Hm & ->)].
  - split; [simpl; lia | discriminate].
  - cbn [News.matchedArticles News.isVerified News.error].
    rewrite (map_throwing_length _ _ Hm).
    split; [rewrite length_firstn; lia|].
    intros _. split; [reflexivity|].
    destruct arts as [|a [|b [|c tl]]]; simpl; try lia. congruence.
Qed.

Lemma X10_witness :
  exists r : News.Result,
    News.verifyWithNewsAPI (answering_api "breaking news") "breaking news" = Normal r /\
    List.length (News.matchedArticles r) <= 3 /\
    (News.isVerified r = true ->
     News.error r = None /\ 1 <= List.length (News.matchedArticles r)).
Proof.
  eexists. split; [vm_compute; reflexivity|].
  apply (@verified_result_lists_articles
           (answering_api "breaking news") "breaking news").
  vm_compute. reflexivity.
Defined.

(** X11. The verdict and the confidence of a result agree around the
    threshold: a verified result has a confidence of at least 60, and a
    result of confidence above 60 is verified. *)
Theorem verified_iff_confident :
  forall (api : string -> completion News.Response) (content : string)
         (r : News.Result),
    News.verifyWithNewsAPI api content = Normal r ->
    exists z : Z,
      News.confidence r = of_Z z /\
      (News.isVerified r = true -> (60 <= z)%Z) /\
      ((60 < z)%Z -> News.isVerified r = true).
Proof.
  intros api content r H.
  destruct (verify_result_cases _ _ H) as [[e ->] | (arts & ms & Hne & Hm & ->)].
  - exists 0%Z. split; [reflexivity|]. split; [discriminate | lia].
  - destruct (max_similarity_nonneg content Hne) as [q [Hq Hq0]].
    rewrite Hq. cbn [News.confidence News.isVerified].
    exists (round_Q (q * 100)%Q). split.
    + apply round_val. apply val_mul; apply val_Fin.
    + unfold gt, lt. split.
      * intros Hv. apply negb_true_iff in Hv.
        assert (Hlt : ((6 # 10) < q)%Q).
        { apply Qnot_le_lt. intro C. apply Qle_bool_iff in C. congruence. }
        assert (B : (60 <= round_Q (q * 100)%Q <= round_Q (q * 100)%Q)%Z).
        { split; [|lia]. unfold round_Q. rewrite <- (Qfloor_Z 60).
          apply Qfloor_resp_le. change (inject_Z 60) with 60%Q. lra. }
        lia.
      * intros Hz. apply negb_true_iff.
        destruct (Qle_bool q (6 # 10)) eqn:C; [|reflexivity].
        apply Qle_bool_iff in C. exfalso.
        assert (B : (round_Q (q * 100)%Q <= 60)%Z).
        { assert (R : (0 <= round_Q (q * 100)%Q <= 60)%Z).
          { apply round_Q_bounds. change (inject_Z 0) with 0%Q.
            change (inject_Z 60) with 60%Q. split; lra. }
          lia. }
        lia.
Qed.

Lemma X11_witness :
  exists (r : News.Result) (z : Z),
    News.verifyWithNewsAPI (answering_api "breaking news") "breaking news" = Normal r /\
    News.confidence r = of_Z z /\
    (News.isVerified r = true -> (60 <= z)%Z) /\
    ((60 < z)%Z -> News.isVerified r = true).
Proof.
  assert (Hr : News.verifyWithNewsAPI (answering_api "breaking news") "breaking news"
               = Normal (News.MkResult true (of_Z 100)
                           [News.Matched.Mk (Some "breaking news") (Some "Example Wire")
                              (Some "https://example.org/a")
                              (Some "2024-01-05T00:00:00Z")]
                           None))
    by (vm_compute; reflexivity).
  destruct (@verified_iff_confident _ _ _ Hr) as [z Hz].
  eexists. exists z. split; [exact Hr | exact Hz].
Defined.

Lemma In_firstn (A : Type) (n : nat) (l : list A) (x : A) :
  In x (firstn n l) -> In x l.
Proof.
  intros H. rewrite <- (firstn_skipn n l). apply in_or_app. now left.
Qed.

Lemma join_nil_iff (sep : chars) (xs : list chars) :
  Forall (fun x => x <> []) xs -> (join sep xs = [] <-> xs = []).
Proof.
  intros H. split; [|now intros ->].
  destruct xs as [|x tl]; [reflexivity|].
  inversion H as [|? ? Hx _]; subst.
  destruct x as [|c x']; [congruence|].
  destruct tl; discriminate.
Qed.

(** X12. The query sent to the search service is empty exactly when the
    text has no word longer than four characters; the adapter sends it
    all the same. *)
Theorem keywords_empty_iff_no_long_word :
  forall content : string,
    News.keywords content = EmptyString <-> long_words content = [].
Proof.
  intros content. unfold News.keywords. fold (long_words content).
  assert (Hne : Forall (fun x : chars => x <> []) (firstn 5 (long_words content))).
  { apply Forall_forall. intros x Hx. apply In_firstn in Hx.
    unfold long_words in Hx. apply filter_In in Hx. destruct Hx as [_ Hl].
    destruct x; [discriminate | discriminate]. }
  split.
  - intros H.
    assert (J : join (of_string " OR ") (firstn 5 (long_words content)) = []).
    { apply (f_equal list_ascii_of_string) in H. unfold to_string in H.
      rewrite list_ascii_of_string_of_list_ascii in H. exact H. }
    apply (join_nil_iff _ Hne) in J.
    destruct (long_words content); [reflexivity | discriminate].
  - intros ->. reflexivity.
Qed.

(* ================================================================== *)
(** * The answers of the orchestrator *)

Lemma analyzeMistral_is_call (svc : Services) (content : string) :
  analyzeMistral svc content = mistralApi svc content.
Proof. unfold analyzeMistral, try_catch. now destruct (mistralApi svc content). Qed.

(** X13. [checkContent] answers "Content is required" exactly on the
    empty text. A non-empty submission fails exactly when a classification
    (after its retries) or the assessor's call throws; the failure always
    asks to retry after 5. The verifier cannot make a submission fail. *)
Theorem checkContent_answers :
  forall (svc : Services) (content : string),
    (checkContent svc content = BadRequest "Content is required" <->
     content = EmptyString) /\
    ((exists message, checkContent svc content = AnalysisFailed message 5) <->
     content <> EmptyString /\
     exists message,
       classifyType svc content = Throw message \/
       classifyFactuality svc content = Throw message \/
       mistralApi svc content = Throw message) /\
    (forall message n, checkContent svc content = AnalysisFailed message n -> n = 5).
Proof.
  intros svc content.
  destruct (verify_never_throws (newsApi svc) content) as [nr Hn].
  unfold checkContent. rewrite analyzeMistral_is_call.
  destruct content as [|c tl].
  - split; [split; reflexivity|]. split.
    + split; [intros [m H]; discriminate | intros [H _]; congruence].
    + intros m n H. discriminate.
  - rewrite Hn.
    destruct (classifyType svc (String c tl)) as [tr|e1]; cbv beta iota delta [bind].
    2:{ split; [split; discriminate|]. split.
        - split; [intros _; split; [discriminate | eauto] | intros _; eauto].
        - intros m n H. now injection H. }
    destruct (classifyFactuality svc (String c tl)) as [fr|e2]; cbv beta iota delta [bind].
    2:{ split; [split; discriminate|]. split.
        - split; [intros _; split; [discriminate | eauto] | intros _; eauto].
        - intros m n H. now injection H. }
    destruct (mistralApi svc (String c tl)) as [mr|e3]; cbv beta iota delta [bind].
    2:{ split; [split; discriminate|]. split.
        - split; [intros _; split; [discriminate | eauto] | intros _; eauto].
        - intros m n H. now injection H. }
    split; [split; discriminate|]. split.
    + split; [intros [m H]; discriminate|].
      intros [_ [m [H | [H | H]]]]; discriminate.
    + intros m n H. discriminate.
Qed.

Lemma X13_witness :
  checkContent scenario_services EmptyString = BadRequest "Content is required" /\
  exists message,
    checkContent (fixed_services (Throw "Request failed with status code 503")
                                 mostly_factual (assessment 80 75 90) no_articles)
                 scenario_text = AnalysisFailed message 5.
Proof.
  split.
  - apply (proj2 (proj1 (checkContent_answers scenario_services EmptyString))).
    reflexivity.
  - apply (proj2 (proj1 (proj2 (checkContent_answers
             (fixed_services (Throw "Request failed with status code 503")
                             mostly_factual (assessment 80 75 90) no_articles)
             scenario_text)))).
    split; [discriminate|].
    exists "Request failed with status code 503". left. reflexivity.
Defined.

(** X14. Failures of the classifier that its retries overcome do not show:
    when each classification answers at one of its first three attempts
    and the assessor answers, a non-empty submission completes, with the
    report built from those answers. *)
Theorem checkContent_absorbs_transient_failures :
  forall (svc : Services) (content : string)
         (tr fr : Classifier.Response) (mr : MistralResult) (i j : nat),
    content <> EmptyString ->
    i < 3 -> classifierApi svc (type_request content) i = Normal tr ->
    (forall k, k < i ->
       exists message, classifierApi svc (type_request content) k = Throw message) ->
    j < 3 -> classifierApi svc (factuality_request content) j = Normal fr ->
    (forall k, k < j ->
       exists message, classifierApi svc (factuality_request content) k = Throw message) ->
    mistralApi svc content = Normal mr ->
    exists nr : News.Result,
      News.verifyWithNewsAPI (newsApi svc) content = Normal nr /\
      checkContent svc content = Completed (build_report content tr fr mr nr).
Proof.
  intros svc content tr fr mr i j Hne Hi Htr Hti Hj Hfr Hfj Hm.
  apply checkContent_success; [assumption| | |].
  - unfold classifyType. apply retryWithTimeout_returns_first_answer.
    exists i. now repeat split.
  - unfold classifyFactuality. apply retryWithTimeout_returns_first_answer.
    exists j. now repeat split.
  - now rewrite analyzeMistral_is_call.
Qed.

Lemma X14_witness :
  exists (nr : News.Result) (r : Report),
    News.verifyWithNewsAPI (newsApi flaky_services) scenario_text = Normal nr /\
    checkContent flaky_services scenario_text = Completed r.
Proof.
  assert (Early : forall request k, k < 2 ->
            exists message, classifierApi flaky_services request k = Throw message).
  { intros request k Hk. exists "timeout of 30000ms exceeded".
    destruct k as [|[|k]]; [reflexivity | reflexivity | lia]. }
  destruct (@checkContent_absorbs_transient_failures
              flaky_services scenario_text
              (Classifier.MkResponse
                 ["news article"; "blog post"; "opinion piece"; "social media post";
                  "advertisement"]
                 [(9 # 10)%Q; (4 # 100)%Q; (3 # 100)%Q; (2 # 100)%Q; (1 # 100)%Q])
              (Classifier.MkResponse factuality_labels
                 [(7 # 10)%Q; (1 # 10)%Q; (5 # 100)%Q; (1 # 10)%Q; (5 # 100)%Q])
              (MkMistral (of_Z 80) (of_Z 75) (of_Z 90)) 2 2)
    as [nr [Hn Hr]].
  - discriminate.
  - lia.
  - reflexivity.
  - apply Early.
  - lia.
  - reflexivity.
  - apply Early.
  - reflexivity.
  - exists nr. eexists. split; [exact Hn | exact Hr].
Defined.

(* ================================================================== *)
(** * Consistency of the report *)

Lemma distinct_spec (xs : list string) :
  forall seen,
    NoDup (distinct xs seen) /\
    forall t, In t (distinct xs seen) <-> In t xs /\ ~ In t seen.
Proof.
  induction xs as [|x tl IH]; intros seen; simpl.
  - split; [constructor | intros t; tauto].
  - destruct (existsb (String.eqb x) seen) eqn:E.
    + apply existsb_exists in E. destruct E as [y [Hy He]].
      apply String.eqb_eq in He. subst y.
      destruct (IH seen) as [Hnd Hin]. split; [assumption|].
      intros t. rewrite Hin. split; [tauto|].
      intros [[<- | Ht] Hs]; [contradiction | tauto].
    + assert (Hx : ~ In x seen).
      { intro Hx. assert (F : existsb (String.eqb x) seen = true).
        { apply existsb_exists. exists x. split; [assumption | apply String.eqb_refl]. }
        congruence. }
      destruct (IH (x :: seen)) as [Hnd Hin]. split.
      * constructor; [|assumption]. rewrite Hin. simpl. tauto.
      * intros t. simpl. rewrite Hin. simpl.
        destruct (string_dec x t) as [<-|Hne]; tauto.
Qed.

(** X15. The source analysis of a report is consistent: the count is the
    number of sources extracted from the text, the flag tells whether
    there is one, the primary source is the first of the list (none when
    the list is empty), of a confidence no other source exceeds, and the
    source types are the types of the sources, each listed once. *)
Theorem report_source_analysis_consistent :
  forall (svc : Services) (content : string) (r : Report),
    checkContent svc content = Completed r ->
    let sa := sourceAnalysis r in
    SourceAnalysis.sources sa = extractNewsSource content /\
    SourceAnalysis.sourceCount sa = List.length (SourceAnalysis.sources sa) /\
    (SourceAnalysis.hasIdentifiableSources sa = true <->
     SourceAnalysis.sources sa <> []) /\
    SourceAnalysis.primarySource sa = hd_error (SourceAnalysis.sources sa) /\
    (SourceAnalysis.primarySource sa = None <-> SourceAnalysis.sources sa = []) /\
    (forall p, SourceAnalysis.primarySource sa = Some p ->
               In p (SourceAnalysis.sources sa) /\
               forall s, In s (SourceAnalysis.sources sa) ->
                         at_least_as_confident p s) /\
    NoDup (SourceAnalysis.sourceTypes sa) /\
    (forall t, In t (SourceAnalysis.sourceTypes sa) <->
               exists s, In s (SourceAnalysis.sources sa) /\ type_name (type s) = t).
Proof.
  intros svc content r Hr.
  destruct (checkContent_completed _ _ Hr) as (tr & fr & mr & nr & _ & _ & _ & _ & ->).
  unfold build_report.
  cbn [sourceAnalysis SourceAnalysis.sources SourceAnalysis.sourceCount
       SourceAnalysis.hasIdentifiableSources SourceAnalysis.primarySource
       SourceAnalysis.sourceTypes].
  pose proof (extractNewsSource_sorted_by_confidence content) as Hs.
  destruct (extractNewsSource content) as [|p tl] eqn:E.
  - repeat split; try discriminate; try congruence; try constructor.
    + intros [].
    + intros [s [[] _]].
  - split; [reflexivity|]. split; [reflexivity|].
    split; [split; [discriminate | reflexivity]|].
    split; [reflexivity|].
    split; [split; discriminate|].
    split.
    { intros p' Hp. injection Hp as <-. split; [now left|].
      inversion Hs as [|? ? _ Hall]; subst.
      intros s [<- | Hin].
      - unfold at_least_as_confident. lia.
      - rewrite Forall_forall in Hall. now apply Hall. }
    destruct (distinct_spec (map (fun s => type_name (type s)) (p :: tl)) [])
      as [Hnd Hin].
    split; [exact Hnd|].
    intros t. rewrite Hin. rewrite in_map_iff. split.
    + intros [[s [Ht Hs']] _]. now exists s.
    + intros [s [Hs' Ht]]. split; [now exists s | intros []].
Qed.

Lemma X15_witness :
  exists r : Report,
    checkContent scenario_services reuters_text = Completed r /\
    SourceAnalysis.sourceCount (sourceAnalysis r) = 1 /\
    SourceAnalysis.sourceTypes (sourceAnalysis r) = ["Major News Agency"] /\
    SourceAnalysis.primarySource (sourceAnalysis r) =
      hd_error (SourceAnalysis.sources (sourceAnalysis r)).
Proof.
  eexists. split; [vm_compute; reflexivity|].
  split; [reflexivity|]. split; [reflexivity|].
  refine (proj1 (proj2 (proj2 (proj2
            (@report_source_analysis_consistent
               scenario_services reuters_text _ _))))).
  vm_compute. reflexivity.
Defined.

Lemma getReliabilityLevel_of_Z (u : Z) :
  getReliabilityLevel (of_Z u) =
  if (80 <=? u)%Z then "highly reliable"
  else if (60 <=? u)%Z then "reliable"
  else if (40 <=? u)%Z then "moderately reliable"
  else if (20 <=? u)%Z then "somewhat unreliable"
  else "unreliable".
Proof.
  unfold getReliabilityLevel, ge, of_Z, le. now rewrite !Qle_bool_inject_Z.
Qed.

(** X16. The label of a report is read off the local credibility score
    before its shift by 50, the score is reported after the shift and the
    clamp to [0,100]. So, when the labels factual, misleading and false are
    scored with numbers of a magnitude of at most 2^1000, the label is
    "unreliable" exactly when the reported local credibility is below 70,
    "somewhat unreliable" exactly from 70 to 89, and a reported score
    below 100 excludes "reliable" and "highly reliable". *)
Theorem report_label_against_reported_score :
  forall (svc : Services) (content : string) (r : Report)
         (fr : Classifier.Response) (i j k : nat) (f m fa : Q),
    checkContent svc content = Completed r ->
    classifyFactuality svc content = Normal fr ->
    indexOf (Classifier.labels fr) "factual" = Some i ->
    nth_error (Classifier.scores fr) i = Some f ->
    indexOf (Classifier.labels fr) "misleading" = Some j ->
    nth_error (Classifier.scores fr) j = Some m ->
    indexOf (Classifier.labels fr) "false" = Some k ->
    nth_error (Classifier.scores fr) k = Some fa ->
    moderate f -> moderate m -> moderate fa ->
    let label :=
      Reliability.label (CredibilityMetrics.reliability (credibilityMetrics r)) in
    exists u z : Z,
      label = getReliabilityLevel (of_Z u) /\
      CredibilityMetrics.credibilityScore (credibilityMetrics r) = of_Z z /\
      z = Z.max 0 (Z.min 100 (u + 50)) /\
      (label = "unreliable" <-> (z < 70)%Z) /\
      (label = "somewhat unreliable" <-> (70 <= z < 90)%Z) /\
      ((z < 100)%Z -> label <> "reliable" /\ label <> "highly reliable").
Proof.
  intros svc content r fr i j k f m fa Hr Hc Hi Hf Hj Hm Hk Hfa Bf Bm Bfa.
  destruct (credibility_sum_moderate Bf Bm Bfa) as [x Hx].
  destruct (checkContent_completed _ _ Hr)
    as (tr & fr' & mr & nr & _ & Hc' & _ & _ & ->).
  rewrite Hc in Hc'. injection Hc' as <-.
  unfold build_report.
  cbn [credibilityMetrics CredibilityMetrics.credibilityScore
       CredibilityMetrics.reliability Reliability.label].
  rewrite (score_at_found _ _ _ Hi Hf), (score_at_found _ _ _ Hj Hm),
          (score_at_found _ _ _ Hk Hfa).
  rewrite (@local_credibility_value _ _ _ _ Hx), shift_and_clamp_of_Z.
  cbv zeta. set (u := round_Q x).
  exists u, (Z.max 0 (Z.min 100 (u + 50))).
  split; [reflexivity|]. split; [reflexivity|]. split; [reflexivity|].
  rewrite getReliabilityLevel_of_Z.
  destruct (Z.leb_spec 80 u); [repeat split; try discriminate; try lia;
                               intros; lia |].
  destruct (Z.leb_spec 60 u); [repeat split; try discriminate; try lia;
                               intros; lia |].
  destruct (Z.leb_spec 40 u); [repeat split; try discriminate; try lia;
                               intros; lia |].
  destruct (Z.leb_spec 20 u); repeat split; try discriminate; try lia;
    try reflexivity; intros; lia.
Qed.

Lemma X16_witness :
  exists (r : Report) (u z : Z),
    checkContent scenario_services scenario_text = Completed r /\
    CredibilityMetrics.credibilityScore (credibilityMetrics r) = of_Z z /\
    z = Z.max 0 (Z.min 100 (u + 50)).
Proof.
  assert (Hr : exists r, checkContent scenario_services scenario_text = Completed r)
    by (eexists; vm_compute; reflexivity).
  destruct Hr as [r Hr].
  destruct (@report_label_against_reported_score
              scenario_services scenario_text r
              (Classifier.MkResponse factuality_labels
                 [(7 # 10)%Q; (1 # 10)%Q; (5 # 100)%Q; (1 # 10)%Q; (5 # 100)%Q])
              0 1 2 (7 # 10)%Q (1 # 10)%Q (5 # 100)%Q Hr)
    as (u & z & _ & Hz & Hs & _);
    [reflexivity | reflexivity | reflexivity | reflexivity | reflexivity
    | reflexivity | reflexivity
    | unfold moderate; split; vm_compute; discriminate
    | unfold moderate; split; vm_compute; discriminate
    | unfold moderate; split; vm_compute; discriminate |].
  exists r, u, z. now repeat split.
Defined.



(* ================================================================== *)
(** * Combining and adjusting scores *)

Lemma combines_exactly_on_percents :
  forallb (fun a => forallb (combines_exactly a) percents) percents = true.
Proof. vm_compute. reflexivity. Qed.

Lemma combines_exactly_spec (a b : Z) :
  combines_exactly a b = true ->
  combineScores (of_Z a) (of_Z b) = of_Z ((6 * a + 4 * b + 5) / 10).
Proof.
  unfold combines_exactly.
  destruct (combineScores (of_Z a) (of_Z b)) as [[n d]| | |]; try discriminate.
  intros H. apply andb_true_iff in H. destruct H as [Hn Hd].
  apply Z.eqb_eq in Hn. apply Pos.eqb_eq in Hd. simpl in Hn, Hd. now subst.
Qed.

Lemma In_percents (a : Z) : (0 <= a <= 100)%Z -> In a percents.
Proof.
  intros H. unfold percents. apply in_map_iff. exists (Z.to_nat a).
  split; [lia | apply in_seq; lia].
Qed.

Lemma half_up_division (n : Z) :
  nearest_integer (inject_Z n / 10) ((n + 5) / 10).
Proof.
  unfold nearest_integer.
  assert (D := Z.div_mod (n + 5) 10 ltac:(lia)).
  assert (R := Z.mod_pos_bound (n + 5) 10 ltac:(lia)).
  set (z := ((n + 5) / 10)%Z) in *. set (r := ((n + 5) mod 10)%Z) in *.
  assert (E : (n = 10 * z + r - 5)%Z) by lia.
  assert (EQ : (inject_Z n == 10 * inject_Z z + inject_Z r - 5)%Q).
  { rewrite E. unfold Z.sub. rewrite !inject_Z_plus, inject_Z_mult. reflexivity. }
  assert (R0 : (0 <= inject_Z r)%Q)
    by (change 0%Q with (inject_Z 0); rewrite <- Zle_Qle; lia).
  assert (R9 : (inject_Z r <= 9)%Q)
    by (change 9%Q with (inject_Z 9); rewrite <- Zle_Qle; lia).
  split.
  - apply Qle_shift_div_l; [reflexivity | lra].
  - apply Qlt_shift_div_r; [reflexivity | lra].
Qed.

(** X18. [combineScores] of two integer scores from 0 to 100 is the
    integer nearest to their weighted mean 0.6 a + 0.4 b: it lies between
    the lower and the higher of the two, and combining a score with
    itself returns it. The bound matters: in binary64 the combination of
    8484413554949631 with itself is one less. *)
Theorem combineScores_between :
  (forall a b : Z,
      (0 <= a <= 100)%Z -> (0 <= b <= 100)%Z ->
      exists z : Z,
        combineScores (of_Z a) (of_Z b) = of_Z z /\
        nearest_integer (inject_Z a * (6 # 10) + inject_Z b * (4 # 10)) z /\
        (Z.min a b <= z <= Z.max a b)%Z /\
        (a = b -> z = a)) /\
  combineScores (of_Z 8484413554949631) (of_Z 8484413554949631) =
  of_Z 8484413554949630.
Proof.
  split; [|vm_compute; reflexivity].
  intros a b Ha Hb.
  assert (C : combines_exactly a b = true).
  { assert (A := combines_exactly_on_percents).
    rewrite forallb_forall in A. specialize (A a (In_percents Ha)).
    rewrite forallb_forall in A. exact (A b (In_percents Hb)). }
  exists ((6 * a + 4 * b + 5) / 10)%Z.
  split; [now apply combines_exactly_spec|].
  assert (D := Z.div_mod (6 * a + 4 * b + 5) 10 ltac:(lia)).
  assert (R := Z.mod_pos_bound (6 * a + 4 * b + 5) 10 ltac:(lia)).
  split; [|split; [lia | intros ->; lia]].
  assert (N := half_up_division (6 * a + 4 * b)).
  unfold nearest_integer in *.
  assert (E : (inject_Z (6 * a + 4 * b) / 10 ==
               inject_Z a * (6 # 10) + inject_Z b * (4 # 10))%Q).
  { rewrite inject_Z_plus, !inject_Z_mult. field. }
  now rewrite <- E.
Qed.

Lemma X18_witness :
  exists z : Z, combineScores (of_Z 40) (of_Z 40) = of_Z z /\ z = 40%Z.
Proof.
  destruct (proj1 combineScores_between 40%Z 40%Z) as (z & H & _ & _ & E);
    [lia | lia |].
  exists z. split; [exact H | apply E; reflexivity].
Defined.

Lemma adjustment_value (factors : ContentFactors) :
  exists n : Z, adjustment_of factors = of_Z n /\ (0 <= n <= 30)%Z.
Proof.
  unfold adjustment_of, bonus.
  destruct (1000 <? length factors), (gt (complexity factors) (Fin (7 # 10))),
           (2 <? citations factors), (0 <? List.length (quotes factors)),
           (0 <? List.length (dates factors)), (statistics factors);
    eexists; (split; [vm_compute; reflexivity | lia]).
Qed.

(** The clamp to [0,100] of a number. *)
Lemma clamp_cases (w : num) :
  w <> NaN ->
  exists r : Q,
    Num.max (of_Z 0) (Num.min (of_Z 100) w) = Fin r /\
    (0 <= r <= 100)%Q /\
    (forall w' : Q, w = Fin w' -> (r == Qmax 0 (Qmin 100 w'))%Q).
Proof.
  intros Hw. destruct w as [w'| | |]; [| | |congruence].
  - destruct (val_max (val_of_Z 0) (val_min (val_of_Z 100) (val_Fin w')))
      as (r & Hr & Hv).
    exists r. split; [exact Hr|]. split.
    + rewrite Hv. split; [apply Q.le_max_l|].
      apply Q.max_lub; [discriminate | apply Q.le_min_l].
    + intros v E. injection E as <-. exact Hv.
  - exists 100%Q. split; [reflexivity|]. split; [split; discriminate|].
    intros v E. discriminate E.
  - exists 0%Q. split; [reflexivity|]. split; [split; discriminate|].
    intros v E. discriminate E.
Qed.

Lemma b64_not_NaN (x : Q) : b64 x <> NaN.
Proof.
  destruct (b64_cases x) as [[E _] | [[E _] | [E _]]]; rewrite E; discriminate.
Qed.

Lemma fadd_of_Z_not_NaN (q : Q) (n : Z) :
  (Z.abs n <= 2 ^ 53)%Z -> fadd (Fin q) (of_Z n) <> NaN.
Proof.
  intros Hn H. unfold fadd in H. rewrite (@fl_of_Z _ Hn) in H.
  apply (proj1 (fl_NaN_iff _)) in H. change (fl (Fin q)) with (b64 q) in H.
  destruct (b64 q) as [v| | |] eqn:E; try (unfold of_Z, add in H; discriminate H).
  now apply (@b64_not_NaN q).
Qed.

(** X19. [adjustScoreByFactors] returns a score within [0,100] for every
    finite score. It never lowers a score that lies there already, and an
    integer score from 0 to 100 comes back as an integer that is raised by
    at most 30. *)
Theorem adjustScoreByFactors_range :
  forall (q : Q) (factors : ContentFactors),
    exists r : Q,
      adjustScoreByFactors (Fin q) factors = Fin r /\
      (0 <= r <= 100)%Q /\
      (binary64 q -> (0 <= q <= 100)%Q -> (q <= r)%Q) /\
      (forall z : Z,
          (0 <= z <= 100)%Z -> (q == inject_Z z)%Q ->
          exists k : Z, (r == inject_Z k)%Q /\ (z <= k <= z + 30)%Z).
Proof.
  intros q factors.
  destruct (adjustment_value factors) as [n [Hn Hb]].
  unfold adjustScoreByFactors. rewrite Hn.
  assert (Sn : (Z.abs n <= 2 ^ 53)%Z) by lia.
  destruct (clamp_cases (@fadd_of_Z_not_NaN q n Sn)) as (r & Hr & Br & Hv).
  exists r. split; [exact Hr|]. split; [exact Br|].
  assert (N0 : (0 <= inject_Z n)%Q)
    by (change 0%Q with (inject_Z 0); rewrite <- Zle_Qle; lia).
  assert (N30 : (inject_Z n <= 30)%Q)
    by (change 30%Q with (inject_Z 30); rewrite <- Zle_Qle; lia).
  assert (Step : forall v : Q,
             b64 q = Fin v -> (0 <= v <= 100)%Q ->
             exists w : Q, fadd (Fin q) (of_Z n) = Fin w /\ (v <= w <= 130)%Q).
  { intros v Hq Bv. unfold fadd. rewrite (@fl_of_Z _ Sn). cbn [fl]. rewrite Hq.
    cbn [add of_Z fl].
    apply (@b64_between _ v 130 v 130);
      [rewrite Qred_correct; split; lra | now apply b64_idem with q | b64_eval]. }
  split.
  - intros Bq Rq.
    destruct (@Step (Qred q)) as (w & Hw & Bw);
      [now apply b64_fixed | rewrite Qred_correct; exact Rq |].
    rewrite (Hv w Hw). rewrite Qred_correct in Bw.
    apply Qle_trans with (Qmin 100 w); [|apply Q.le_max_r].
    apply Q.min_glb; lra.
  - intros z Hz Eq.
    assert (Hq : b64 q = of_Z z).
    { rewrite (b64_comp Eq). apply b64_of_Z. lia. }
    assert (Hw : fadd (Fin q) (of_Z n) = of_Z (z + n)).
    { unfold fadd. rewrite (@fl_of_Z _ Sn). cbn [fl]. rewrite Hq.
      rewrite add_of_Z. apply fl_of_Z. lia. }
    exists (Z.min 100 (z + n)). split; [|lia].
    rewrite (Hv _ Hw).
    assert (Z0 : (0 <= inject_Z (z + n))%Q)
      by (change 0%Q with (inject_Z 0); rewrite <- Zle_Qle; lia).
    destruct (Z_le_gt_dec (z + n) 100) as [C|C].
    + assert (Z1 : (inject_Z (z + n) <= 100)%Q)
        by (change 100%Q with (inject_Z 100); rewrite <- Zle_Qle; lia).
      rewrite Z.min_r by exact C.
      rewrite (Q.min_r _ _ Z1). now apply Q.max_r.
    + assert (Z1 : (100 <= inject_Z (z + n))%Q)
        by (change 100%Q with (inject_Z 100); rewrite <- Zle_Qle; lia).
      rewrite Z.min_l by lia.
      rewrite (Q.min_l _ _ Z1). now apply Q.max_r.
Qed.

Lemma X19_witness :
  exists r : Q,
    adjustScoreByFactors (Fin 50) (analyzeContentFactors reuters_text) = Fin r /\
    (50 <= r)%Q /\
    exists k : Z, (r == inject_Z k)%Q /\ (50 <= k <= 50 + 30)%Z.
Proof.
  destruct (adjustScoreByFactors_range 50 (analyzeContentFactors reuters_text))
    as (r & H & _ & L & I).
  exists r. split; [exact H|]. split.
  - apply L; [|split; discriminate].
    split; [exists 50%Z, 0%Z; split; [vm_compute; discriminate | split; [lia | reflexivity]]
           | split; vm_compute; reflexivity].
  - apply (I 50%Z); [lia | reflexivity].
Defined.
(* ================================================================== *)
(** * Source reliability *)

Lemma weighted_confidence (s : SourceScore.t) :
  rated s ->
  exists q : Q,
    val (reliabilityWeight (SourceScore.reliability s) * SourceScore.confidence s)%num q /\
    (-50 <= q <= 100)%Q.
Proof.
  intros [Hr [c [Hc Hb]]]. rewrite Hc.
  destruct Hr as [<- | [<- | [<- | []]]].
  - exists (100 * c)%Q. split; [|lra].
    apply (@val_mul (of_Z 100) (Fin c) 100%Q c); [apply val_of_Z | apply val_Fin].
  - exists (-50 * c)%Q. split; [|lra].
    apply (@val_mul (of_Z (-50)) (Fin c) (-50)%Q c); [apply val_of_Z | apply val_Fin].
  - exists (0 * c)%Q. split; [|lra].
    apply (@val_mul (of_Z 0) (Fin c) 0%Q c); [apply val_of_Z | apply val_Fin].
Qed.

Lemma weighted_sum (l : list SourceScore.t) :
  Forall rated l ->
  forall (acc : num) (qa k : Q),
    val acc qa -> (-50 * k <= qa <= 100 * k)%Q ->
    exists q : Q,
      val (fold_left
             (fun acc curr =>
                acc + reliabilityWeight (SourceScore.reliability curr)
                      * SourceScore.confidence curr)%num
             l acc) q /\
      (-50 * (k + inject_Z (Z.of_nat (List.length l))) <= q
       <= 100 * (k + inject_Z (Z.of_nat (List.length l))))%Q.
Proof.
  induction l as [|s tl IH]; intros Hall acc qa k Hacc Hb.
  - exists qa. split; [exact Hacc|]. simpl. change (inject_Z 0) with 0%Q. lra.
  - inversion Hall as [|? ? Hs Htl]; subst.
    destruct (weighted_confidence Hs) as [w [Hw Hwb]].
    destruct (IH Htl _ (qa + w)%Q (k + 1)%Q (val_add Hacc Hw)) as [q [Hq Hqb]];
      [lra|].
    exists q. split; [exact Hq|].
    replace (Z.of_nat (List.length (s :: tl)))
      with (Z.of_nat (List.length tl) + 1)%Z by (simpl List.length; lia).
    rewrite inject_Z_plus. change (inject_Z 1) with 1%Q. lra.
Qed.

(** X20. [calculateSourceReliability] is NaN on the empty list, the
    average being 0/0. On a list of sources rated reliable, questionable
    or unknown with confidences in [0,1] it lies between -50 and 100. *)
Theorem calculateSourceReliability_range :
  calculateSourceReliability [] = NaN /\
  forall l : list SourceScore.t,
    l <> [] -> Forall rated l ->
    fin_between (-50) 100 (calculateSourceReliability l).
Proof.
  split; [reflexivity|].
  intros l Hne Hall. unfold calculateSourceReliability.
  destruct (@weighted_sum l Hall (of_Z 0) 0%Q 0%Q (val_of_Z 0)) as [q [Hq Hb]];
    [lra|].
  set (n := inject_Z (Z.of_nat (List.length l))) in *.
  assert (Hn : (0 < n)%Q).
  { apply inject_nat_pos. destruct l; [congruence | discriminate]. }
  assert (V : val (fold_left
                     (fun acc curr =>
                        acc + reliabilityWeight (SourceScore.reliability curr)
                              * SourceScore.confidence curr)%num
                     l (of_Z 0) / of_nat (List.length l))%num (q / n)%Q).
  { apply val_div; [exact Hq | apply val_of_nat |].
    intro E. fold n in E. rewrite E in Hn. now apply Qlt_irrefl in Hn. }
  destruct V as [r [Hr Hv]]. exists r. split; [exact Hr|].
  rewrite Hv. split.
  - apply Qle_shift_div_l; [exact Hn | lra].
  - apply Qle_shift_div_r; [exact Hn | lra].
Qed.

Lemma X20_witness :
  fin_between (-50) 100
    (calculateSourceReliability
       [SourceScore.Mk "reliable" (Fin (9 # 10));
        SourceScore.Mk "questionable" (Fin 1);
        SourceScore.Mk "unknown" (Fin (1 # 2))]).
Proof.
  apply (proj2 calculateSourceReliability_range).
  - discriminate.
  - repeat constructor; simpl; try tauto;
      eexists; (split; [reflexivity | split; discriminate]).
Defined.

(* ================================================================== *)
(** * Similarity of strings that repeat no token *)

Lemma truthy_some (a : string) :
  a <> EmptyString -> truthy (Some a) = Some (of_string a).
Proof. destruct a; [congruence | reflexivity]. Qed.

Lemma uniq_seen (xs : list chars) :
  forall seen, (forall x, In x xs -> In x seen) -> uniq xs seen = [].
Proof.
  induction xs as [|x tl IH]; intros seen H; [reflexivity|].
  simpl. assert (I : includes seen x = true)
    by (apply includes_In, H; now left).
  rewrite I. apply IH. intros y Hy. apply H. now right.
Qed.

Lemma uniq_app_fresh (xs ys : list chars) :
  forall seen,
    NoDup xs -> (forall x, In x xs -> ~ In x seen) ->
    uniq (xs ++ ys) seen = (xs ++ uniq ys (rev xs ++ seen))%list.
Proof.
  induction xs as [|x tl IH]; intros seen Hnd Hfresh; [reflexivity|].
  inversion Hnd as [|? ? Hx Htl]; subst. simpl.
  destruct (includes seen x) eqn:E.
  - apply includes_In in E. exfalso. apply (Hfresh x); [now left | assumption].
  - f_equal. rewrite IH; [|assumption|].
    + now rewrite <- app_assoc.
    + intros y Hy [<- | Hs]; [contradiction|].
      apply (Hfresh y); [now right | assumption].
Qed.

Lemma quotient_val (n k : nat) :
  k <> 0 ->
  val (of_nat n / of_nat k)%num (inject_Z (Z.of_nat n) / inject_Z (Z.of_nat k))%Q.
Proof.
  intros Hk. apply val_div; [apply val_of_nat | apply val_of_nat |].
  intro E. pose proof (inject_nat_pos Hk) as P. rewrite E in P.
  now apply Qlt_irrefl in P.
Qed.

Lemma quotient_self (n : nat) : n <> 0 -> (of_nat n / of_nat n)%num = of_Z 1.
Proof.
  intros Hn. pose proof (inject_nat_pos Hn) as P.
  unfold div, of_nat, of_Z.
  destruct (inject_Z (Z.of_nat n) ?= 0)%Q eqn:E.
  - apply Qeq_alt in E. rewrite E in P. now apply Qlt_irrefl in P.
  - f_equal. change (inject_Z 1) with (Qred 1). apply Qred_complete.
    apply Qmult_inv_r. intro Z0. rewrite Z0 in P. now apply Qlt_irrefl in P.
  - f_equal. change (inject_Z 1) with (Qred 1). apply Qred_complete.
    apply Qmult_inv_r. intro Z0. rewrite Z0 in P. now apply Qlt_irrefl in P.
Qed.

Lemma filter_all (A : Type) (p : A -> bool) (l : list A) :
  (forall x, In x l -> p x = true) -> filter p l = l.
Proof.
  induction l as [|x tl IH]; intros H; [reflexivity|].
  simpl. rewrite (H x (or_introl eq_refl)). f_equal.
  apply IH. intros y Hy. apply H. now right.
Qed.

(** X21. For a first string that repeats no token the similarity is a
    fraction in [0,1], and the similarity of such a string with itself
    is 1. *)
Theorem similarity_without_repetition :
  forall a b : string,
    a <> EmptyString -> b <> EmptyString ->
    NoDup (tokens (of_string a)) ->
    fin_between 0 1 (calculateSimilarity (Some a) (Some b)) /\
    calculateSimilarity (Some a) (Some a) = of_Z 1.
Proof.
  intros a b Ha Hb Hnd.
  assert (Hw : List.length (tokens (of_string a)) <> 0).
  { assert (T : tokens (of_string a) <> []).
    { apply tokens_nonempty. destruct a; [congruence | discriminate]. }
    destruct (tokens (of_string a)); [congruence | discriminate]. }
  unfold calculateSimilarity. rewrite (truthy_some Ha), (truthy_some Hb).
  unfold similarity_of_words.
  remember (tokens (of_string a)) as w1 eqn:E1. clear E1.
  remember (tokens (of_string b)) as w2 eqn:E2. clear E2.
  split.
  - assert (Hu : List.length w1 <= List.length (uniq (w1 ++ w2) [])).
    { rewrite uniq_app_fresh; [|assumption | intros x _ []].
      rewrite length_app. lia. }
    assert (Hf : List.length (filter (fun word => includes w2 word) w1)
                 <= List.length w1) by apply filter_length_le.
    assert (Hk : List.length (uniq (w1 ++ w2) []) <> 0) by lia.
    destruct (quotient_val (List.length (filter (fun word => includes w2 word) w1)) Hk)
      as [q [Hq Hv]].
    exists q. split; [exact Hq|]. rewrite Hv.
    pose proof (inject_nat_pos Hk) as P. split.
    + apply Qdiv_nonneg; [apply inject_nat_nonneg | exact P].
    + apply Qle_shift_div_r; [exact P|]. rewrite Qmult_1_l.
      rewrite <- Zle_Qle. lia.
  - rewrite filter_all by (intros x Hx; now apply includes_In).
    rewrite uniq_app_fresh; [|assumption | intros x _ []].
    rewrite uniq_seen.
    + rewrite app_nil_r. now apply quotient_self.
    + intros x Hx. apply in_or_app. left. now apply in_rev in Hx.
Qed.

Lemma X21_witness :
  fin_between 0 1 (calculateSimilarity (Some "Breaking news today")
                                       (Some "breaking news")) /\
  calculateSimilarity (Some "Breaking news today") (Some "Breaking news today")
    = of_Z 1.
Proof.
  apply (@similarity_without_repetition "Breaking news today" "breaking news");
    try discriminate.
  vm_compute. repeat constructor; simpl; intuition discriminate.
Defined.

Lemma quotient_zero_iff (n k : nat) :
  k <> 0 -> ((of_nat n / of_nat k)%num = of_Z 0 <-> n = 0).
Proof.
  intros Hk. pose proof (inject_nat_pos Hk) as P.
  assert (Hnz : ~ (inject_Z (Z.of_nat k) == 0)%Q)
    by (intro E; rewrite E in P; now apply Qlt_irrefl in P).
  destruct (quotient_val n Hk) as [q [Hq Hv]]. split.
  - intros H0. rewrite H0 in Hq. unfold of_Z in Hq. injection Hq as <-.
    assert (Hz : (inject_Z (Z.of_nat n) == inject_Z 0)%Q).
    { rewrite <- (@Qmult_div_r (inject_Z (Z.of_nat n)) (inject_Z (Z.of_nat k)) Hnz).
      rewrite <- Hv. change (inject_Z 0) with 0%Q. apply Qmult_0_r. }
    apply (proj1 (inject_Z_injective _ _)) in Hz. lia.
  - intros ->. unfold div, of_nat, of_Z.
    destruct (inject_Z (Z.of_nat k) ?= 0)%Q eqn:E.
    + apply Qeq_alt in E. contradiction.
    + reflexivity.
    + reflexivity.
Qed.

(** X22. The similarity of two non-empty strings is 0 exactly when no
    token of the first, letter case aside, is a token of the second. *)
Theorem similarity_zero_iff_no_shared_token :
  forall a b : string,
    a <> EmptyString -> b <> EmptyString ->
    (calculateSimilarity (Some a) (Some b) = of_Z 0 <->
     forall w, In w (tokens (of_string a)) -> ~ In w (tokens (of_string b))).
Proof.
  intros a b Ha Hb.
  assert (Hw : tokens (of_string a) <> []).
  { apply tokens_nonempty. destruct a; [congruence | discriminate]. }
  unfold calculateSimilarity. rewrite (truthy_some Ha), (truthy_some Hb).
  unfold similarity_of_words.
  remember (tokens (of_string a)) as w1 eqn:E1. clear E1.
  remember (tokens (of_string b)) as w2 eqn:E2. clear E2.
  assert (Hk : List.length (uniq (w1 ++ w2) []) <> 0).
  { assert (U : uniq (w1 ++ w2) [] <> []).
    { apply uniq_nonempty. destruct w1; [congruence | discriminate]. }
    destruct (uniq (w1 ++ w2) []); [congruence | discriminate]. }
  rewrite (quotient_zero_iff _ Hk). split.
  - intros Hf w Hin Hin2.
    assert (F : In w (filter (fun word => includes w2 word) w1))
      by (apply filter_In; split; [assumption | now apply includes_In]).
    destruct (filter (fun word => includes w2 word) w1);
      [contradiction | discriminate].
  - intros H.
    destruct (filter (fun word => includes w2 word) w1) as [|w tl] eqn:E;
      [reflexivity|]. exfalso.
    assert (Hin : In w (filter (fun word => includes w2 word) w1))
      by (rewrite E; now left).
    apply filter_In in Hin. destruct Hin as [H1 H2].
    apply includes_In in H2. exact (H w H1 H2).
Qed.

Lemma X22_witness :
  calculateSimilarity (Some "markets rally") (Some "storm warning") = of_Z 0 <->
  forall w, In w (tokens (of_string "markets rally")) ->
            ~ In w (tokens (of_string "storm warning")).
Proof.
  apply (@similarity_zero_iff_no_shared_token "markets rally" "storm warning");
    discriminate.
Defined.

(* ================================================================== *)
(** * What the extractors report *)

Lemma match_at_text (ic : bool) (r : regex) (p : nat) (pv : option ascii)
    (cs : chars) (mt : jsmatch) :
  match_at ic r p pv cs = Some mt -> exists n, mtext mt = firstn n cs.
Proof.
  unfold match_at.
  destruct (m ic r (MState p pv cs []) (fun y => Some y)) as [y|]; [|discriminate].
  intros H. injection H as <-. now exists (pos y - p).
Qed.

Lemma occurs_in_prefix (n : nat) (cs : chars) : occurs_in (firstn n cs) cs.
Proof. exists [], (skipn n cs). simpl. now rewrite firstn_skipn. Qed.

Lemma occurs_in_cons (sub cs : chars) (c : ascii) :
  occurs_in sub cs -> occurs_in sub (c :: cs).
Proof. intros [pre [post ->]]. now exists (c :: pre), post. Qed.

(** Every match of a global pattern is a run of characters of the text. *)
Lemma scan_occurs (ic : bool) (r : regex) (cs : chars) :
  forall skip p pv mt,
    In mt (scan ic r skip p pv cs) -> occurs_in (mtext mt) cs.
Proof.
  induction cs as [|c tl IH]; intros skip p pv mt; simpl.
  - destruct skip; [|intros []].
    destruct (match_at ic r p pv []) as [mt'|] eqn:E; [|intros []].
    intros [<- | []]. destruct (match_at_text _ _ _ _ _ E) as [n ->].
    apply occurs_in_prefix.
  - destruct skip as [|sk].
    + destruct (match_at ic r p pv (c :: tl)) as [mt'|] eqn:E.
      * intros [<- | Hin].
        -- destruct (match_at_text _ _ _ _ _ E) as [n ->]. apply occurs_in_prefix.
        -- apply occurs_in_cons. exact (IH _ _ _ _ Hin).
      * intros Hin. apply occurs_in_cons. exact (IH _ _ _ _ Hin).
    + intros Hin. apply occurs_in_cons. exact (IH _ _ _ _ Hin).
Qed.

(** X23. Every date [extractDates] returns is a run of consecutive
    characters of the text: nothing is reformatted or made up. *)
Theorem extractDates_occur_in_text :
  forall (content d : string),
    In d (extractDates content) ->
    occurs_in (of_string d) (of_string content).
Proof.
  intros content d H. unfold extractDates in H.
  apply in_flat_map in H. destruct H as [p [_ H]].
  apply in_map_iff in H. destruct H as [t [<- H]].
  unfold match_g in H. apply in_map_iff in H. destruct H as [mt [<- H]].
  unfold to_string, of_string. rewrite list_ascii_of_string_of_list_ascii.
  exact (scan_occurs _ _ _ _ _ _ _ H).
Qed.

Lemma X23_witness :
  occurs_in (of_string "2024-01-05") (of_string "Filed on 2024-01-05.").
Proof.
  apply (@extractDates_occur_in_text "Filed on 2024-01-05." "2024-01-05").
  vm_compute. tauto.
Defined.


(* ================================================================== *)
(** * Complexity is a number exactly when the text has a word *)

(** With a word and no sentence, as in a text made of full stops, the
    sentence average is infinite and its share is the full 0.3. *)
Lemma complexity_without_sentences (letters nwords ncomplex : nat) :
  nwords <> 0 ->
  fin_between 0 1 (complexity_of_counts letters nwords 0 ncomplex).
Proof.
  intros Hw.
  set (l := inject_Z (Z.of_nat letters)).
  set (w := inject_Z (Z.of_nat nwords)).
  set (c := inject_Z (Z.of_nat ncomplex)).
  assert (Pw : (0 < w)%Q) by now apply inject_nat_pos.
  assert (Nl : (0 <= l)%Q) by apply inject_nat_nonneg.
  assert (Nc : (0 <= c)%Q) by apply inject_nat_nonneg.
  assert (S1 : (of_nat nwords / of_nat 0)%num = PInf).
  { unfold div, of_nat, of_Z.
    change (inject_Z (Z.of_nat 0) ?= 0)%Q with Eq.
    unfold inf_signed. fold w.
    destruct (w ?= 0)%Q eqn:E; [| |reflexivity].
    - apply Qeq_alt in E. rewrite E in Pw. now apply Qlt_irrefl in Pw.
    - apply Qlt_alt in E. exfalso. apply (Qlt_irrefl 0).
      now apply Qlt_trans with w. }
  assert (V : val (complexity_of_counts letters nwords 0 ncomplex)
                  (Qmin (l / w / 8) 1 * (3 # 10) + 1 * (3 # 10)
                   + Qmin (c / (w * (1 # 10))) 1 * (4 # 10))%Q).
  { unfold complexity_of_counts. rewrite S1.
    change (Num.min (PInf / of_Z 25)%num (of_Z 1)) with (of_Z 1).
    repeat first
      [ apply val_add | apply val_mul | apply val_min | apply val_Fin
      | apply val_of_nat | apply val_of_Z
      | apply val_div; [ | | try discriminate; intro E; fold w in E; lra ] ]. }
  destruct V as [q [Hq Hv]]. exists q. split; [exact Hq|].
  rewrite Hv.
  assert (B1 : (0 <= Qmin (l / w / 8) 1 <= 1)%Q).
  { apply capped_fraction. apply Qdiv_nonneg; [|reflexivity].
    now apply Qdiv_nonneg. }
  assert (B3 : (0 <= Qmin (c / (w * (1 # 10))) 1 <= 1)%Q).
  { apply capped_fraction. apply Qdiv_nonneg; [assumption | lra]. }
  split; lra.
Qed.

(** X25. [calculateTextComplexity] returns NaN exactly on the texts that
    have no word (the empty text, white space only); on every text with a
    word it returns a number in [0,1], whether or not the text has a
    sentence. *)
Theorem calculateTextComplexity_number_iff_word :
  forall text : string,
    (words_of (of_string text) = [] -> calculateTextComplexity text = NaN) /\
    (words_of (of_string text) <> [] ->
     fin_between 0 1 (calculateTextComplexity text)).
Proof.
  intros text. split.
  - apply calculateTextComplexity_without_words.
  - intros Hw.
    destruct (sentences_of (of_string text)) as [|s ss] eqn:E.
    + unfold calculateTextComplexity. rewrite E.
      apply complexity_without_sentences.
      destruct (words_of (of_string text)); [congruence | discriminate].
    + apply calculateTextComplexity_regular; [assumption|].
      rewrite E. discriminate.
Qed.

Lemma X25_witness :
  calculateTextComplexity "   " = NaN /\
  fin_between 0 1 (calculateTextComplexity "...") /\
  fin_between 0 1 (calculateTextComplexity "Markets rallied. Nevertheless, doubts remain!").
Proof.
  split; [|split].
  - apply (proj1 (calculateTextComplexity_number_iff_word "   ")).
    vm_compute. reflexivity.
  - apply (proj2 (calculateTextComplexity_number_iff_word "...")).
    vm_compute. discriminate.
  - apply (proj2 (calculateTextComplexity_number_iff_word
                    "Markets rallied. Nevertheless, doubts remain!")).
    vm_compute. discriminate.
Defined.

(* ================================================================== *)
(** * The stand-alone analyzer *)

(** X26. [analyzeContent] never throws. When both requests answer it
    returns their data with the combination; when a request throws it
    returns the error object "Analysis failed" with the message of a
    thrown error. *)
Theorem analyzeContent_never_throws :
  forall (hfApi mistralApi : string -> completion Analyze.Data.t) (content : string),
    (exists r, Analyze.analyzeContent hfApi mistralApi content = Normal r) /\
    (forall h mi,
        hfApi content = Normal h -> mistralApi content = Normal mi ->
        Analyze.analyzeContent hfApi mistralApi content =
        Normal (Analyze.Analysed h mi (Analyze.combineAnalysis h mi))) /\
    ((exists e, hfApi content = Throw e) \/ (exists e, mistralApi content = Throw e) ->
     exists message,
       Analyze.analyzeContent hfApi mistralApi content =
       Normal (Analyze.Failed "Analysis failed" message) /\
       (hfApi content = Throw message \/ mistralApi content = Throw message)).
Proof.
  intros hfApi mistralApi content.
  unfold Analyze.analyzeContent, try_catch, bind.
  destruct (hfApi content) as [h|e1]; destruct (mistralApi content) as [mi|e2].
  - split; [eexists; reflexivity|]. split.
    + intros h' mi' H1 H2. injection H1 as <-. injection H2 as <-. reflexivity.
    + intros [[e H] | [e H]]; discriminate.
  - split; [eexists; reflexivity|]. split; [intros h' mi' _ H; discriminate|].
    intros _. exists e2. split; [reflexivity | now right].
  - split; [eexists; reflexivity|]. split; [intros h' mi' H; discriminate|].
    intros _. exists e1. split; [reflexivity | now left].
  - split; [eexists; reflexivity|]. split; [intros h' mi' H; discriminate|].
    intros _. exists e1. split; [reflexivity | now left].
Qed.

Lemma X26_witness :
  exists message,
    Analyze.analyzeContent
      (fun _ => Normal (Analyze.Data.Mk (Fin (8 # 10)) (of_Z 90)))
      (fun _ => Throw "Request failed with status code 401")
      scenario_text
    = Normal (Analyze.Failed "Analysis failed" message).
Proof.
  destruct (proj2 (proj2 (analyzeContent_never_throws
              (fun _ => Normal (Analyze.Data.Mk (Fin (8 # 10)) (of_Z 90)))
              (fun _ => Throw "Request failed with status code 401")
              scenario_text)))
    as [message [H _]].
  - right. exists "Request failed with status code 401". reflexivity.
  - exists message. exact H.
Defined.

Lemma half_is_binary64 (n : Z) :
  (Z.abs n <= 2 ^ 53)%Z -> binary64 (inject_Z n / 2).
Proof.
  intros H. split.
  - exists n, (-1)%Z. split; [exact H|]. split; [lia|].
    change (2 ^ (-1))%Q with (/ 2)%Q. reflexivity.
  - assert (P : (2 ^ 53 < 2 ^ 1024)%Q) by (apply pow2_lt; lia).
    rewrite <- (@pow2_Z 53) in P by lia.
    assert (A : (inject_Z n <= inject_Z (2 ^ 53))%Q) by (rewrite <- Zle_Qle; lia).
    assert (B : (inject_Z (- 2 ^ 53) <= inject_Z n)%Q) by (rewrite <- Zle_Qle; lia).
    rewrite inject_Z_opp in B.
    assert (P0 : (0 < inject_Z (2 ^ 53))%Q) by reflexivity.
    split.
    + apply Qlt_shift_div_l; [reflexivity | lra].
    + apply Qlt_shift_div_r; [reflexivity | lra].
Qed.

Lemma mean_of_integers (a b : Z) :
  (Z.abs a <= 2 ^ 52)%Z -> (Z.abs b <= 2 ^ 52)%Z ->
  exists v : Q,
    fdiv (fadd (of_Z a) (of_Z b)) (of_Z 2) = Fin v /\
    (v == (inject_Z a + inject_Z b) / 2)%Q.
Proof.
  intros Ha Hb.
  assert (S : fadd (of_Z a) (of_Z b) = of_Z (a + b)).
  { unfold fadd. rewrite !fl_of_Z by lia. rewrite add_of_Z. apply fl_of_Z. lia. }
  rewrite S. unfold fdiv. rewrite !fl_of_Z by lia.
  unfold of_Z, div. change (inject_Z 2 ?= 0)%Q with Gt. unfold fl.
  assert (B : binary64 (inject_Z (a + b) / 2)) by (apply half_is_binary64; lia).
  assert (E : (Qred (inject_Z (a + b) / inject_Z 2) == inject_Z (a + b) / 2)%Q)
    by apply Qred_correct.
  rewrite (b64_comp E), (b64_fixed B).
  eexists. split; [reflexivity|].
  rewrite Qred_correct, inject_Z_plus. reflexivity.
Qed.

(** X27. [combineAnalysis] weighs the two scores 0.6 and 0.4 in binary64
    and does not round the sum: scores in [0,1] give a credibility score
    in [0,1], scores in [0,100] one in [0,100], and the scores 0.8 and 0.5
    give 0.6799999999999999, just below 0.68. The confidence is the mean
    of the two confidences rounded to the nearest integer; for integer
    confidences of at most 52 bits it lies between them. *)
Theorem combineAnalysis_between :
  (forall (x y : Q) (c1 c2 : num),
      (0 <= x <= 1)%Q -> (0 <= y <= 1)%Q ->
      fin_between 0 1
        (Analyze.Combined.credibilityScore
           (Analyze.combineAnalysis (Analyze.Data.Mk (Fin x) c1)
                                    (Analyze.Data.Mk (Fin y) c2)))) /\
  (forall (x y : Q) (c1 c2 : num),
      (0 <= x <= 100)%Q -> (0 <= y <= 100)%Q ->
      fin_between 0 100
        (Analyze.Combined.credibilityScore
           (Analyze.combineAnalysis (Analyze.Data.Mk (Fin x) c1)
                                    (Analyze.Data.Mk (Fin y) c2)))) /\
  (forall (s1 s2 : num) (a b : Z),
      (Z.abs a <= 2 ^ 52)%Z -> (Z.abs b <= 2 ^ 52)%Z ->
      exists z : Z,
        Analyze.Combined.confidence
          (Analyze.combineAnalysis (Analyze.Data.Mk s1 (of_Z a))
                                   (Analyze.Data.Mk s2 (of_Z b))) = of_Z z /\
        nearest_integer ((inject_Z a + inject_Z b) / 2) z /\
        (Z.min a b <= z <= Z.max a b)%Z) /\
  (Analyze.Combined.credibilityScore
     (Analyze.combineAnalysis (Analyze.Data.Mk (Fin (8 # 10)) (of_Z 90))
                              (Analyze.Data.Mk (Fin (5 # 10)) (of_Z 80))) =
   Fin (3062447746611937 # 4503599627370496) /\
   (3062447746611937 # 4503599627370496 < 68 # 100)%Q).
Proof.
  assert (U : forall (h : Q) (q : Q),
             (0 <= q <= h)%Q -> b64 0 = Fin 0 -> b64 h = Fin h ->
             fin_between 0 h (fl (Fin q))).
  { intros h q Hq H0 Hh. apply (@fl_fin_between (Fin q) 0 h);
      [now apply fin_between_Fin | exact H0 | exact Hh]. }
  split; [|split; [|split]].
  - intros x y c1 c2 Hx Hy. unfold Analyze.combineAnalysis.
    cbn [Analyze.Combined.credibilityScore Analyze.Data.score].
    apply (@weighted_sum_between _ _ 1
             (5404319552844595 # 9007199254740992)
             (3602879701896397 # 9007199254740992) 1);
      [apply U; [exact Hx | b64_eval | b64_eval]
      | apply U; [exact Hy | b64_eval | b64_eval]
      | b64_eval | b64_eval | b64_eval].
  - intros x y c1 c2 Hx Hy. unfold Analyze.combineAnalysis.
    cbn [Analyze.Combined.credibilityScore Analyze.Data.score].
    apply (@weighted_sum_between _ _ 100 60 40 100);
      [apply U; [exact Hx | b64_eval | b64_eval]
      | apply U; [exact Hy | b64_eval | b64_eval]
      | b64_eval | b64_eval | b64_eval].
  - intros s1 s2 a b Ha Hb. unfold Analyze.combineAnalysis.
    cbn [Analyze.Combined.confidence Analyze.Data.confidence].
    destruct (@mean_of_integers a b Ha Hb) as (v & Hv & Ev). rewrite Hv.
    exists (round_Q v). split; [reflexivity|].
    assert (N := nearest_integer_round v). unfold nearest_integer in *.
    split; [destruct N as [N1 N2]; split; lra|].
    unfold round_Q. rewrite (Qfloor_comp _ ((inject_Z a + inject_Z b) / 2 + (1 # 2))%Q)
      by now rewrite Ev.
    apply round_Q_bounds.
    assert (Hmin_a : (inject_Z (Z.min a b) <= inject_Z a)%Q)
      by (rewrite <- Zle_Qle; lia).
    assert (Hmin_b : (inject_Z (Z.min a b) <= inject_Z b)%Q)
      by (rewrite <- Zle_Qle; lia).
    assert (Hmax_a : (inject_Z a <= inject_Z (Z.max a b))%Q)
      by (rewrite <- Zle_Qle; lia).
    assert (Hmax_b : (inject_Z b <= inject_Z (Z.max a b))%Q)
      by (rewrite <- Zle_Qle; lia).
    split.
    + apply Qle_shift_div_l; [reflexivity | lra].
    + apply Qle_shift_div_r; [reflexivity | lra].
  - split; [vm_compute; reflexivity | reflexivity].
Qed.

Lemma X27_witness :
  fin_between 0 1
    (Analyze.Combined.credibilityScore
       (Analyze.combineAnalysis (Analyze.Data.Mk (Fin (8 # 10)) (of_Z 90))
                                (Analyze.Data.Mk (Fin (5 # 10)) (of_Z 80)))) /\
  exists z : Z,
    Analyze.Combined.confidence
      (Analyze.combineAnalysis (Analyze.Data.Mk (Fin (8 # 10)) (of_Z 90))
                               (Analyze.Data.Mk (Fin (5 # 10)) (of_Z 80))) = of_Z z /\
    (80 <= z <= 90)%Z.
Proof.
  split.
  - apply (proj1 combineAnalysis_between); split; discriminate.
  - destruct (proj1 (proj2 (proj2 combineAnalysis_between))
                (Fin (8 # 10)) (Fin (5 # 10)) 90%Z 80%Z) as (z & Hz & _ & Bz);
      [vm_compute; discriminate | vm_compute; discriminate |].
    exists z. split; [exact Hz | lia].
Defined.

(* ================================================================== *)
(** * Statistics and quotes *)

Lemma digit_class (d : ascii) : in_class false cls_digit d = is_digit d.
Proof. unfold in_class, cls_digit, is_digit, in_range, rng. simpl. apply orb_false_r. Qed.

(** The percentage pattern matches at a digit followed by the sign. *)
Lemma percent_matches (d : ascii) (post : chars) (p : nat) (pv : option ascii) :
  is_digit d = true ->
  match_at false (Seq (plus digit) (Chr "%")) p pv (d :: "%"%char :: post) <> None.
Proof.
  intros Hd. unfold match_at, m, plus, digit.
  cbn -[in_class]. rewrite digit_class, Hd.
  cbn -[in_class].
  replace (in_class false cls_digit "%"%char) with false by (vm_compute; reflexivity).
  cbn. rewrite Nat.eqb_refl. discriminate.
Qed.

(** A pattern that matches at some place of the text is found. *)
Lemma search_finds (ic : bool) (r : regex) (cs : chars) :
  (forall p pv, match_at ic r p pv cs <> None) ->
  forall (pre : chars) p pv, search ic r p pv (pre ++ cs)%list <> None.
Proof.
  intros H. induction pre as [|a pre IH]; intros p pv.
  - specialize (H p pv). simpl. destruct cs as [|c tl]; simpl;
      destruct (match_at ic r p pv _); congruence.
  - simpl. destruct (match_at ic r p pv (a :: pre ++ cs)%list); [discriminate | apply IH].
Qed.

(** X28. A text in which a digit is directly followed by a percent sign
    has statistics, whatever else it holds. *)
Theorem hasStatistics_on_percentage :
  forall (content : string) (pre post : chars) (d : ascii),
    of_string content = (pre ++ d :: "%"%char :: post)%list ->
    is_digit d = true ->
    hasStatistics content = true.
Proof.
  intros content pre post d Hc Hd.
  unfold hasStatistics, statPatterns. cbn [existsb fst snd].
  apply orb_true_iff. left. unfold test. rewrite Hc.
  pose proof (@search_finds false (Seq (plus digit) (Chr "%"))
                (d :: "%"%char :: post)
                (fun p pv => @percent_matches d post p pv Hd) pre 0 None) as F.
  destruct (search false (Seq (plus digit) (Chr "%")) 0 None
                   (pre ++ d :: "%"%char :: post)%list); [reflexivity | congruence].
Qed.

Lemma X28_witness : hasStatistics "Turnout rose to 61% overall" = true.
Proof.
  apply (@hasStatistics_on_percentage "Turnout rose to 61% overall"
           (of_string "Turnout rose to 6") (of_string " overall") "1"%char);
    reflexivity.
Defined.

Section Quotes.

Lemma clear_no_caps (x : mstate) : clear_caps [] x = x.
Proof.
  destruct x as [p pv cs cp]. unfold clear_caps. simpl. f_equal.
  induction cp as [|c cp IH]; [reflexivity|]. simpl. now rewrite IH.
Qed.

(** A quantifier without maximum over a one-character pattern consumes a
    run of characters that pass the test, at least as many as its
    minimum, before the continuation accepts. *)
Lemma rep_atom (test : ascii -> bool) (K : mstate -> option mstate) :
  forall fuel mn x z,
    rep (atom test) [] K fuel mn None x = Some z ->
    exists w y,
      rest x = (w ++ rest y)%list /\
      pos y = pos x + List.length w /\
      forallb test w = true /\
      mn <= List.length w /\
      K y = Some z.
Proof.
  induction fuel as [|fuel IH]; intros mn x z; [discriminate|].
  simpl. rewrite clear_no_caps.
  assert (Round :
    atom test x
      (fun y => if (mn =? 0) && (pos y =? pos x) then None
                else rep (atom test) [] K fuel (Nat.pred mn) None y) = Some z ->
    exists w y,
      rest x = (w ++ rest y)%list /\ pos y = pos x + List.length w /\
      forallb test w = true /\ mn <= List.length w /\ K y = Some z).
  { unfold atom. destruct (rest x) as [|d tl] eqn:E; [discriminate|].
    destruct (test d) eqn:T; [|discriminate].
    assert (P : (pos (advance x d tl) =? pos x) = false)
      by (apply Nat.eqb_neq; simpl; lia).
    rewrite P, andb_false_r. intros H.
    destruct (IH _ _ _ H) as (w & y & Hw & Hp & Ht & Hm & Hk).
    exists (d :: w), y. simpl in Hw, Hp. simpl.
    rewrite Hw, T, Ht. repeat split; try lia. exact Hk. }
  destruct (Nat.eqb_spec mn 0) as [->|Hmn]; [|exact Round].
  destruct (atom test x _) as [z'|] eqn:A.
  - intros H. injection H as ->. now apply Round.
  - intros H. exists [], x. simpl. repeat split; try lia. exact H.
Qed.

Lemma code_inj (a b : ascii) : code a = code b -> a = b.
Proof.
  unfold code. intros H.
  rewrite <- (ascii_nat_embedding a), <- (ascii_nat_embedding b). now rewrite H.
Qed.

Lemma not_the_mark (q : ascii) (w : chars) :
  forallb (fun d => xorb true (in_class false [one q] d)) w = true -> ~ In q w.
Proof.
  intros H Hin. rewrite forallb_forall in H. specialize (H q Hin).
  unfold in_class, in_range, one, between in H. simpl in H.
  rewrite Nat.leb_refl in H. discriminate.
Qed.

(** A match of a quote pattern spans a mark, a non-empty run without the
    mark, which is its first group, and the mark again. *)
Lemma quoted_match (q : ascii) (p : nat) (pv : option ascii) (cs : chars)
    (mt : jsmatch) :
  match_at false (quoted q) p pv cs = Some mt ->
  exists w tl,
    cs = (q :: w ++ q :: tl)%list /\ w <> [] /\ ~ In q w /\
    group_or_empty 1 mt = w.
Proof.
  unfold match_at, m, quoted, seqs, plus.
  destruct (m_with 0 false _ _ _) as [z|] eqn:M; [|discriminate].
  intros H. injection H as <-.
  cbn [m_with rest pos] in M.
  destruct cs as [|d tl]; [discriminate|].
  destruct (ceq false q d) eqn:C; [|discriminate].
  apply Nat.eqb_eq, code_inj in C. subst d.
  change (m_with 0 false (Cls true [one q]))
    with (atom (fun d => xorb true (in_class false [one q] d))) in M.
  cbn [groups] in M.
  destruct (rep_atom _ _ _ _ _ M) as (w & y & Hw & Hp & Ht & Hm & Hk).
  cbn [rest pos advance] in Hw, Hp.
  cbn [rest set_cap] in Hk.
  destruct (rest y) as [|d' tl'] eqn:Ey; [discriminate|].
  destruct (ceq false q d') eqn:C'; [|discriminate].
  apply Nat.eqb_eq, code_inj in C'. subst d'.
  injection Hk as <-.
  exists w, tl'. split; [now rewrite Hw|].
  split; [destruct w; [simpl in Hm; lia | discriminate]|].
  split; [now apply not_the_mark|].
  unfold group_or_empty, group.
  cbn [mcaps caps advance set_cap get_cap fst snd Nat.eqb].
  replace (pos y - S p) with (List.length w) by lia.
  rewrite Hw. rewrite firstn_app, Nat.sub_diag, firstn_all. simpl.
  apply app_nil_r.
Qed.

(** Every match of a global pattern is a match at some place of the text. *)
Lemma scan_from_match (ic : bool) (r : regex) (cs : chars) :
  forall skip p pv mt,
    In mt (scan ic r skip p pv cs) ->
    exists pre suf p' pv',
      cs = (pre ++ suf)%list /\ match_at ic r p' pv' suf = Some mt.
Proof.
  assert (Lift : forall c tl mt,
            (exists pre suf p' pv',
                tl = (pre ++ suf)%list /\ match_at ic r p' pv' suf = Some mt) ->
            exists pre suf p' pv',
              c :: tl = (pre ++ suf)%list /\ match_at ic r p' pv' suf = Some mt).
  { intros c tl mt (pre & suf & p' & pv' & -> & H).
    now exists (c :: pre), suf, p', pv'. }
  induction cs as [|c tl IH]; intros skip p pv mt; simpl.
  - destruct skip; [|intros []].
    destruct (match_at ic r p pv []) as [mt'|] eqn:E; [|intros []].
    intros [<- | []]. now exists [], [], p, pv.
  - destruct skip as [|sk].
    + destruct (match_at ic r p pv (c :: tl)) as [mt'|] eqn:E.
      * intros [<- | Hin]; [now exists [], (c :: tl), p, pv|].
        apply Lift. exact (IH _ _ _ _ Hin).
      * intros Hin. apply Lift. exact (IH _ _ _ _ Hin).
    + intros Hin. apply Lift. exact (IH _ _ _ _ Hin).
Qed.

End Quotes.

(** X29. Every string [extractQuotes] returns is a quoted span of the
    text: it stood between two double or two single quotation marks, is
    not empty, and holds no mark of the kind that delimits it. *)
Theorem extractQuotes_are_quoted_spans :
  forall (content v : string),
    In v (extractQuotes content) ->
    quoted_span dquote (of_string v) (of_string content) \/
    quoted_span "'"%char (of_string v) (of_string content).
Proof.
  intros content v H. unfold extractQuotes in H.
  apply in_flat_map in H. destruct H as [pat [Hpat H]].
  apply in_map_iff in H. destruct H as [mt [<- H]].
  unfold match_all in H.
  destruct (scan_from_match _ _ _ _ _ _ _ H) as (pre & suf & p' & pv' & Hc & Hm).
  unfold to_string, of_string. rewrite list_ascii_of_string_of_list_ascii.
  assert (G : forall q, pat = quoted q ->
                quoted_span q (group_or_empty 1 mt) (list_ascii_of_string content)).
  { intros q ->. destruct (quoted_match _ _ _ _ Hm) as (w & tl & Hs & Hne & Hq & ->).
    split; [assumption|]. split; [assumption|].
    exists pre, tl. unfold of_string in Hc. now rewrite Hc, Hs. }
  unfold quotePatterns in Hpat.
  destruct Hpat as [<- | [<- | [<- | [<- | []]]]];
    [left | right | left | right]; now apply G.
Qed.

Lemma X29_witness :
  quoted_span dquote (of_string "It was fair,") (of_string reuters_text) \/
  quoted_span "'"%char (of_string "It was fair,") (of_string reuters_text).
Proof.
  apply (@extractQuotes_are_quoted_spans reuters_text "It was fair,").
  vm_compute. tauto.
Defined.
